(** * The Funky neuron of snntorch/_neurons/funky.py

    A shallow embedding of the [Funky] leaky integrate-and-fire neuron
    (a [LIF] subclass whose firing threshold is perturbed by Gaussian noise
    whenever a spike is fired) and the properties of its forward step.

    Numbers are exact rationals ([Qc]): floating-point rounding, overflow and
    NaN are outside the model, and [x / 0] follows [Qc]'s convention.
    Tensors are a shape with row-major data; elementwise operations follow
    the broadcasting rule of the tensor library (shapes are right-aligned,
    a dimension of size 1 is stretched, anything else is an error).
    The threshold tensor is mutated in place by the code, so it lives in a
    store and attributes or local variables hold its location.  The random
    generator is a stream of standard-normal draws and a position in it. *)

From Stdlib Require Import List Arith Lia Bool QArith Qcanon Qround.
Import ListNotations.

Open Scope Qc_scope.

(** ** Lists *)

Fixpoint map2 {A B C : Type} (f : A -> B -> C) (l1 : list A) (l2 : list B)
  : list C :=
  match l1, l2 with
  | x :: l1', y :: l2' => f x y :: map2 f l1' l2'
  | _, _ => []
  end.

Fixpoint chunks {A : Type} (n k : nat) (d : list A) : list (list A) :=
  match k with
  | O => []
  | S k' => firstn n d :: chunks n k' (skipn n d)
  end.

(** ** Scalars *)

Definition Qcltb (x y : Qc) : bool :=
  match x ?= y with Lt => true | _ => false end.

Definition Qcmax (x y : Qc) : Qc := if Qcltb x y then y else x.
Definition Qcmin (x y : Qc) : Qc := if Qcltb y x then y else x.

(** [x.clamp(lo, hi)] is [min(max(x, lo), hi)]. *)
Definition clamp (lo hi x : Qc) : Qc := Qcmin (Qcmax x lo) hi.

(** Forward value of every surrogate spike function: [(x > 0).float()]. *)
Definition heaviside (x : Qc) : Qc := if Qcltb 0 x then 1 else 0.

Definition nonzero (x : Qc) : bool := negb (Qc_eq_bool x 0).

(** ** Exceptions and results *)

Inductive exn : Set :=
| TypeError
| UnboundLocalError
| RuntimeError
| IndexError.

Inductive result (A : Type) : Type :=
| Ok (a : A)
| Raise (e : exn).
Arguments Ok {A} a.
Arguments Raise {A} e.

Definition rbind {A B : Type} (r : result A) (k : A -> result B) : result B :=
  match r with
  | Ok a => k a
  | Raise e => Raise e
  end.

(** ** Tensors *)

Record tensor : Type := Tensor { shape : list nat; data : list Qc }.

Definition numel (s : list nat) : nat := fold_right Nat.mul 1%nat s.

(** A tensor is well formed when it holds one number per index. *)
Definition wf (t : tensor) : Prop := length (data t) = numel (shape t).

Definition shape_eqb (a b : list nat) : bool :=
  if list_eq_dec Nat.eq_dec a b then true else false.

(** *** Broadcasting *)

Definition bdim (x y : nat) : option nat :=
  if (x =? y)%nat then Some x
  else if (x =? 1)%nat then Some y
  else if (y =? 1)%nat then Some x
  else None.

(** Shapes are matched from the last dimension backwards; [rbdims] works on
    the reversed shapes, and a dimension missing on one side counts as 1. *)
Fixpoint rbdims (a b : list nat) : option (list nat) :=
  match a, b with
  | [], _ => Some b
  | _, [] => Some a
  | x :: a', y :: b' =>
      match bdim x y, rbdims a' b' with
      | Some d, Some r => Some (d :: r)
      | _, _ => None
      end
  end.

Definition broadcast_shapes (a b : list nat) : option (list nat) :=
  option_map (@rev nat) (rbdims (rev a) (rev b)).

(** The shorter shape is extended on the left with dimensions of size 1. *)
Definition pad (n : nat) (p : list nat) : list nat :=
  repeat 1%nat (n - length p) ++ p.

(** [expand p s d]: the row-major data [d] of shape [p] stretched to the
    shape [s] of the same rank; a dimension that differs is of size 1 in [p]
    and is repeated. *)
Fixpoint expand (p s : list nat) (d : list Qc) : list Qc :=
  match p, s with
  | dp :: p', ds :: s' =>
      if (dp =? ds)%nat
      then concat (map (expand p' s') (chunks (numel p') dp d))
      else concat (repeat (expand p' s' d) ds)
  | _, _ => d
  end.

Definition broadcast_to (s : list nat) (t : tensor) : list Qc :=
  expand (pad (length s) (shape t)) s (data t).

(** *** Elementwise operations *)

Definition binop (f : Qc -> Qc -> Qc) (a b : tensor) : result tensor :=
  match broadcast_shapes (shape a) (shape b) with
  | Some s => Ok (Tensor s (map2 f (broadcast_to s a) (broadcast_to s b)))
  | None => Raise RuntimeError
  end.

Definition tadd : tensor -> tensor -> result tensor := binop Qcplus.
Definition tsub : tensor -> tensor -> result tensor := binop Qcminus.
Definition tmul : tensor -> tensor -> result tensor := binop Qcmult.
Definition tdiv : tensor -> tensor -> result tensor := binop Qcdiv.

Definition tmap (f : Qc -> Qc) (t : tensor) : tensor :=
  Tensor (shape t) (map f (data t)).

(** [torch.zeros_like] and [torch.zeros]. *)
Definition zeros (s : list nat) : tensor := Tensor s (repeat 0 (numel s)).
Definition zeros_like (t : tensor) : tensor := zeros (shape t).

(** [torch.any]: some element is nonzero. *)
Definition any (t : tensor) : bool := existsb nonzero (data t).

(** [t.size(0)]; a tensor without dimensions has no dimension 0. *)
Definition size0 (t : tensor) : result nat :=
  match shape t with
  | [] => Raise IndexError
  | n :: _ => Ok n
  end.

(** [torch.normal(mean, std, size)]: each element is [z * std + mean] for a
    standard-normal draw [z]; a negative [std] is refused. *)
Definition normal (mean std : Qc) (size : list nat) (zs : list Qc)
  : result tensor :=
  if Qcltb std 0 then Raise RuntimeError
  else Ok (Tensor size (map (fun z => z * std + mean) zs)).

(** ** The neuron object and the world around it *)

Definition loc : Set := nat.

(** [reset_mechanism] and the dictionary value the base class stores for it. *)
Inductive reset_mechanism : Set := subtract | zero | none.

Definition reset_mechanism_val_of (r : reset_mechanism) : nat :=
  match r with subtract => 0 | zero => 1 | none => 2 end%nat.

(** The attributes of a [Funky] instance that the forward step reads or
    writes.  [threshold] is a reference to the tensor object that [fire]
    updates in place; [state_quant] is [None] for Python's [False]. *)
Record Funky : Type := {
  beta : tensor;
  funkiness : Qc;
  threshold : loc;
  init_hidden : bool;
  inhibition : bool;
  reset_mechanism_ : reset_mechanism;
  state_quant : option (Qc -> Qc);
  output : bool;
  graded_spikes_factor : tensor;
  reset_delay : bool;
  mem : tensor;
  reset : tensor
}.

Definition reset_mechanism_val (n : Funky) : nat :=
  reset_mechanism_val_of (reset_mechanism_ n).

Definition with_mem (m : tensor) (n : Funky) : Funky :=
  {| beta := beta n; funkiness := funkiness n; threshold := threshold n;
     init_hidden := init_hidden n; inhibition := inhibition n;
     reset_mechanism_ := reset_mechanism_ n; state_quant := state_quant n;
     output := output n; graded_spikes_factor := graded_spikes_factor n;
     reset_delay := reset_delay n; mem := m; reset := reset n |}.

Definition with_reset (r : tensor) (n : Funky) : Funky :=
  {| beta := beta n; funkiness := funkiness n; threshold := threshold n;
     init_hidden := init_hidden n; inhibition := inhibition n;
     reset_mechanism_ := reset_mechanism_ n; state_quant := state_quant n;
     output := output n; graded_spikes_factor := graded_spikes_factor n;
     reset_delay := reset_delay n; mem := mem n; reset := r |}.

(** The world: the neuron [self], the store of tensor objects that are
    updated in place, and the random generator ([randn] is the stream of
    standard-normal draws, [drawn] how many were consumed). *)
Record world : Type := World {
  self : Funky;
  heap : loc -> tensor;
  randn : nat -> Qc;
  drawn : nat
}.

(** ** State and exception monad *)

Definition M (A : Type) : Type := world -> result A * world.

Definition ret {A : Type} (a : A) : M A := fun w => (Ok a, w).

Definition bind {A B : Type} (c : M A) (k : A -> M B) : M B :=
  fun w =>
    match c w with
    | (Ok a, w') => k a w'
    | (Raise e, w') => (Raise e, w')
    end.

Definition raise {A : Type} (e : exn) : M A := fun w => (Raise e, w).

Definition lift {A : Type} (r : result A) : M A := fun w => (r, w).

Declare Scope monad_scope.
Delimit Scope monad_scope with monad.
Notation "x <- c ;; k" := (bind c (fun x => k))
  (at level 61, c at next level, right associativity) : monad_scope.
Notation "c ;; k" := (bind c (fun _ => k))
  (at level 61, right associativity) : monad_scope.
Open Scope monad_scope.

(** [self.a] *)
Definition attr {A : Type} (a : Funky -> A) : M A :=
  fun w => (Ok (a (self w)), w).

(** The world after [self.mem = t], and after [self.reset = t]. *)
Definition put_mem (t : tensor) (w : world) : world :=
  World (with_mem t (self w)) (heap w) (randn w) (drawn w).

Definition put_reset (t : tensor) (w : world) : world :=
  World (with_reset t (self w)) (heap w) (randn w) (drawn w).

(** [self.mem = t] and [self.reset = t] *)
Definition set_mem (t : tensor) : M unit := fun w => (Ok tt, put_mem t w).

Definition set_reset (t : tensor) : M unit := fun w => (Ok tt, put_reset t w).

(** Reading and updating a tensor object through a reference. *)
Definition load (l : loc) : M tensor := fun w => (Ok (heap w l), w).

Definition store (l : loc) (t : tensor) : M unit :=
  fun w =>
    (Ok tt,
     World (self w) (fun l' => if (l' =? l)%nat then t else heap w l')
       (randn w) (drawn w)).

(** [torch.normal(mean, std, size)] on the global generator. *)
Definition torch_normal (mean std : Qc) (size : list nat) : M tensor :=
  fun w =>
    let k := numel size in
    match normal mean std size (map (randn w) (seq (drawn w) k)) with
    | Ok t => (Ok t, World (self w) (heap w) (randn w) (drawn w + k))
    | Raise e => (Raise e, w)
    end.

(** A local variable that may not have been assigned: reading it when it is
    unbound raises [UnboundLocalError]; when bound to a tensor object, the
    read sees the object as it is at the time of the read. *)
Definition read_local (v : option loc) : M tensor :=
  match v with
  | Some l => load l
  | None => raise UnboundLocalError
  end.

(** ** The base class *)

(** Modelled from the spec: the surrogate spike function of the base class
    (missing from the sources) is exactly 0/1 in the forward pass, 1 where
    its argument is positive. *)
Definition spike_grad (mem_shift : tensor) : tensor := tmap heaviside mem_shift.

(** Modelled from the spec: [mem_reset] of the base class (missing from the
    sources), the reset indicator of a membrane value: 1 if it exceeded the
    threshold, else 0. *)
Definition mem_reset (mem_ : tensor) : M tensor :=
  l <- attr threshold ;;
  th <- load l ;;
  mem_shift <- lift (tsub mem_ th) ;;
  ret (spike_grad mem_shift).

Fixpoint argmax_from (best : Qc) (ibest i : nat) (l : list Qc) : nat :=
  match l with
  | [] => ibest
  | x :: l' =>
      if Qcltb best x then argmax_from x i (S i) l'
      else argmax_from best ibest (S i) l'
  end.

Definition argmax (l : list Qc) : nat :=
  match l with
  | [] => O
  | x :: l' => argmax_from x 0 1 l'
  end.

Definition one_hot (n i : nat) : list Qc :=
  map (fun j => if (j =? i)%nat then 1 else 0) (seq 0 n).

(** Modelled from the spec: [fire_inhibition] of the base class (missing
    from the sources): only the single neuron with the highest membrane
    value in each batch element may spike.  It leaves the threshold alone. *)
Definition fire_inhibition (batch_size : nat) (mem_ : tensor) : M tensor :=
  l <- attr threshold ;;
  th <- load l ;;
  mem_shift <- lift (tsub mem_ th) ;;
  let spk_tmp := spike_grad mem_shift in
  let row := numel (tl (shape mem_shift)) in
  let mask_spk1 :=
    Tensor (shape mem_shift)
      (concat (map (fun r => one_hot row (argmax r))
                 (chunks row batch_size (data mem_shift)))) in
  lift (tmul spk_tmp mask_spk1).

(** ** The methods of [Funky] *)

(** [_init_mem]: [torch.zeros(0)]. *)
Definition _init_mem : tensor := zeros [0%nat].

(** [reset_mem] *)
Definition reset_mem : M tensor :=
  m <- attr mem ;;
  set_mem (zeros_like m) ;;
  attr mem.

(** [init_funky]: deprecated, use [reset_mem]. *)
Definition init_funky : M tensor := reset_mem.

(** Modelled from the spec: the injected quantization function (of
    snntorch.quant, missing from the sources) maps each membrane value to a
    valid state, element by element; [None] stands for Python's [False]. *)
Definition quant (sq : option (Qc -> Qc)) (t : tensor) : tensor :=
  match sq with
  | Some q => tmap q t
  | None => t
  end.

(** [fire]: spike where [mem > threshold]; if any spike is nonzero, add
    Gaussian noise of the threshold's shape to the threshold, in place. *)
Definition fire (mem_ : tensor) : M tensor :=
  sq <- attr state_quant ;;
  let mem_ := quant sq mem_ in
  l <- attr threshold ;;
  th <- load l ;;
  mem_shift <- lift (tsub mem_ th) ;;
  let spk := spike_grad mem_shift in
  g <- attr graded_spikes_factor ;;
  spk <- lift (tmul spk g) ;;
  (if any spk then
     l <- attr threshold ;;
     th <- load l ;;
     std <- attr funkiness ;;
     noise <- torch_normal 0 std (shape th) ;;
     th' <- lift (tadd th noise) ;;
     store l th'
   else ret tt) ;;
  ret spk.

Definition _base_state_function (input_ : tensor) : M tensor :=
  b <- attr beta ;;
  m <- attr mem ;;
  bm <- lift (tmul (tmap (clamp 0 1) b) m) ;;
  lift (tadd bm input_).

Definition _base_sub (input_ : tensor) : M tensor :=
  base_fn <- _base_state_function input_ ;;
  r <- attr reset ;;
  l <- attr threshold ;;
  th <- load l ;;
  rt <- lift (tmul r th) ;;
  lift (tsub base_fn rt).

Definition _base_zero (input_ : tensor) : M tensor :=
  r <- attr reset ;;
  m <- attr mem ;;
  m' <- lift (tmul (tmap (fun x => 1 - x) r) m) ;;
  set_mem m' ;;
  _base_state_function input_.

Definition _base_int (input_ : tensor) : M tensor :=
  _base_state_function input_.

(** [self.state_function], bound by [__init__] from [reset_mechanism_val]. *)
Definition state_function (input_ : tensor) : M tensor :=
  v <- attr reset_mechanism_val ;;
  if (v =? 0)%nat then _base_sub input_
  else if (v =? 1)%nat then _base_zero input_
  else _base_int input_.

(** What [forward] returns: the spikes alone, or the spikes and the state. *)
Inductive retval : Type :=
| Spk (spk : tensor)
| SpkMem (spk mem_ : tensor).

Definition spikes (r : retval) : tensor :=
  match r with Spk s => s | SpkMem s _ => s end.

Definition is_some {A : Type} (o : option A) : bool :=
  match o with Some _ => true | None => false end.

(** The reset compensation of [forward] when [reset_delay] is off;
    [threshold_before_spike] is the local variable of that name. *)
Definition immediate_reset (spk : tensor) (threshold_before_spike : option loc)
  : M unit :=
  g <- attr graded_spikes_factor ;;
  q <- lift (tdiv spk g) ;;
  r <- attr reset ;;
  do_reset <- lift (tsub q r) ;;
  v <- attr reset_mechanism_val ;;
  if (v =? 0)%nat then
    m <- attr mem ;;
    tb <- read_local threshold_before_spike ;;
    p <- lift (tmul do_reset tb) ;;
    m' <- lift (tsub m p) ;;
    set_mem m'
  else if (v =? 1)%nat then
    m <- attr mem ;;
    p <- lift (tmul do_reset m) ;;
    m' <- lift (tsub m p) ;;
    set_mem m'
  else ret tt.

(** [forward], lines 206-215: an explicit membrane replaces the stored one
    (and is refused, after that, when the neuron owns its state); a stored
    membrane of another shape than the input is replaced by zeros. *)
Definition bind_mem (input_ : tensor) (mem_ : option tensor) : M unit :=
  match mem_ with Some m => set_mem m | None => ret tt end ;;
  ih <- attr init_hidden ;;
  (if ih && is_some mem_ then raise TypeError else ret tt) ;;
  m <- attr mem ;;
  if negb (shape_eqb (shape m) (shape input_))
  then set_mem (zeros_like input_) else ret tt.

(** [forward], lines 217-221: reset indicator, state update, quantization. *)
Definition update_state (input_ : tensor) : M unit :=
  m <- attr mem ;;
  r <- mem_reset m ;;
  set_reset r ;;
  m <- state_function input_ ;;
  set_mem m ;;
  sq <- attr state_quant ;;
  m <- attr mem ;;
  set_mem (quant sq m).

(** [forward], lines 223-229: the spikes, and the binding of the local
    variable [threshold_before_spike], assigned in the [else] branch only. *)
Definition spike : M (tensor * option loc) :=
  inh <- attr inhibition ;;
  if inh then
    m <- attr mem ;;
    batch_size <- lift (size0 m) ;;
    m <- attr mem ;;
    spk <- fire_inhibition batch_size m ;;
    ret (spk, None)
  else
    threshold_before_spike <- attr threshold ;;
    m <- attr mem ;;
    spk <- fire m ;;
    ret (spk, Some threshold_before_spike).

(** [forward], lines 240-245. *)
Definition returned (spk : tensor) : M retval :=
  out <- attr output ;;
  ih <- attr init_hidden ;;
  m <- attr mem ;;
  if out then ret (SpkMem spk m)
  else if ih then ret (Spk spk)
  else ret (SpkMem spk m).

Definition forward (input_ : tensor) (mem_ : option tensor) : M retval :=
  bind_mem input_ mem_ ;;
  update_state input_ ;;
  fired <- spike ;;
  rd <- attr reset_delay ;;
  (if negb rd then immediate_reset (fst fired) (snd fired) else ret tt) ;;
  returned (fst fired).

(** ** The unmodified base neuron *)

(** Modelled from the spec: [fire] of the base class (missing from the
    sources), the spike rule without the threshold perturbation. *)
Definition Leaky_fire (mem_ : tensor) : M tensor :=
  sq <- attr state_quant ;;
  let mem_ := quant sq mem_ in
  l <- attr threshold ;;
  th <- load l ;;
  mem_shift <- lift (tsub mem_ th) ;;
  let spk := spike_grad mem_shift in
  g <- attr graded_spikes_factor ;;
  lift (tmul spk g).

(** Modelled from the spec: the spike step of the unmodified base neuron
    (missing from the sources): winner-take-all under inhibition, the base
    spike rule otherwise. *)
Definition Leaky_spike : M tensor :=
  inh <- attr inhibition ;;
  if inh then
    m <- attr mem ;;
    batch_size <- lift (size0 m) ;;
    m <- attr mem ;;
    fire_inhibition batch_size m
  else
    m <- attr mem ;;
    Leaky_fire m.

(** Modelled from the spec: the forward step of the unmodified base leaky
    integrate-and-fire neuron (missing from the sources): the same recipe
    (entry, state update, spikes, reset compensation, return) with the base
    spike rule, the reset compensation reading the threshold attribute. *)
Definition Leaky_forward (input_ : tensor) (mem_ : option tensor) : M retval :=
  bind_mem input_ mem_ ;;
  update_state input_ ;;
  spk <- Leaky_spike ;;
  rd <- attr reset_delay ;;
  l <- attr threshold ;;
  (if negb rd then immediate_reset spk (Some l) else ret tt) ;;
  returned spk.

(** ** Construction *)

(** [__init__]: the threshold tensor is allocated at location 0, the
    membrane starts as the empty tensor of [_init_mem] (and so does the
    reset indicator, which [forward] assigns before it reads it), the
    generator is [randn_] from its first draw. *)
Definition init (beta_ : tensor) (funkiness_ : Qc) (threshold_ : tensor)
    (init_hidden_ inhibition_ : bool) (reset_mechanism__ : reset_mechanism)
    (state_quant_ : option (Qc -> Qc)) (output_ : bool)
    (graded_spikes_factor_ : tensor) (reset_delay_ : bool)
    (randn_ : nat -> Qc) : world :=
  World
    {| beta := beta_; funkiness := funkiness_; threshold := 0%nat;
       init_hidden := init_hidden_; inhibition := inhibition_;
       reset_mechanism_ := reset_mechanism__; state_quant := state_quant_;
       output := output_; graded_spikes_factor := graded_spikes_factor_;
       reset_delay := reset_delay_; mem := _init_mem; reset := _init_mem |}
    (fun _ => threshold_) randn_ 0.

(** A tensor without dimensions holding one number, and a vector. *)
Definition scalar (x : Qc) : tensor := Tensor [] [x].
Definition vector (l : list Qc) : tensor := Tensor [length l] l.

(** The threshold tensor of a world. *)
Definition threshold_of (w : world) : tensor := heap w (threshold (self w)).

(** Tensors printed as plain fractions, to compare computed values. *)
Definition show (t : tensor) : list nat * list Q := (shape t, map this (data t)).

(** ** Vocabulary of the statements *)

(** [fits p s]: a tensor of shape [p] broadcasts into the shape [s] without
    enlarging it. *)
Definition fits (p s : list nat) : Prop := broadcast_shapes p s = Some s.

(** Shapes of equal rank, dimension by dimension equal or 1 on the left. *)
Definition compat (p s : list nat) : Prop :=
  Forall2 (fun dp ds => dp = ds \/ dp = 1%nat) p s.

(** Element [k] of [t] seen at the shape [s] it broadcasts into. *)
Definition elt (s : list nat) (t : tensor) (k : nat) : Qc :=
  nth k (broadcast_to s t) 0.

(** The membrane a forward call works on once lines 206-215 are through:
    the explicit argument or else the stored one, replaced by zeros when its
    shape is not the input's. *)
Definition entry_mem (w : world) (input_ : tensor) (mem_ : option tensor)
  : tensor :=
  let cur := match mem_ with Some m => m | None => mem (self w) end in
  if shape_eqb (shape cur) (shape input_) then cur else zeros_like input_.

(** The attributes that no method assigns. *)
Definition config (n : Funky) :=
  (beta n, funkiness n, threshold n, init_hidden n, inhibition n,
   reset_mechanism_ n, state_quant n, output n, graded_spikes_factor n,
   reset_delay n).

(** The formulas of the specification, as tensor expressions:
    the reset indicator of a membrane against a threshold, *)
Definition reset_indicator (m th : tensor) : result tensor :=
  rbind (tsub m th) (fun d => Ok (spike_grad d)).

(** beta clamped to [0,1] times the membrane, plus the input, *)
Definition decay_plus_input (b m x : tensor) : result tensor :=
  rbind (tmul (tmap (clamp 0 1) b) m) (fun bm => tadd bm x).

(** beta * mem + I - R * theta, *)
Definition subtract_formula (b m x r th : tensor) : result tensor :=
  rbind (decay_plus_input b m x) (fun base =>
  rbind (tmul r th) (fun rt => tsub base rt)).

(** and (1 - R) * mem. *)
Definition zeroed_formula (r m : tensor) : result tensor :=
  tmul (tmap (fun v => 1 - v) r) m.

(** ** Concrete neurons and inputs *)

Definition qc (n : Z) (d : positive) : Qc := Q2Qc (n # d).

(** For the generator: every draw is 1. *)
Definition ones_stream : nat -> Qc := fun _ => 1.

(** A quantizer: round down to an integer. *)
Definition floor_quant (x : Qc) : Qc := Q2Qc (inject_Z (Qfloor x)).

(** ** Vocabulary for effects *)

(** A step that leaves the configuration, the store and the random
    generator as they were: only the membrane and the reset indicator of
    the neuron may differ. *)
Definition unchanged (w w' : world) : Prop :=
  config (self w') = config (self w) /\ heap w' = heap w /\
  randn w' = randn w /\ drawn w' = drawn w.

Definition quiet {A : Type} (c : M A) : Prop :=
  forall w r w', c w = (r, w') -> unchanged w w'.

(** A step that can only raise exceptions satisfying [P]. *)
Definition raises_only {A : Type} (P : exn -> Prop) (c : M A) : Prop :=
  forall w e w', c w = (Raise e, w') -> P e.

(** The world after [fire] has replaced the threshold by [th']: the tensor
    object at the threshold's location is updated and the generator has
    advanced by one draw per element. *)
Definition perturbed (th' : tensor) (w : world) : world :=
  World (self w)
    (fun l' => if (l' =? threshold (self w))%nat then th' else heap w l')
    (randn w) (drawn w + numel (shape (threshold_of w))).

(** The draws [fire] takes from the generator in world [w]. *)
Definition draws (w : world) : list Qc :=
  map (randn w) (seq (drawn w) (numel (shape (threshold_of w)))).

(** The spikes of [fire]: the spike function of the quantized membrane minus
    the threshold, scaled by the graded-spikes factor. *)
Definition spikes_formula (sq : option (Qc -> Qc)) (m th g : tensor)
  : result tensor :=
  rbind (tsub (quant sq m) th) (fun ms => tmul (spike_grad ms) g).

(** [spk / graded_spikes_factor - reset] *)
Definition do_reset_formula (spk g r : tensor) : result tensor :=
  rbind (tdiv spk g) (fun q => tsub q r).

(** The membrane after the compensation of lines 231-238, [thb] being the
    tensor that [threshold_before_spike] refers to when it is read. *)
Definition compensated (rm : reset_mechanism) (spk g r m thb : tensor)
  : result tensor :=
  rbind (do_reset_formula spk g r) (fun d =>
    match rm with
    | subtract => rbind (tmul d thb) (fun p => tsub m p)
    | zero => rbind (tmul d m) (fun p => tsub m p)
    | none => Ok m
    end).

(** The last part of [forward], lines 231-245, given what lines 223-229
    produced. *)
Definition finish (fired : tensor * option loc) : M retval :=
  rd <- attr reset_delay ;;
  (if negb rd then immediate_reset (fst fired) (snd fired) else ret tt) ;;
  returned (fst fired).

Definition half : Qc := qc 1 2.

(** A batch of one element with one neuron, shape (1, 1). *)
Definition batch1 (x : Qc) : tensor := Tensor [1%nat; 1%nat] [x].

(** [Funky(beta=0.5)] *)
Definition plain_neuron : world :=
  init (scalar half) 0 (scalar 1) false false subtract None false
    (scalar 1) true ones_stream.

(** [Funky(beta=0.5, init_hidden=True)] *)
Definition hidden_neuron : world :=
  init (scalar half) 0 (scalar 1) true false subtract None false
    (scalar 1) true ones_stream.

(** [Funky(beta=0.5, inhibition=True)] *)
Definition wta_neuron : world :=
  init (scalar half) 0 (scalar 1) false true subtract None false
    (scalar 1) true ones_stream.

(** [Funky(beta=0.5, funkiness=1.0, inhibition=True)] *)
Definition funky_wta_neuron : world :=
  init (scalar half) 1 (scalar 1) false true subtract None false
    (scalar 1) true ones_stream.

(** [Funky(beta=0.5, inhibition=True, reset_delay=False)] *)
Definition wta_immediate_neuron : world :=
  init (scalar half) 0 (scalar 1) false true subtract None false
    (scalar 1) false ones_stream.

(** [Funky(beta=0.5, init_hidden=True, inhibition=True, reset_delay=False)] *)
Definition hidden_wta_immediate_neuron : world :=
  init (scalar half) 0 (scalar 1) true true subtract None false
    (scalar 1) false ones_stream.


(** [Funky(beta=0.5, funkiness=1.0, reset_delay=False)] *)
Definition funky_immediate_neuron : world :=
  init (scalar half) 1 (scalar 1) false false subtract None false
    (scalar 1) false ones_stream.

(** [Funky(beta=0.5, funkiness=1.0)] *)
Definition funky_neuron : world :=
  init (scalar half) 1 (scalar 1) false false subtract None false
    (scalar 1) true ones_stream.

(** [Funky(beta=0.5, state_quant=floor)] *)
Definition quantized_neuron : world :=
  init (scalar half) 0 (scalar 1) false false subtract (Some floor_quant)
    false (scalar 1) true ones_stream.


(** A call that returns a value, rather than raising. *)
Definition returns {A : Type} (p : result A * world) : Prop :=
  exists a, fst p = Ok a.

(** The spikes of [fire_inhibition] for a threshold [th]. *)
Definition inhibited_formula (batch_size : nat) (m th : tensor)
  : result tensor :=
  rbind (tsub m th) (fun mem_shift =>
    tmul (spike_grad mem_shift)
      (Tensor (shape mem_shift)
         (concat (map (fun r => one_hot (numel (tl (shape mem_shift)))
                                  (argmax r))
                    (chunks (numel (tl (shape mem_shift))) batch_size
                       (data mem_shift)))))).

(** Two worlds whose neurons have the same attributes and the same threshold
    tensor; they may differ in the random generator. *)
Definition agree (w1 w2 : world) : Prop :=
  self w1 = self w2 /\ threshold_of w1 = threshold_of w2.

(** The configuration whose forward call reads the unassigned local. *)
Definition unassigned_local (n : Funky) : Prop :=
  inhibition n = true /\ reset_delay n = false /\
  reset_mechanism_ n = subtract.

(** A sequence of calls, each with its input and its optional explicit
    membrane: the outcomes in order, and the world left behind. *)
Fixpoint run (step : tensor -> option tensor -> M retval)
    (calls : list (tensor * option tensor)) (w : world)
  : list (result retval) * world :=
  match calls with
  | [] => ([], w)
  | (x, m) :: rest =>
      let (r, w') := step x m w in
      let (rs, w'') := run step rest w' in
      (r :: rs, w'')
  end.

(** The last part of [Leaky_forward], after the spikes. *)
Definition Leaky_finish (spk : tensor) : M retval :=
  rd <- attr reset_delay ;;
  l <- attr threshold ;;
  (if negb rd then immediate_reset spk (Some l) else ret tt) ;;
  returned spk.

(** ** Vocabulary for the effects of a whole call *)

(** What a call may do outside the membrane and the reset indicator: the
    configuration stays, no tensor object other than the threshold is
    written, the threshold keeps its shape, the stream of draws is the same
    and the generator only moves forward. *)
Definition framed (w w' : world) : Prop :=
  config (self w') = config (self w) /\
  (forall l, l <> threshold (self w) -> heap w' l = heap w l) /\
  shape (threshold_of w') = shape (threshold_of w) /\
  randn w' = randn w /\ (drawn w <= drawn w')%nat.

(** [Funky(beta=0.5, reset_mechanism="none")] *)
Definition integrator_neuron : world :=
  init (scalar half) 0 (scalar 1) false false none None false
    (scalar 1) true ones_stream.

(** [Funky(beta=0.5, inhibition=True, reset_mechanism="none",
    reset_delay=False)] *)
Definition wta_immediate_integrator_neuron : world :=
  init (scalar half) 0 (scalar 1) false true none None false
    (scalar 1) false ones_stream.

(** [Funky(beta=0.5, reset_mechanism="zero", reset_delay=False)] *)
Definition zero_immediate_neuron : world :=
  init (scalar half) 0 (scalar 1) false false zero None false
    (scalar 1) false ones_stream.

(** [Funky(beta=0.5, threshold=torch.tensor([1.0, 2.0]),
    reset_mechanism="zero")] *)
Definition two_thresholds_neuron : world :=
  init (scalar half) 0 (vector [1; qc 2 1]) false false zero None false
    (scalar 1) true ones_stream.

(** [Funky(beta=0.5, funkiness=-1.0)] *)
Definition negative_funkiness_neuron : world :=
  init (scalar half) (- (1)) (scalar 1) false false subtract None false
    (scalar 1) true ones_stream.

(** ** The class-level registry *)

(** Modelled from the spec: [cls.instances], kept by the base class (missing
    from the sources), lists every spiking neuron that was constructed, of
    this class or of another.  An entry is a [Funky] neuron, or a neuron of
    another class, of which the state tensors are kept. *)
Inductive instance : Type :=
| Funky_instance (n : Funky)
| Other_instance (state : list tensor).

(** [l[i] = v], for [i] within the list. *)
Fixpoint assign {A : Type} (l : list A) (i : nat) (v : A) : list A :=
  match l, i with
  | [], _ => []
  | _ :: l', O => v :: l'
  | x :: l', S i' => x :: assign l' i' v
  end.

(** One turn of the loop of [reset_hidden]: when [cls.instances[layer]] is a
    [Funky], its membrane is replaced by zeros of the same shape.  Indexing
    outside the list is an [IndexError]. *)
Definition reset_layer (instances : list instance) (layer : nat)
  : result (list instance) :=
  match nth_error instances layer with
  | None => Raise IndexError
  | Some (Funky_instance n) =>
      Ok (assign instances layer
            (Funky_instance (with_mem (zeros_like (mem n)) n)))
  | Some (Other_instance _) => Ok instances
  end.

Fixpoint for_layers (layers : list nat) (instances : list instance)
  : result (list instance) :=
  match layers with
  | [] => Ok instances
  | layer :: rest =>
      rbind (reset_layer instances layer) (for_layers rest)
  end.

(** [reset_hidden]: [for layer in range(len(cls.instances))]. *)
Definition reset_hidden (instances : list instance)
  : result (list instance) :=
  for_layers (seq 0 (length instances)) instances.

(** An entry of the registry once cleared. *)
Definition cleared (i : instance) : instance :=
  match i with
  | Funky_instance n => Funky_instance (with_mem (zeros_like (mem n)) n)
  | Other_instance s => Other_instance s
  end.

(** ** Vocabulary for the decay rate *)

(** The neuron, and the world, with another decay rate. *)
Definition with_beta (b : tensor) (n : Funky) : Funky :=
  {| beta := b; funkiness := funkiness n; threshold := threshold n;
     init_hidden := init_hidden n; inhibition := inhibition n;
     reset_mechanism_ := reset_mechanism_ n; state_quant := state_quant n;
     output := output n; graded_spikes_factor := graded_spikes_factor n;
     reset_delay := reset_delay n; mem := mem n; reset := reset n |}.

Definition put_beta (b : tensor) (w : world) : world :=
  World (with_beta b (self w)) (heap w) (randn w) (drawn w).

(** A step that, started with the decay rate [b] or with [b'] in its place,
    gives the same result and the same world but for the decay rate, and
    leaves the decay rate as it was. *)
Definition same_under {A : Type} (b b' : tensor) (c : M A) : Prop :=
  forall w, beta (self w) = b ->
    c (put_beta b' w) = (fst (c w), put_beta b' (snd (c w))) /\
    beta (self (snd (c w))) = b.


(** [Funky(beta=0.5, funkiness=1.0, threshold=torch.tensor([1.0, 2.0]))] *)
Definition funky_two_thresholds_neuron : world :=
  init (scalar half) 1 (vector [1; qc 2 1]) false false subtract None false
    (scalar 1) true ones_stream.

(** * Properties *)

(** ** Shapes: broadcasting is a partial join *)

Lemma bdim_comm : forall x y, bdim x y = bdim y x.
Proof.
  intros x y. unfold bdim.
  destruct (Nat.eqb_spec x y), (Nat.eqb_spec y x), (Nat.eqb_spec x 1),
    (Nat.eqb_spec y 1); subst; try reflexivity; try congruence.
Qed.

Lemma bdim_refl : forall x, bdim x x = Some x.
Proof. intros x. unfold bdim. now rewrite Nat.eqb_refl. Qed.

Lemma bdim_ub : forall x y d, bdim x y = Some d -> bdim x d = Some d.
Proof.
  intros x y d. unfold bdim.
  destruct (Nat.eqb_spec x y), (Nat.eqb_spec x 1), (Nat.eqb_spec y 1);
    intros H; inversion H; subst;
    repeat match goal with
           | |- context [Nat.eqb ?a ?b] => destruct (Nat.eqb_spec a b)
           end; subst; try reflexivity; try congruence.
Qed.

Lemma bdim_trans : forall x y z,
  bdim x y = Some y -> bdim y z = Some z -> bdim x z = Some z.
Proof.
  intros x y z. unfold bdim.
  repeat match goal with
         | |- context [Nat.eqb ?a ?b] => destruct (Nat.eqb_spec a b)
         end; subst; intros H1 H2; inversion H1; inversion H2; subst;
    try reflexivity; try congruence.
Qed.

Lemma bdim_join : forall x y z,
  bdim x z = Some z -> bdim y z = Some z ->
  exists d, bdim x y = Some d /\ bdim d z = Some z.
Proof.
  intros x y z. unfold bdim.
  destruct (Nat.eqb_spec x z), (Nat.eqb_spec y z), (Nat.eqb_spec x 1),
    (Nat.eqb_spec y 1), (Nat.eqb_spec z 1), (Nat.eqb_spec x y);
    subst; intros H1 H2; inversion H1; inversion H2; subst;
    try congruence; eexists; (split; [reflexivity|]);
    repeat match goal with
           | |- context [Nat.eqb ?a ?b] => destruct (Nat.eqb_spec a b)
           end; subst; try reflexivity; try congruence.
Qed.

Lemma rbdims_nil_r : forall a, rbdims a [] = Some a.
Proof. now destruct a. Qed.

Lemma rbdims_comm : forall a b, rbdims a b = rbdims b a.
Proof.
  induction a as [|x a IH]; intros [|y b]; simpl; try reflexivity.
  now rewrite bdim_comm, IH.
Qed.

Lemma rbdims_refl : forall a, rbdims a a = Some a.
Proof.
  induction a as [|x a IH]; simpl; [reflexivity|].
  now rewrite bdim_refl, IH.
Qed.

Lemma rbdims_ub : forall a b j, rbdims a b = Some j -> rbdims a j = Some j.
Proof.
  induction a as [|x a IH]; intros [|y b] j H; simpl in *.
  - reflexivity.
  - reflexivity.
  - inversion H; subst. apply (rbdims_refl (x :: a)).
  - destruct (bdim x y) as [d|] eqn:Hd; [|discriminate].
    destruct (rbdims a b) as [r|] eqn:Hr; [|discriminate].
    inversion H; subst. simpl.
    now rewrite (bdim_ub _ _ _ Hd), (IH _ _ Hr).
Qed.

Lemma rbdims_trans : forall a b c,
  rbdims a b = Some b -> rbdims b c = Some c -> rbdims a c = Some c.
Proof.
  induction a as [|x a IH]; intros [|y b] [|z c] H1 H2; simpl in *;
    try reflexivity; try discriminate.
  destruct (bdim x y) as [d|] eqn:Hd; [|discriminate].
  destruct (rbdims a b) as [r|] eqn:Hr; [|discriminate].
  destruct (bdim y z) as [d'|] eqn:Hd'; [|discriminate].
  destruct (rbdims b c) as [r'|] eqn:Hr'; [|discriminate].
  inversion H1; inversion H2; subst.
  now rewrite (bdim_trans _ _ _ Hd Hd'), (IH _ _ Hr Hr').
Qed.

Lemma rbdims_join : forall a b s,
  rbdims a s = Some s -> rbdims b s = Some s ->
  exists j, rbdims a b = Some j /\ rbdims j s = Some s.
Proof.
  induction a as [|x a IH]; intros b s Ha Hb.
  - exists b. now split.
  - destruct b as [|y b].
    + exists (x :: a). now split.
    + destruct s as [|z s]; [discriminate|]. simpl in *.
      destruct (bdim x z) as [d|] eqn:Hd; [|discriminate].
      destruct (rbdims a s) as [r|] eqn:Hr; [|discriminate].
      destruct (bdim y z) as [d'|] eqn:Hd'; [|discriminate].
      destruct (rbdims b s) as [r'|] eqn:Hr'; [|discriminate].
      inversion Ha; inversion Hb; subst.
      destruct (bdim_join _ _ _ Hd Hd') as (e & He1 & He2).
      destruct (IH _ _ Hr Hr') as (j & Hj1 & Hj2).
      exists (e :: j). rewrite He1, Hj1. split; [reflexivity|].
      simpl. now rewrite He2, Hj2.
Qed.

Lemma broadcast_shapes_comm : forall a b,
  broadcast_shapes a b = broadcast_shapes b a.
Proof. intros. unfold broadcast_shapes. now rewrite rbdims_comm. Qed.

Lemma broadcast_shapes_refl : forall a, broadcast_shapes a a = Some a.
Proof.
  intros. unfold broadcast_shapes. rewrite rbdims_refl. simpl.
  now rewrite rev_involutive.
Qed.

Lemma broadcast_shapes_rev : forall a b s,
  broadcast_shapes a b = Some s <-> rbdims (rev a) (rev b) = Some (rev s).
Proof.
  intros a b s. unfold broadcast_shapes. split; intros H.
  - destruct (rbdims (rev a) (rev b)) as [r|]; [|discriminate].
    simpl in H. inversion H; subst. now rewrite rev_involutive.
  - rewrite H. simpl. now rewrite rev_involutive.
Qed.

Lemma fits_refl : forall s, fits s s.
Proof. apply broadcast_shapes_refl. Qed.

Lemma fits_l : forall a b j, broadcast_shapes a b = Some j -> fits a j.
Proof.
  intros a b j H. apply broadcast_shapes_rev in H.
  apply broadcast_shapes_rev. eapply rbdims_ub; eauto.
Qed.

Lemma fits_r : forall a b j, broadcast_shapes a b = Some j -> fits b j.
Proof. intros a b j H. rewrite broadcast_shapes_comm in H. eapply fits_l; eauto. Qed.

Lemma fits_trans : forall a b c, fits a b -> fits b c -> fits a c.
Proof.
  unfold fits. intros a b c H1 H2.
  apply broadcast_shapes_rev in H1, H2. apply broadcast_shapes_rev.
  eapply rbdims_trans; eauto.
Qed.

Lemma fits_join : forall a b s, fits a s -> fits b s ->
  exists j, broadcast_shapes a b = Some j /\ fits j s.
Proof.
  unfold fits. intros a b s H1 H2.
  apply broadcast_shapes_rev in H1, H2.
  destruct (rbdims_join _ _ _ H1 H2) as (j & Hj1 & Hj2).
  exists (rev j). split; apply broadcast_shapes_rev; now rewrite rev_involutive.
Qed.

Lemma fits_big : forall p s, fits p s -> broadcast_shapes s p = Some s.
Proof. intros. now rewrite broadcast_shapes_comm. Qed.
Section ListFacts.
Context {A : Type}.

Lemma length_chunks : forall (n k : nat) (d : list A),
  length (chunks n k d) = k.
Proof. induction k; intros; simpl; auto. Qed.

Lemma chunks_length_each : forall (n k : nat) (d : list A),
  length d = (k * n)%nat ->
  Forall (fun c => length c = n) (chunks n k d).
Proof.
  induction k as [|k IH]; intros d H; simpl; constructor.
  - rewrite length_firstn. simpl in H. lia.
  - apply IH. rewrite length_skipn. simpl in H. lia.
Qed.

Lemma concat_chunks : forall (n k : nat) (d : list A),
  length d = (k * n)%nat -> concat (chunks n k d) = d.
Proof.
  induction k as [|k IH]; intros d H; simpl in *.
  - destruct d; [reflexivity | discriminate].
  - rewrite IH; [apply firstn_skipn|]. rewrite length_skipn. lia.
Qed.

Lemma chunks_concat : forall (n : nat) (l : list (list A)),
  Forall (fun c => length c = n) l ->
  chunks n (length l) (concat l) = l.
Proof.
  induction l as [|c l IH]; intros H; simpl; [reflexivity|].
  inversion H; subst.
  rewrite firstn_app, Nat.sub_diag, firstn_all. simpl. rewrite app_nil_r.
  rewrite skipn_app, Nat.sub_diag, skipn_all. simpl.
  now rewrite IH.
Qed.

Lemma length_concat_const : forall (m : nat) (l : list (list A)),
  Forall (fun c => length c = m) l ->
  length (concat l) = (length l * m)%nat.
Proof.
  induction l as [|c l IH]; intros H; simpl; [reflexivity|].
  inversion H; subst. rewrite length_app, IH; auto.
Qed.

Lemma chunks_one : forall (n : nat) (d : list A),
  length d = n -> chunks n 1 d = [d].
Proof. intros n d H. simpl. subst n. now rewrite firstn_all. Qed.
End ListFacts.

Lemma numel_app : forall a b, numel (a ++ b) = (numel a * numel b)%nat.
Proof.
  induction a as [|x a IH]; intros b; simpl; [lia|]. rewrite IH. lia.
Qed.

Lemma numel_ones : forall k, numel (repeat 1%nat k) = 1%nat.
Proof. induction k; simpl; lia. Qed.

Lemma numel_pad : forall n p, numel (pad n p) = numel p.
Proof. intros. unfold pad. rewrite numel_app, numel_ones. lia. Qed.

Lemma compat_length : forall p s, compat p s -> length p = length s.
Proof. intros p s H. eapply Forall2_length; eauto. Qed.

Lemma compat_refl : forall s, compat s s.
Proof. induction s; constructor; auto. Qed.

Lemma length_expand : forall p s d,
  compat p s -> length d = numel p -> length (expand p s d) = numel s.
Proof.
  intros p s d H. revert d.
  induction H as [|dp ds p s Hd Hc IH]; intros d Hl; simpl in *; [assumption|].
  destruct (Nat.eqb_spec dp ds) as [-> | Hne].
  - rewrite (length_concat_const (numel s)).
    + now rewrite length_map, length_chunks.
    + apply Forall_map.
      eapply Forall_impl; [|apply chunks_length_each; lia].
      simpl. intros c Hcl. now apply IH.
  - destruct Hd as [? | ->]; [contradiction|].
    rewrite (length_concat_const (numel s)).
    + now rewrite repeat_length.
    + apply Forall_forall. intros c Hin. apply repeat_spec in Hin. subst c.
      apply IH. lia.
Qed.

Lemma expand_id : forall s d, length d = numel s -> expand s s d = d.
Proof.
  induction s as [|ds s IH]; intros d H; simpl in *; [reflexivity|].
  rewrite Nat.eqb_refl.
  rewrite <- (concat_chunks (numel s) ds d) at 2 by lia.
  f_equal.
  rewrite <- (map_id (chunks (numel s) ds d)) at 2.
  apply map_ext_in. intros c Hin.
  apply IH.
  pose proof (chunks_length_each (numel s) ds d ltac:(lia)) as Hall.
  rewrite Forall_forall in Hall. now apply Hall.
Qed.

Lemma expand_ones : forall k p s d,
  length d = numel p ->
  expand (repeat 1%nat k ++ p) (repeat 1%nat k ++ s) d = expand p s d.
Proof.
  induction k as [|k IH]; intros p s d H; simpl; [reflexivity|].
  rewrite numel_app, numel_ones, Nat.mul_1_l.
  rewrite firstn_all2 by lia. rewrite app_nil_r. now apply IH.
Qed.

Lemma expand_expand : forall p q s d,
  compat p q -> compat q s -> length d = numel p ->
  expand q s (expand p q d) = expand p s d.
Proof.
  intros p q s d Hpq. revert s d.
  induction Hpq as [|dp dq p q Hd Hc IH]; intros s d Hqs Hl.
  - inversion Hqs; subst. reflexivity.
  - inversion Hqs as [|? ds ? s' Hd' Hc']; subst. simpl in Hl.
    pose proof (chunks_length_each (numel p) dp d ltac:(lia)) as Hall.
    simpl.
    destruct (Nat.eqb_spec dp dq) as [-> | Hne].
    + destruct (Nat.eqb_spec dq ds) as [-> | Hne'].
      * rewrite <- (length_chunks (numel p) ds d) at 1.
        rewrite <- (length_map (expand p q)).
        rewrite chunks_concat.
        -- rewrite map_map. f_equal. apply map_ext_in. intros c Hin.
           rewrite Forall_forall in Hall. apply IH; auto.
        -- apply Forall_map. eapply Forall_impl; [|exact Hall].
           simpl. intros c Hcl. now apply length_expand.
      * destruct Hd' as [? | ->]; [contradiction|].
        simpl. rewrite firstn_all2 by lia. rewrite app_nil_r.
        f_equal. f_equal. apply IH; auto. lia.
    + destruct Hd as [? | ->]; [contradiction|].
      assert (Hds : dq = ds).
      { destruct Hd' as [?|?]; [assumption|]. subst. contradiction. }
      subst ds. rewrite Nat.eqb_refl.
      destruct (Nat.eqb_spec 1 dq) as [?|_]; [congruence|].
      rewrite <- (repeat_length (expand p q d) dq) at 1.
      rewrite chunks_concat.
      * rewrite map_repeat. f_equal. f_equal. apply IH; auto. lia.
      * apply Forall_forall. intros c Hin. apply repeat_spec in Hin. subst c.
        apply length_expand; auto. lia.
Qed.

Section Map2Facts.
Context {A B C : Type} (f : A -> B -> C).

Lemma length_map2 : forall (a : list A) (b : list B),
  length (map2 f a b) = Nat.min (length a) (length b).
Proof. induction a; intros [|y b]; simpl; auto. Qed.

Lemma map2_app : forall (a a' : list A) (b b' : list B),
  length a = length b ->
  map2 f (a ++ a') (b ++ b') = map2 f a b ++ map2 f a' b'.
Proof.
  induction a as [|x a IH]; intros a' [|y b] b' H; simpl in *;
    try discriminate; [reflexivity|].
  f_equal. apply IH. lia.
Qed.

Lemma firstn_map2 : forall n (a : list A) (b : list B),
  firstn n (map2 f a b) = map2 f (firstn n a) (firstn n b).
Proof.
  induction n; intros [|x a] [|y b]; simpl; try reflexivity.
  f_equal. apply IHn.
Qed.

Lemma skipn_map2 : forall n (a : list A) (b : list B),
  skipn n (map2 f a b) = map2 f (skipn n a) (skipn n b).
Proof.
  induction n; intros [|x a] [|y b]; simpl; try reflexivity.
  - now destruct (skipn n a).
  - apply IHn.
Qed.

Lemma chunks_map2 : forall n k (a : list A) (b : list B),
  chunks n k (map2 f a b) = map2 (map2 f) (chunks n k a) (chunks n k b).
Proof.
  induction k; intros; simpl; [reflexivity|].
  now rewrite firstn_map2, skipn_map2, IHk.
Qed.

Lemma nth_map2 : forall (a : list A) (b : list B) i da db dc,
  (i < length a)%nat -> (i < length b)%nat ->
  nth i (map2 f a b) dc = f (nth i a da) (nth i b db).
Proof.
  induction a as [|x a IH]; intros [|y b] i da db dc Ha Hb; simpl in *;
    try lia.
  destruct i; [reflexivity|]. apply IH; lia.
Qed.
End Map2Facts.

Lemma chunks_map : forall {A B : Type} (f : A -> B) n k (d : list A),
  chunks n k (map f d) = map (map f) (chunks n k d).
Proof.
  induction k; intros; simpl; [reflexivity|].
  now rewrite firstn_map, skipn_map, IHk.
Qed.

Lemma expand_map : forall f p s d,
  expand p s (map f d) = map f (expand p s d).
Proof.
  induction p as [|dp p IH]; intros [|ds s] d; simpl; try reflexivity.
  destruct (dp =? ds)%nat.
  - rewrite chunks_map, map_map, concat_map, map_map.
    f_equal. apply map_ext. intros c. apply IH.
  - rewrite IH, concat_map, map_repeat. reflexivity.
Qed.

Lemma concat_map2_expand : forall (f : Qc -> Qc -> Qc) (g : list Qc -> list Qc)
    (m : nat) (l1 l2 : list (list Qc)),
  Forall (fun c => length (g c) = m) l1 ->
  Forall (fun c => length (g c) = m) l2 ->
  (forall c1 c2, In c1 l1 -> In c2 l2 ->
     g (map2 f c1 c2) = map2 f (g c1) (g c2)) ->
  concat (map g (map2 (map2 f) l1 l2)) =
  map2 f (concat (map g l1)) (concat (map g l2)).
Proof.
  induction l1 as [|c1 l1 IH]; intros [|c2 l2] H1 H2 Hg; simpl;
    try reflexivity.
  - now destruct (g c1 ++ concat (map g l1)).
  - inversion H1; inversion H2; subst.
    rewrite map2_app by congruence.
    rewrite Hg by (now left). f_equal.
    apply IH; auto. intros; apply Hg; now right.
Qed.

Lemma expand_map2 : forall f p s d1 d2,
  compat p s -> length d1 = numel p -> length d2 = numel p ->
  expand p s (map2 f d1 d2) = map2 f (expand p s d1) (expand p s d2).
Proof.
  intros f p s d1 d2 H. revert d1 d2.
  induction H as [|dp ds p s Hd Hc IH]; intros d1 d2 H1 H2; simpl in *;
    [reflexivity|].
  destruct (Nat.eqb_spec dp ds) as [-> | Hne].
  - rewrite chunks_map2.
    pose proof (chunks_length_each (numel p) ds d1 ltac:(lia)) as Ha1.
    pose proof (chunks_length_each (numel p) ds d2 ltac:(lia)) as Ha2.
    apply (concat_map2_expand f (expand p s) (numel s)).
    + eapply Forall_impl; [|exact Ha1]. simpl. intros. now apply length_expand.
    + eapply Forall_impl; [|exact Ha2]. simpl. intros. now apply length_expand.
    + rewrite Forall_forall in Ha1, Ha2. intros. apply IH; auto.
  - destruct Hd as [? | ->]; [contradiction|].
    rewrite IH by lia.
    assert (Hl : length (expand p s d1) = length (expand p s d2)).
    { rewrite !length_expand; auto; lia. }
    generalize dependent (expand p s d2). generalize (expand p s d1).
    intros e1 e2 He. clear -He.
    induction ds as [|ds IHd]; simpl; [reflexivity|].
    rewrite map2_app by assumption. now rewrite IHd.
Qed.


Lemma bdim_le : forall x y, bdim x y = Some y -> x = y \/ x = 1%nat.
Proof.
  intros x y. unfold bdim.
  destruct (Nat.eqb_spec x y); [now left|].
  destruct (Nat.eqb_spec x 1); [now right|].
  destruct (y =? 1)%nat; intros H; inversion H; subst; congruence.
Qed.

Lemma compat_ones : forall l, compat (repeat 1%nat (length l)) l.
Proof. induction l; simpl; constructor; auto. Qed.

Lemma rbdims_le_length : forall P T,
  rbdims P T = Some T -> (length P <= length T)%nat.
Proof.
  induction P as [|x P IH]; intros [|y T] H; simpl in *; try lia;
    try discriminate.
  destruct (bdim x y); [|discriminate].
  destruct (rbdims P T) eqn:Hr; [|discriminate].
  inversion H; subst. apply IH in Hr. lia.
Qed.

Lemma rbdims_le_compat : forall P T,
  rbdims P T = Some T -> compat (pad (length T) (rev P)) (rev T).
Proof.
  induction P as [|x P IH]; intros T H.
  - unfold pad. simpl. rewrite Nat.sub_0_r, app_nil_r.
    rewrite <- (length_rev T). apply compat_ones.
  - destruct T as [|y T]; simpl in H; [discriminate|].
    destruct (bdim x y) eqn:Hd; [|discriminate].
    destruct (rbdims P T) eqn:Hr; [|discriminate].
    inversion H; subst.
    unfold pad. cbn [rev length]. rewrite length_app. cbn [length].
    replace (S (length T) - (length (rev P) + 1))%nat
      with (length T - length (rev P))%nat by lia.
    rewrite app_assoc. apply Forall2_app.
    + apply IH. assumption.
    + constructor; [|constructor]. now apply bdim_le.
Qed.

Lemma fits_compat : forall p s, fits p s -> compat (pad (length s) p) s.
Proof.
  intros p s H. apply broadcast_shapes_rev in H.
  apply rbdims_le_compat in H.
  now rewrite !rev_involutive, length_rev in H.
Qed.

Lemma fits_length : forall p s, fits p s -> (length p <= length s)%nat.
Proof.
  intros p s H. apply broadcast_shapes_rev in H.
  apply rbdims_le_length in H. now rewrite !length_rev in H.
Qed.

Lemma pad_self : forall s, pad (length s) s = s.
Proof. intros. unfold pad. now rewrite Nat.sub_diag. Qed.

Lemma pad_pad : forall n m p, (length p <= m)%nat -> (m <= n)%nat ->
  pad n p = repeat 1%nat (n - m) ++ pad m p.
Proof.
  intros. unfold pad. rewrite app_assoc, <- repeat_app. do 2 f_equal. lia.
Qed.

Lemma compat_app_ones : forall k p s,
  compat p s -> compat (repeat 1%nat k ++ p) (repeat 1%nat k ++ s).
Proof. induction k; intros; simpl; auto. constructor; auto. apply IHk; auto. Qed.


Lemma view_self : forall t, wf t -> broadcast_to (shape t) t = data t.
Proof.
  intros t H. unfold broadcast_to. rewrite pad_self. now apply expand_id.
Qed.

Lemma length_view : forall S t,
  wf t -> fits (shape t) S -> length (broadcast_to S t) = numel S.
Proof.
  intros S t Hw Hf. unfold broadcast_to. apply length_expand.
  - now apply fits_compat.
  - now rewrite numel_pad.
Qed.

Lemma view_tmap : forall f S t,
  broadcast_to S (tmap f t) = map f (broadcast_to S t).
Proof. intros. unfold broadcast_to. simpl. apply expand_map. Qed.

Lemma view_compose : forall sa s S d,
  fits sa s -> fits s S -> length d = numel sa ->
  expand (pad (length S) s) S (expand (pad (length s) sa) s d) =
  expand (pad (length S) sa) S d.
Proof.
  intros sa s S d H1 H2 Hl.
  pose proof (fits_length _ _ H1) as L1.
  pose proof (fits_length _ _ H2) as L2.
  rewrite (pad_pad (length S) (length s) sa) by assumption.
  rewrite <- (expand_ones (length S - length s) (pad (length s) sa) s d)
    by now rewrite numel_pad.
  replace (repeat 1%nat (length S - length s) ++ s) with (pad (length S) s)
    by reflexivity.
  apply expand_expand.
  - apply compat_app_ones. now apply fits_compat.
  - now apply fits_compat.
  - now rewrite numel_app, numel_ones, numel_pad, Nat.mul_1_l.
Qed.

Lemma binop_inv : forall f a b c,
  binop f a b = Ok c ->
  exists s, broadcast_shapes (shape a) (shape b) = Some s /\
            c = Tensor s (map2 f (broadcast_to s a) (broadcast_to s b)).
Proof.
  intros f a b c H. unfold binop in H.
  destruct (broadcast_shapes (shape a) (shape b)) as [s|]; [|discriminate].
  inversion H. eauto.
Qed.

Lemma wf_binop : forall f a b c,
  binop f a b = Ok c -> wf a -> wf b -> wf c.
Proof.
  intros f a b c H Ha Hb. apply binop_inv in H as (s & Hs & ->).
  unfold wf. simpl. rewrite length_map2.
  rewrite !length_view; auto; [lia | eapply fits_r | eapply fits_l]; eauto.
Qed.

Lemma view_binop : forall f a b c S,
  binop f a b = Ok c -> wf a -> wf b -> fits (shape c) S ->
  broadcast_to S c = map2 f (broadcast_to S a) (broadcast_to S b).
Proof.
  intros f a b c S H Ha Hb Hf. apply binop_inv in H as (s & Hs & ->).
  simpl in Hf. unfold broadcast_to at 1. simpl.
  pose proof (fits_l _ _ _ Hs) as Fa. pose proof (fits_r _ _ _ Hs) as Fb.
  rewrite expand_map2.
  - unfold broadcast_to. now rewrite !view_compose.
  - now apply fits_compat.
  - rewrite numel_pad. now apply length_view.
  - rewrite numel_pad. now apply length_view.
Qed.

Lemma wf_tmap : forall f t, wf t -> wf (tmap f t).
Proof. intros f t H. unfold wf in *. simpl. now rewrite length_map. Qed.

Lemma wf_zeros : forall s, wf (zeros s).
Proof. intros. unfold wf, zeros. simpl. apply repeat_length. Qed.

(** ** The monad *)

Lemma bind_ok : forall {A B : Type} (c : M A) (k : A -> M B) w a w1,
  c w = (Ok a, w1) -> bind c k w = k a w1.
Proof. intros. unfold bind. now rewrite H. Qed.

Lemma bind_raise : forall {A B : Type} (c : M A) (k : A -> M B) w e w1,
  c w = (Raise e, w1) -> bind c k w = (Raise e, w1).
Proof. intros. unfold bind. now rewrite H. Qed.

Lemma bind_cases : forall {A B : Type} (c : M A) (k : A -> M B) w r w',
  bind c k w = (r, w') ->
  (exists e, c w = (Raise e, w') /\ r = Raise e) \/
  (exists a w1, c w = (Ok a, w1) /\ k a w1 = (r, w')).
Proof.
  intros A B c k w r w' H. unfold bind in H.
  destruct (c w) as [[a|e] w1].
  - right. eauto.
  - left. inversion H; subst. eauto.
Qed.

Lemma bind_inv_ok : forall {A B : Type} (c : M A) (k : A -> M B) w b w',
  bind c k w = (Ok b, w') ->
  exists a w1, c w = (Ok a, w1) /\ k a w1 = (Ok b, w').
Proof.
  intros A B c k w b w' H. apply bind_cases in H as [(e & _ & He)|H].
  - discriminate.
  - assumption.
Qed.

Lemma lift_inv_ok : forall {A : Type} (r : result A) w a w',
  lift r w = (Ok a, w') -> r = Ok a /\ w' = w.
Proof. intros A r w a w' H. unfold lift in H. now inversion H. Qed.

(** ** Records *)

Lemma with_mem_same : forall n, with_mem (mem n) n = n.
Proof. now destruct n. Qed.

Lemma put_mem_same : forall w, put_mem (mem (self w)) w = w.
Proof. intros [n h r d]. unfold put_mem. simpl. now rewrite with_mem_same. Qed.

Lemma unchanged_refl : forall w, unchanged w w.
Proof. now repeat split. Qed.

Lemma unchanged_trans : forall w1 w2 w3,
  unchanged w1 w2 -> unchanged w2 w3 -> unchanged w1 w3.
Proof.
  intros w1 w2 w3 (H1 & H2 & H3 & H4) (H5 & H6 & H7 & H8).
  repeat split; congruence.
Qed.

Lemma unchanged_threshold_of : forall w w',
  unchanged w w' -> threshold_of w' = threshold_of w.
Proof.
  intros w w' (Hc & Hh & _). unfold threshold_of. rewrite Hh.
  unfold config in Hc. now inversion Hc.
Qed.

Lemma config_fields : forall n n',
  config n' = config n ->
  beta n' = beta n /\ funkiness n' = funkiness n /\
  threshold n' = threshold n /\ init_hidden n' = init_hidden n /\
  inhibition n' = inhibition n /\
  reset_mechanism_ n' = reset_mechanism_ n /\
  state_quant n' = state_quant n /\ output n' = output n /\
  graded_spikes_factor n' = graded_spikes_factor n /\
  reset_delay n' = reset_delay n.
Proof.
  intros n n' H. unfold config in H. inversion H. repeat split; assumption.
Qed.

(** Names the equations between the attributes of two configurations. *)
Ltac config_eq H :=
  let Eb := fresh "Ebeta" in let Ef := fresh "Efunk" in
  let Et := fresh "Ethr" in let Ei := fresh "Eih" in
  let En := fresh "Einh" in let Em := fresh "Erm" in
  let Eq := fresh "Esq" in let Eo := fresh "Eout" in
  let Eg := fresh "Egsf" in let Ed := fresh "Erd" in
  destruct (config_fields _ _ H) as (Eb & Ef & Et & Ei & En & Em & Eq & Eo & Eg & Ed).

(** ** Steps that leave configuration and store alone *)

Create HintDb quiet.

Lemma quiet_ret : forall {A : Type} (a : A), quiet (ret a).
Proof. intros A a w r w' H. inversion H; subst. apply unchanged_refl. Qed.

Lemma quiet_raise : forall {A : Type} (e : exn), quiet (@raise A e).
Proof. intros A e w r w' H. inversion H; subst. apply unchanged_refl. Qed.

Lemma quiet_lift : forall {A : Type} (x : result A), quiet (lift x).
Proof. intros A x w r w' H. inversion H; subst. apply unchanged_refl. Qed.

Lemma quiet_attr : forall {A : Type} (f : Funky -> A), quiet (attr f).
Proof. intros A f w r w' H. inversion H; subst. apply unchanged_refl. Qed.

Lemma quiet_load : forall l, quiet (load l).
Proof. intros l w r w' H. inversion H; subst. apply unchanged_refl. Qed.

Lemma quiet_set_mem : forall t, quiet (set_mem t).
Proof. intros t w r w' H. inversion H; subst. now repeat split. Qed.

Lemma quiet_set_reset : forall t, quiet (set_reset t).
Proof. intros t w r w' H. inversion H; subst. now repeat split. Qed.

Lemma quiet_bind : forall {A B : Type} (c : M A) (k : A -> M B),
  quiet c -> (forall a, quiet (k a)) -> quiet (bind c k).
Proof.
  intros A B c k Hc Hk w r w' H.
  apply bind_cases in H as [(e & H & _)|(a & w1 & H1 & H2)].
  - eapply Hc; eauto.
  - eapply unchanged_trans; [eapply Hc | eapply Hk]; eauto.
Qed.

#[local] Hint Resolve quiet_ret quiet_raise quiet_lift quiet_attr quiet_load
  quiet_set_mem quiet_set_reset : quiet.

Ltac quiet_steps :=
  repeat first
    [ apply quiet_bind; [|intros ?]
    | match goal with
      | |- quiet (if ?b then _ else _) => destruct b
      | |- quiet (match ?o with Some _ => _ | None => _ end) => destruct o
      end
    | solve [auto with quiet] ].

Lemma quiet_read_local : forall v, quiet (read_local v).
Proof. intros [l|]; simpl; auto with quiet. Qed.

Lemma quiet_mem_reset : forall m, quiet (mem_reset m).
Proof. intros m. unfold mem_reset. quiet_steps. Qed.

Lemma quiet_fire_inhibition : forall b m, quiet (fire_inhibition b m).
Proof. intros b m. unfold fire_inhibition. quiet_steps. Qed.

Lemma quiet_base_state_function : forall x, quiet (_base_state_function x).
Proof. intros x. unfold _base_state_function. quiet_steps. Qed.

#[local] Hint Resolve quiet_read_local quiet_mem_reset quiet_fire_inhibition
  quiet_base_state_function : quiet.

Lemma quiet_state_function : forall x, quiet (state_function x).
Proof.
  intros x. unfold state_function, _base_sub, _base_zero, _base_int.
  quiet_steps.
Qed.

#[local] Hint Resolve quiet_state_function : quiet.

Lemma quiet_bind_mem : forall x m, quiet (bind_mem x m).
Proof. intros x m. unfold bind_mem. quiet_steps. Qed.

Lemma quiet_update_state : forall x, quiet (update_state x).
Proof. intros x. unfold update_state. quiet_steps. Qed.

Lemma quiet_immediate_reset : forall spk tb, quiet (immediate_reset spk tb).
Proof. intros spk tb. unfold immediate_reset. quiet_steps. Qed.

Lemma quiet_returned : forall spk, quiet (returned spk).
Proof. intros spk. unfold returned. quiet_steps. Qed.

Lemma quiet_reset_mem : quiet reset_mem.
Proof. unfold reset_mem. quiet_steps. Qed.

#[local] Hint Resolve quiet_bind_mem quiet_update_state quiet_immediate_reset
  quiet_returned : quiet.

(** ** What each block of [forward] computes *)

Lemma reset_mechanism_val_subtract : forall n,
  reset_mechanism_ n = subtract -> reset_mechanism_val n = 0%nat.
Proof. intros n H. unfold reset_mechanism_val. now rewrite H. Qed.

Lemma reset_mechanism_val_zero : forall n,
  reset_mechanism_ n = zero -> reset_mechanism_val n = 1%nat.
Proof. intros n H. unfold reset_mechanism_val. now rewrite H. Qed.

Lemma reset_mechanism_val_none : forall n,
  reset_mechanism_ n = none -> reset_mechanism_val n = 2%nat.
Proof. intros n H. unfold reset_mechanism_val. now rewrite H. Qed.

Lemma bind_mem_refused : forall w x m,
  init_hidden (self w) = true ->
  bind_mem x (Some m) w = (Raise TypeError, put_mem m w).
Proof.
  intros w x m H. unfold bind_mem, bind, set_mem, attr, raise. simpl.
  now rewrite H.
Qed.

Lemma bind_mem_ok : forall w x m,
  init_hidden (self w) && is_some m = false ->
  bind_mem x m w = (Ok tt, put_mem (entry_mem w x m) w).
Proof.
  intros w x m H. unfold bind_mem, entry_mem, bind, set_mem, attr, ret.
  destruct m as [t|]; simpl in *.
  - rewrite H. simpl. now destruct (shape_eqb (shape t) (shape x)).
  - rewrite andb_false_r.
    destruct (shape_eqb (shape (mem (self w))) (shape x)); simpl;
      [now rewrite put_mem_same | reflexivity].
Qed.

Lemma shape_eqb_true : forall a b, shape_eqb a b = true -> a = b.
Proof.
  intros a b. unfold shape_eqb. now destruct (list_eq_dec Nat.eq_dec a b).
Qed.

Lemma shape_eqb_refl : forall a, shape_eqb a a = true.
Proof.
  intros a. unfold shape_eqb. now destruct (list_eq_dec Nat.eq_dec a a).
Qed.

Lemma shape_entry_mem : forall w x m, shape (entry_mem w x m) = shape x.
Proof.
  intros w x m. unfold entry_mem.
  destruct (shape_eqb _ _) eqn:E; [now apply shape_eqb_true | reflexivity].
Qed.

Lemma wf_entry_mem : forall w x m,
  wf (match m with Some t => t | None => mem (self w) end) ->
  wf (entry_mem w x m).
Proof.
  intros w x m H. unfold entry_mem.
  destruct (shape_eqb _ _); [assumption | apply wf_zeros].
Qed.

Lemma mem_reset_eq : forall m w,
  mem_reset m w = (reset_indicator m (threshold_of w), w).
Proof.
  intros m w. unfold mem_reset, reset_indicator, threshold_of, bind, attr,
    load, lift, ret. simpl.
  now destruct (tsub m (heap w (threshold (self w)))).
Qed.

Lemma base_state_function_eq : forall x w,
  _base_state_function x w =
  (decay_plus_input (beta (self w)) (mem (self w)) x, w).
Proof.
  intros x w. unfold _base_state_function, decay_plus_input, bind, attr, lift.
  simpl. now destruct (tmul _ _).
Qed.

Lemma state_function_subtract : forall x w,
  reset_mechanism_ (self w) = subtract ->
  state_function x w =
  (subtract_formula (beta (self w)) (mem (self w)) x (reset (self w))
     (threshold_of w), w).
Proof.
  intros x w H. unfold state_function, bind at 1, attr at 1.
  rewrite (reset_mechanism_val_subtract _ H). simpl.
  unfold _base_sub, bind at 1. rewrite base_state_function_eq.
  unfold subtract_formula, threshold_of, bind, attr, load, lift. simpl.
  destruct (decay_plus_input _ _ _); simpl; [|reflexivity].
  now destruct (tmul _ _).
Qed.

Lemma state_function_zero : forall x w,
  reset_mechanism_ (self w) = zero ->
  state_function x w =
  match zeroed_formula (reset (self w)) (mem (self w)) with
  | Ok z => (decay_plus_input (beta (self w)) z x, put_mem z w)
  | Raise e => (Raise e, w)
  end.
Proof.
  intros x w H. unfold state_function, bind at 1, attr at 1.
  rewrite (reset_mechanism_val_zero _ H). simpl.
  unfold _base_zero, zeroed_formula, bind, attr, lift, set_mem. simpl.
  destruct (tmul _ _); [|reflexivity].
  now rewrite base_state_function_eq.
Qed.

Lemma state_function_none : forall x w,
  reset_mechanism_ (self w) = none ->
  state_function x w =
  (decay_plus_input (beta (self w)) (mem (self w)) x, w).
Proof.
  intros x w H. unfold state_function, bind at 1, attr at 1.
  rewrite (reset_mechanism_val_none _ H). simpl.
  apply base_state_function_eq.
Qed.

Lemma update_state_eq : forall x w,
  update_state x w =
  match reset_indicator (mem (self w)) (threshold_of w) with
  | Raise e => (Raise e, w)
  | Ok R =>
      match state_function x (put_reset R w) with
      | (Ok v, w1) => (Ok tt, put_mem (quant (state_quant (self w1)) v) w1)
      | (Raise e, w1) => (Raise e, w1)
      end
  end.
Proof.
  intros x w. unfold update_state. unfold bind at 1, attr at 1.
  unfold bind at 1. rewrite mem_reset_eq.
  destruct (reset_indicator _ _) as [R|e]; [|reflexivity].
  unfold bind at 1, set_reset at 1. unfold bind at 1.
  destruct (state_function x (put_reset R w)) as [[v|e] w1]; reflexivity.
Qed.

Lemma fire_eq : forall m w,
  fire m w =
  match spikes_formula (state_quant (self w)) m (threshold_of w)
          (graded_spikes_factor (self w)) with
  | Raise e => (Raise e, w)
  | Ok spk =>
      if any spk then
        match normal 0 (funkiness (self w)) (shape (threshold_of w))
                (draws w) with
        | Raise e => (Raise e, w)
        | Ok noise =>
            match tadd (threshold_of w) noise with
            | Raise e =>
                (Raise e,
                 World (self w) (heap w) (randn w)
                   (drawn w + numel (shape (threshold_of w))))
            | Ok th' => (Ok spk, perturbed th' w)
            end
        end
      else (Ok spk, w)
  end.
Proof.
  intros m w.
  unfold fire, spikes_formula, threshold_of, draws, perturbed, bind, attr,
    load, lift, ret, store, torch_normal, threshold_of. simpl.
  destruct (tsub _ _) as [ms|e]; simpl; [|reflexivity].
  destruct (tmul _ _) as [spk|e]; simpl; [|reflexivity].
  destruct (any spk); [|reflexivity].
  destruct (normal _ _ _ _) as [noise|e]; simpl; [|reflexivity].
  destruct (tadd _ _) as [th'|e]; reflexivity.
Qed.

Lemma immediate_reset_bound : forall spk l w,
  immediate_reset spk (Some l) w =
  match compensated (reset_mechanism_ (self w)) spk
          (graded_spikes_factor (self w)) (reset (self w)) (mem (self w))
          (heap w l) with
  | Ok m' => (Ok tt, put_mem m' w)
  | Raise e => (Raise e, w)
  end.
Proof.
  intros spk l w.
  unfold immediate_reset, compensated, do_reset_formula, reset_mechanism_val,
    bind, attr, lift, ret, read_local, load, set_mem.
  simpl.
  destruct (tdiv _ _) as [q|e]; simpl; [|reflexivity].
  destruct (tsub _ _) as [d|e]; simpl; [|reflexivity].
  destruct (reset_mechanism_ (self w)); simpl.
  - destruct (tmul _ _) as [p|e]; simpl; [|reflexivity].
    now destruct (tsub _ _).
  - destruct (tmul _ _) as [p|e]; simpl; [|reflexivity].
    now destruct (tsub _ _).
  - now rewrite put_mem_same.
Qed.

Lemma immediate_reset_unbound : forall spk w,
  reset_mechanism_ (self w) = subtract ->
  immediate_reset spk None w =
  match do_reset_formula spk (graded_spikes_factor (self w))
          (reset (self w)) with
  | Ok _ => (Raise UnboundLocalError, w)
  | Raise e => (Raise e, w)
  end.
Proof.
  intros spk w H.
  unfold immediate_reset, do_reset_formula, reset_mechanism_val,
    bind, attr, lift, ret, read_local, raise.
  simpl. rewrite H. simpl.
  destruct (tdiv _ _) as [q|e]; simpl; [|reflexivity].
  now destruct (tsub _ _).
Qed.

Lemma immediate_reset_any_local : forall spk tb l w,
  reset_mechanism_ (self w) <> subtract ->
  immediate_reset spk tb w = immediate_reset spk (Some l) w.
Proof.
  intros spk tb l w H.
  unfold immediate_reset, reset_mechanism_val, bind, attr, lift. simpl.
  destruct (tdiv _ _) as [q|e]; simpl; [|reflexivity].
  destruct (tsub _ _) as [d|e]; simpl; [|reflexivity].
  destruct (reset_mechanism_ (self w)); simpl; [contradiction | | ];
    reflexivity.
Qed.

Lemma returned_eq : forall spk w,
  returned spk w =
  (Ok (if output (self w) then SpkMem spk (mem (self w))
       else if init_hidden (self w) then Spk spk
       else SpkMem spk (mem (self w))), w).
Proof.
  intros spk w. unfold returned, bind, attr, ret. simpl.
  destruct (output (self w)), (init_hidden (self w)); reflexivity.
Qed.

Lemma spikes_returned : forall spk w r w',
  returned spk w = (r, w') -> r = Ok (match r with Ok o => o | _ => Spk spk end)
  /\ (forall o, r = Ok o -> spikes o = spk) /\ w' = w.
Proof.
  intros spk w r w' H. rewrite returned_eq in H. inversion H; subst.
  repeat split. intros o Ho. inversion Ho.
  destruct (output (self w')), (init_hidden (self w')); reflexivity.
Qed.

(** ** Tensor operations between shapes that fit *)

Lemma binop_ok_shape : forall f a b s,
  broadcast_shapes (shape a) (shape b) = Some s ->
  binop f a b = Ok (Tensor s (map2 f (broadcast_to s a) (broadcast_to s b))).
Proof. intros f a b s H. unfold binop. now rewrite H. Qed.

Lemma binop_shape : forall f a b c,
  binop f a b = Ok c -> broadcast_shapes (shape a) (shape b) = Some (shape c).
Proof. intros f a b c H. apply binop_inv in H as (s & Hs & ->). exact Hs. Qed.

Lemma binop_raises : forall f a b e, binop f a b = Raise e -> e = RuntimeError.
Proof.
  intros f a b e H. unfold binop in H.
  destruct (broadcast_shapes _ _); now inversion H.
Qed.

(** Proves [broadcast_shapes p q = Some s] when both sides are [s] or fit [s]. *)
Ltac shape_tac :=
  simpl;
  repeat match goal with
         | H : shape _ = _ |- _ => rewrite H
         end;
  first [ apply broadcast_shapes_refl
        | assumption
        | apply fits_big; assumption ].

(** Runs the next tensor operation of the goal, its result being of shape [s]. *)
Ltac bstep s :=
  match goal with
  | |- context [binop ?f ?a ?b] =>
      rewrite (binop_ok_shape f a b s) by shape_tac; simpl
  end.

Lemma reset_indicator_fits : forall m th s,
  shape m = s -> fits (shape th) s ->
  exists R, reset_indicator m th = Ok R /\ shape R = s.
Proof.
  intros m th s Hm Hth. unfold reset_indicator, tsub. bstep s.
  eexists. split; reflexivity.
Qed.

Lemma decay_plus_input_fits : forall b m x s,
  fits (shape b) s -> shape m = s -> shape x = s ->
  exists v, decay_plus_input b m x = Ok v /\ shape v = s.
Proof.
  intros b m x s Hb Hm Hx. unfold decay_plus_input, tmul, tadd.
  bstep s. bstep s. eexists. split; reflexivity.
Qed.

Lemma subtract_formula_fits : forall b m x r th s,
  fits (shape b) s -> shape m = s -> shape x = s -> shape r = s ->
  fits (shape th) s ->
  exists v, subtract_formula b m x r th = Ok v /\ shape v = s.
Proof.
  intros b m x r th s Hb Hm Hx Hr Hth. unfold subtract_formula.
  destruct (decay_plus_input_fits b m x s Hb Hm Hx) as (v & -> & Hv). simpl.
  unfold tmul, tsub. bstep s. bstep s. eexists. split; reflexivity.
Qed.

Lemma zeroed_formula_fits : forall r m s,
  shape r = s -> shape m = s ->
  exists z, zeroed_formula r m = Ok z /\ shape z = s.
Proof.
  intros r m s Hr Hm. unfold zeroed_formula, tmul. bstep s.
  eexists. split; reflexivity.
Qed.

Lemma shape_quant : forall sq t, shape (quant sq t) = shape t.
Proof. now intros [q|] t. Qed.

Lemma wf_quant : forall sq t, wf t -> wf (quant sq t).
Proof. intros [q|] t H; simpl; [now apply wf_tmap | assumption]. Qed.

Lemma spikes_formula_fits : forall sq m th g s,
  shape m = s -> fits (shape th) s -> fits (shape g) s ->
  exists spk, spikes_formula sq m th g = Ok spk /\ shape spk = s.
Proof.
  intros sq m th g s Hm Hth Hg. unfold spikes_formula, tsub, tmul.
  pose proof (shape_quant sq m) as Hq. rewrite Hm in Hq.
  bstep s. bstep s. eexists. split; reflexivity.
Qed.

Lemma do_reset_formula_fits : forall spk g r s,
  shape spk = s -> fits (shape g) s -> fits (shape r) s ->
  exists d, do_reset_formula spk g r = Ok d /\ shape d = s.
Proof.
  intros spk g r s Hs Hg Hr. unfold do_reset_formula, tdiv, tsub.
  bstep s. bstep s. eexists. split; reflexivity.
Qed.

(** The compensation succeeds when everything it reads fits the spikes'
    shape, and the membrane it yields has that shape or is the old one. *)
Lemma compensated_fits : forall rm spk g r m thb s,
  shape spk = s -> fits (shape g) s -> fits (shape r) s ->
  fits (shape m) s -> fits (shape thb) s ->
  exists m', compensated rm spk g r m thb = Ok m' /\
             (shape m' = s \/ m' = m).
Proof.
  intros rm spk g r m thb s Hs Hg Hr Hm Hth. unfold compensated.
  destruct (do_reset_formula_fits spk g r s Hs Hg Hr) as (d & -> & Hd).
  simpl. destruct rm; unfold tmul, tsub.
  - bstep s. rewrite (binop_ok_shape _ m _ s) by (simpl; exact Hm).
    eexists. split; [reflexivity | now left].
  - bstep s. rewrite (binop_ok_shape _ m _ s) by (simpl; exact Hm).
    eexists. split; [reflexivity | now left].
  - eexists. split; [reflexivity | now right].
Qed.

(** ** A forward call on shapes that fit *)

Lemma threshold_of_put_reset : forall R w,
  threshold_of (put_reset R w) = threshold_of w.
Proof. reflexivity. Qed.

Lemma threshold_of_put_mem : forall m w,
  threshold_of (put_mem m w) = threshold_of w.
Proof. reflexivity. Qed.

Lemma threshold_of_perturbed : forall th' w,
  threshold_of (perturbed th' w) = th'.
Proof.
  intros. unfold threshold_of, perturbed. simpl. now rewrite Nat.eqb_refl.
Qed.

Lemma update_state_fits : forall x w s,
  shape x = s -> shape (mem (self w)) = s ->
  fits (shape (beta (self w))) s -> fits (shape (threshold_of w)) s ->
  exists w2, update_state x w = (Ok tt, w2) /\ unchanged w w2 /\
             shape (mem (self w2)) = s /\ shape (reset (self w2)) = s.
Proof.
  intros x w s Hx Hm Hb Hth.
  assert (Hq : forall w2, update_state x w = (Ok tt, w2) -> unchanged w w2)
    by (intros w2 H; eapply quiet_update_state; eauto).
  rewrite update_state_eq in *.
  destruct (reset_indicator_fits _ _ s Hm Hth) as (R & HR & HRs).
  rewrite HR in *.
  destruct (reset_mechanism_ (self w)) eqn:Hrm.
  - rewrite state_function_subtract in * by exact Hrm.
    destruct (subtract_formula_fits (beta (self (put_reset R w)))
                (mem (self (put_reset R w))) x (reset (self (put_reset R w)))
                (threshold_of (put_reset R w)) s) as (v & Hv & Hvs); auto.
    rewrite Hv in *. eexists. split; [reflexivity|].
    split; [now apply Hq|]. simpl. now rewrite shape_quant.
  - rewrite state_function_zero in * by exact Hrm.
    destruct (zeroed_formula_fits (reset (self (put_reset R w)))
                (mem (self (put_reset R w))) s) as (z & Hz & Hzs); auto.
    rewrite Hz in *.
    destruct (decay_plus_input_fits (beta (self (put_reset R w))) z x s)
      as (v & Hv & Hvs); auto.
    rewrite Hv in *. eexists. split; [reflexivity|].
    split; [now apply Hq|]. simpl. now rewrite shape_quant.
  - rewrite state_function_none in * by exact Hrm.
    destruct (decay_plus_input_fits (beta (self (put_reset R w)))
                (mem (self (put_reset R w))) x s) as (v & Hv & Hvs); auto.
    rewrite Hv in *. eexists. split; [reflexivity|].
    split; [now apply Hq|]. simpl. now rewrite shape_quant.
Qed.

Lemma fire_inhibition_fits : forall b m w s,
  shape m = s -> fits (shape (threshold_of w)) s ->
  exists spk, fire_inhibition b m w = (Ok spk, w) /\ shape spk = s.
Proof.
  intros b m w s Hm Hth.
  unfold fire_inhibition, bind, attr, load, lift, tsub. simpl.
  fold (threshold_of w). bstep s. unfold tmul. bstep s.
  eexists. split; reflexivity.
Qed.

(** With a negative [funkiness] the noise cannot be drawn: [fire] raises as
    soon as a spike occurs.  Otherwise it returns spikes of the shape [s]. *)
Lemma fire_fits : forall m w s,
  shape m = s -> fits (shape (threshold_of w)) s ->
  fits (shape (graded_spikes_factor (self w))) s ->
  (Qcltb (funkiness (self w)) 0 = true /\
   fire m w = (Raise RuntimeError, w)) \/
  (exists spk w3, fire m w = (Ok spk, w3) /\ shape spk = s /\
    self w3 = self w /\ shape (threshold_of w3) = shape (threshold_of w)).
Proof.
  intros m w s Hm Hth Hg. rewrite fire_eq.
  destruct (spikes_formula_fits (state_quant (self w)) m (threshold_of w)
              (graded_spikes_factor (self w)) s Hm Hth Hg) as (spk & -> & Hs).
  destruct (any spk).
  - unfold normal. destruct (Qcltb (funkiness (self w)) 0) eqn:Hf.
    + left. now split.
    + right. unfold tadd.
      rewrite (binop_ok_shape _ _ _ (shape (threshold_of w)))
        by (simpl; apply broadcast_shapes_refl).
      do 2 eexists. split; [reflexivity|]. split; [assumption|].
      split; [reflexivity|]. now rewrite threshold_of_perturbed.
  - right. do 2 eexists. repeat split; auto.
Qed.

Lemma spike_inhibited : forall w,
  inhibition (self w) = true ->
  spike w =
  match shape (mem (self w)) with
  | [] => (Raise IndexError, w)
  | n :: _ =>
      (spk <- fire_inhibition n (mem (self w)) ;; ret (spk, None)) w
  end.
Proof.
  intros w H. unfold spike, bind at 1, attr at 1. rewrite H.
  unfold bind at 1, attr at 1. unfold bind at 1, lift, size0.
  now destruct (shape (mem (self w))).
Qed.

Lemma spike_plain : forall w,
  inhibition (self w) = false ->
  spike w =
  (spk <- fire (mem (self w)) ;; ret (spk, Some (threshold (self w)))) w.
Proof.
  intros w H. unfold spike, bind at 1, attr at 1. now rewrite H.
Qed.

Lemma spike_fits : forall w s,
  shape (mem (self w)) = s ->
  fits (shape (threshold_of w)) s ->
  fits (shape (graded_spikes_factor (self w))) s ->
  (inhibition (self w) = true /\ s = [] /\
   spike w = (Raise IndexError, w)) \/
  (inhibition (self w) = false /\ Qcltb (funkiness (self w)) 0 = true /\
   spike w = (Raise RuntimeError, w)) \/
  (exists spk w3,
    spike w =
      (Ok (spk, if inhibition (self w) then None
                else Some (threshold (self w))), w3) /\
    shape spk = s /\ self w3 = self w /\
    shape (threshold_of w3) = shape (threshold_of w) /\
    (inhibition (self w) = true -> s <> [])).
Proof.
  intros w s Hm Hth Hg.
  destruct (inhibition (self w)) eqn:Hinh.
  - rewrite (spike_inhibited w Hinh).
    destruct (shape (mem (self w))) as [|n sh] eqn:Hsh.
    + left. subst s. now repeat split.
    + right; right.
      destruct (fire_inhibition_fits n (mem (self w)) w s)
        as (spk & Hspk & Hs); [congruence | assumption |].
      rewrite (bind_ok _ _ _ _ _ Hspk). do 2 eexists.
      split; [reflexivity|]. repeat split; auto. subst s. discriminate.
  - rewrite (spike_plain w Hinh).
    destruct (fire_fits (mem (self w)) w s Hm Hth Hg)
      as [[Hf Hfire] | (spk & w3 & Hfire & Hs & Hself & Hth')].
    + right; left. rewrite (bind_raise _ _ _ _ _ Hfire). now repeat split.
    + right; right. rewrite (bind_ok _ _ _ _ _ Hfire). do 2 eexists.
      split; [reflexivity|]. repeat split; auto. discriminate.
Qed.

Lemma forward_unfold : forall x m w,
  forward x m w =
  (bind_mem x m ;; update_state x ;; fired <- spike ;; finish fired) w.
Proof. reflexivity. Qed.

Lemma forward_refused : forall w x m,
  init_hidden (self w) = true ->
  forward x (Some m) w = (Raise TypeError, put_mem m w).
Proof.
  intros w x m H. rewrite forward_unfold.
  apply bind_raise. now apply bind_mem_refused.
Qed.

(** How far a call gets when the parameters fit the input's shape. *)
Lemma forward_prefix_fits : forall w x m,
  init_hidden (self w) && is_some m = false ->
  fits (shape (beta (self w))) (shape x) ->
  fits (shape (threshold_of w)) (shape x) ->
  fits (shape (graded_spikes_factor (self w))) (shape x) ->
  (inhibition (self w) = true /\ shape x = [] /\
   fst (forward x m w) = Raise IndexError) \/
  (inhibition (self w) = false /\ Qcltb (funkiness (self w)) 0 = true /\
   fst (forward x m w) = Raise RuntimeError) \/
  (exists spk w3,
    forward x m w =
      finish (spk, if inhibition (self w) then None
                   else Some (threshold (self w))) w3 /\
    shape spk = shape x /\
    shape (mem (self w3)) = shape x /\
    shape (reset (self w3)) = shape x /\
    config (self w3) = config (self w) /\
    shape (threshold_of w3) = shape (threshold_of w) /\
    (inhibition (self w) = true -> shape x <> [])).
Proof.
  intros w x m Hmis Hb Hth Hg.
  rewrite forward_unfold.
  rewrite (bind_ok _ _ _ _ _ (bind_mem_ok w x m Hmis)).
  destruct (update_state_fits x (put_mem (entry_mem w x m) w) (shape x)
              eq_refl (shape_entry_mem w x m) Hb Hth)
    as (w2 & Hup & Hun & Hm2 & Hr2).
  rewrite (bind_ok _ _ _ _ _ Hup).
  pose proof (unchanged_threshold_of _ _ Hun) as Hth2.
  rewrite threshold_of_put_mem in Hth2.
  destruct Hun as [Hc2 _]. change (config (self w2) = config (self w)) in Hc2.
  config_eq Hc2.
  destruct (spike_fits w2 (shape x) Hm2) as
    [(Hinh & Hsx & Hsp) | [(Hinh & Hf & Hsp) |
     (spk & w3 & Hsp & Hs & Hself & Hth3 & Hrk)]].
  - now rewrite Hth2.
  - now rewrite Egsf.
  - left. rewrite (bind_raise _ _ _ _ _ Hsp). repeat split; congruence.
  - right; left. rewrite (bind_raise _ _ _ _ _ Hsp). repeat split; congruence.
  - right; right. rewrite (bind_ok _ _ _ _ _ Hsp).
    exists spk, w3. rewrite Hself, Einh, Ethr.
    repeat split; try congruence. rewrite <- Einh. exact Hrk.
Qed.

Lemma quiet_finish : forall fired, quiet (finish fired).
Proof. intros fired. unfold finish. quiet_steps. Qed.

Lemma finish_fits : forall spk tb w s,
  shape spk = s -> shape (mem (self w)) = s -> shape (reset (self w)) = s ->
  fits (shape (graded_spikes_factor (self w))) s ->
  fits (shape (threshold_of w)) s ->
  (tb = Some (threshold (self w)) \/
   reset_delay (self w) = true \/ reset_mechanism_ (self w) <> subtract) ->
  exists out w', finish (spk, tb) w = (Ok out, w') /\
    shape (mem (self w')) = s /\ spikes out = spk /\ unchanged w w'.
Proof.
  intros spk tb w s Hs Hm Hr Hg Hth Htb.
  assert (Hcomp : exists m', immediate_reset spk (Some (threshold (self w))) w
                    = (Ok tt, put_mem m' w) /\ shape m' = s).
  { rewrite immediate_reset_bound.
    destruct (compensated_fits (reset_mechanism_ (self w)) spk
                (graded_spikes_factor (self w)) (reset (self w))
                (mem (self w)) (heap w (threshold (self w))) s)
      as (m' & -> & Hm'); auto.
    - rewrite Hr. apply fits_refl.
    - rewrite Hm. apply fits_refl.
    - exists m'. split; [reflexivity|]. destruct Hm'; congruence. }
  destruct Hcomp as (m' & Him & Hm').
  assert (E : exists out w', finish (spk, tb) w = (Ok out, w') /\
                shape (mem (self w')) = s /\ spikes out = spk).
  { unfold finish. unfold bind at 1, attr at 1.
    destruct (reset_delay (self w)) eqn:Hrd; simpl.
    - unfold bind at 1, ret at 1. rewrite returned_eq.
      do 2 eexists. split; [reflexivity|]. split; [assumption|].
      destruct (output (self w)), (init_hidden (self w)); reflexivity.
    - assert (Him' : immediate_reset spk tb w = (Ok tt, put_mem m' w)).
      { destruct Htb as [-> | [? | Hne]]; [assumption | discriminate |].
        now rewrite (immediate_reset_any_local spk tb (threshold (self w)) w
                       Hne). }
      unfold bind at 1. rewrite Him'. rewrite returned_eq.
      do 2 eexists. split; [reflexivity|]. split; [assumption|].
      simpl. destruct (output (self w)), (init_hidden (self w)); reflexivity. }
  destruct E as (out & w' & E & Hm'' & Hsp).
  exists out, w'. repeat split; try assumption; eapply quiet_finish; eauto.
Qed.

(** In the configuration where [threshold_before_spike] was never
    assigned, the end of [forward] raises. *)
Lemma finish_unbound : forall spk w,
  reset_delay (self w) = false -> reset_mechanism_ (self w) = subtract ->
  exists e, finish (spk, None) w = (Raise e, w) /\
    (e = UnboundLocalError \/ e = RuntimeError) /\
    (shape (reset (self w)) = shape spk ->
     fits (shape (graded_spikes_factor (self w))) (shape spk) ->
     e = UnboundLocalError).
Proof.
  intros spk w Hrd Hrm. unfold finish. unfold bind at 1, attr at 1.
  rewrite Hrd. simpl. unfold bind at 1.
  rewrite (immediate_reset_unbound _ _ Hrm).
  destruct (do_reset_formula _ _ _) as [d|e] eqn:Hd.
  - eexists. split; [reflexivity|]. split; [now left | reflexivity].
  - exists e. split; [reflexivity|]. split.
    + right. unfold do_reset_formula in Hd.
      destruct (tdiv _ _) as [q|e1] eqn:Hq; simpl in Hd.
      * eapply binop_raises; eauto.
      * inversion Hd; subst e1. eapply binop_raises; eauto.
    + intros Hr Hg.
      destruct (do_reset_formula_fits spk (graded_spikes_factor (self w))
                  (reset (self w)) (shape spk) eq_refl Hg) as (d & Hd' & _);
        [rewrite Hr; apply fits_refl | congruence].
Qed.

(** Every way a call with fitting parameters can go. *)
Lemma forward_fits_cases : forall w x m,
  fits (shape (beta (self w))) (shape x) ->
  fits (shape (threshold_of w)) (shape x) ->
  fits (shape (graded_spikes_factor (self w))) (shape x) ->
  (init_hidden (self w) && is_some m = true /\
   fst (forward x m w) = Raise TypeError) \/
  (init_hidden (self w) && is_some m = false /\
   inhibition (self w) = true /\ shape x = [] /\
   fst (forward x m w) = Raise IndexError) \/
  (init_hidden (self w) && is_some m = false /\
   inhibition (self w) = false /\ Qcltb (funkiness (self w)) 0 = true /\
   fst (forward x m w) = Raise RuntimeError) \/
  (init_hidden (self w) && is_some m = false /\
   inhibition (self w) = true /\ shape x <> [] /\
   reset_delay (self w) = false /\ reset_mechanism_ (self w) = subtract /\
   fst (forward x m w) = Raise UnboundLocalError) \/
  (init_hidden (self w) && is_some m = false /\
   (inhibition (self w) = true -> shape x <> []) /\
   ~ (inhibition (self w) = true /\ reset_delay (self w) = false /\
      reset_mechanism_ (self w) = subtract) /\
   exists out w', forward x m w = (Ok out, w') /\
     shape (mem (self w')) = shape x /\ shape (spikes out) = shape x).
Proof.
  intros w x m Hb Hth Hg.
  destruct (init_hidden (self w) && is_some m) eqn:Hmis.
  { left. split; [reflexivity|].
    apply andb_true_iff in Hmis as [Hih Hm]. destruct m; [|discriminate].
    now rewrite forward_refused. }
  right.
  destruct (forward_prefix_fits w x m Hmis Hb Hth Hg)
    as [(Hinh & Hsx & E) | [(Hinh & Hf & E) |
        (spk & w3 & E & Hs & Hm3 & Hr3 & Hc3 & Hth3 & Hrk)]].
  { left. auto. }
  { right; left. auto. }
  right; right. config_eq Hc3. rewrite E.
  destruct (inhibition (self w)) eqn:Hinh;
    [destruct (reset_delay (self w)) eqn:Hrd;
     [|destruct (reset_mechanism_ (self w)) eqn:Hrm]|].
  2: { (* the unassigned local variable *)
    left. destruct (finish_unbound spk w3) as (e & Hfin & _ & He);
      try congruence.
    rewrite Hfin. simpl. repeat split; auto.
    f_equal. apply He; [congruence | now rewrite Egsf, Hs]. }
  all: right; split; [reflexivity|]; split; [exact Hrk|];
    split; [intros (? & ? & ?); congruence|].
  all: match goal with
       | |- context [finish (?sp, ?tb) ?w0] =>
           assert (F : exists out w',
                     finish (sp, tb) w0 = (Ok out, w') /\
                     shape (mem (self w')) = shape x /\
                     spikes out = sp /\ unchanged w0 w')
             by (apply finish_fits; try assumption;
                 try (now rewrite Egsf); try (now rewrite Hth3);
                 try (left; congruence); try (right; left; congruence);
                 try (right; right; congruence));
           destruct F as (out & w' & Hfin & Hm' & Hsp & _);
           exists out, w'; split; [assumption|]; split; congruence
       end.
Qed.

(** ** Errors of a forward call *)

Lemma quiet_spike_inhibited : forall w r w',
  inhibition (self w) = true -> spike w = (r, w') ->
  unchanged w w' /\ (forall fired, r = Ok fired -> snd fired = None).
Proof.
  intros w r w' Hinh H. rewrite (spike_inhibited w Hinh) in H.
  destruct (shape (mem (self w))) as [|n sh].
  - inversion H; subst. split; [apply unchanged_refl | discriminate].
  - apply bind_cases in H as [(e & H & ->) | (spk & w1 & H1 & H2)].
    + split; [eapply quiet_fire_inhibition; eauto | discriminate].
    + inversion H2; subst. split; [eapply quiet_fire_inhibition; eauto|].
      intros fired Hf. now inversion Hf.
Qed.

Lemma forward_never_returns_unbound : forall w x m r w',
  inhibition (self w) = true -> reset_delay (self w) = false ->
  reset_mechanism_ (self w) = subtract ->
  forward x m w = (r, w') -> exists e, r = Raise e.
Proof.
  intros w x m r w' Hinh Hrd Hrm H. rewrite forward_unfold in H.
  apply bind_cases in H as [(e & _ & ->) | ([] & w1 & H1 & H)]; [eauto|].
  apply bind_cases in H as [(e & _ & ->) | ([] & w2 & H2 & H)]; [eauto|].
  apply bind_cases in H as [(e & _ & ->) | (fired & w3 & H3 & H)]; [eauto|].
  pose proof (quiet_bind_mem _ _ _ _ _ H1) as [C1 _].
  pose proof (quiet_update_state _ _ _ _ H2) as [C2 _].
  config_eq C1. config_eq C2.
  destruct (quiet_spike_inhibited w2 _ _ ltac:(congruence) H3) as [[C3 _] Hn].
  config_eq C3. destruct fired as [spk tb].
  specialize (Hn _ eq_refl). simpl in Hn. subst tb.
  destruct (finish_unbound spk w3) as (e & Hfin & _); try congruence.
  rewrite Hfin in H. inversion H. eauto.
Qed.

(** C9: when the configuration error is raised (an explicit membrane passed
    to a neuron with [init_hidden = True]), the stored membrane has already
    been replaced by the passed tensor; nothing else has changed. *)
Theorem error_path_overwrites_mem : forall w x m,
  init_hidden (self w) = true ->
  forward x (Some m) w = (Raise TypeError, put_mem m w) /\
  mem (self (snd (forward x (Some m) w))) = m.
Proof.
  intros w x m H. rewrite (forward_refused w x m H). now split.
Qed.

Lemma error_path_overwrites_mem_witness :
  forward (scalar 1) (Some (scalar half)) hidden_neuron =
    (Raise TypeError, put_mem (scalar half) hidden_neuron) /\
  mem (self (snd (forward (scalar 1) (Some (scalar half)) hidden_neuron))) =
    scalar half.
Proof. apply error_path_overwrites_mem. reflexivity. Defined.

(** C8, as stated, fails: in the configuration [inhibition = True],
    [reset_delay = False], "subtract", a call that passes an explicit
    membrane to a neuron with [init_hidden = True] raises [TypeError], not
    the unbound-local error. *)
Lemma unbound_local_not_on_every_call :
  ~ (forall w x m,
       inhibition (self w) = true -> reset_delay (self w) = false ->
       reset_mechanism_ (self w) = subtract ->
       fst (forward x m w) = Raise UnboundLocalError).
Proof.
  intros H.
  specialize (H hidden_wta_immediate_neuron (batch1 1) (Some (batch1 0))
                eq_refl eq_refl eq_refl).
  rewrite forward_refused in H by reflexivity. discriminate.
Qed.

(** C8, amended: with [inhibition = True], [reset_delay = False] and reset
    mechanism "subtract", no forward call returns.  A call that passes an
    explicit membrane to a neuron with [init_hidden = True] raises
    [TypeError]; any other call whose beta, threshold and graded-spikes
    factor broadcast into an input shape with at least one dimension raises
    [UnboundLocalError]. *)
Theorem inhibited_immediate_subtract_raises : forall w x m,
  inhibition (self w) = true -> reset_delay (self w) = false ->
  reset_mechanism_ (self w) = subtract ->
  (exists e, fst (forward x m w) = Raise e) /\
  (init_hidden (self w) && is_some m = true ->
   fst (forward x m w) = Raise TypeError) /\
  (init_hidden (self w) && is_some m = false ->
   fits (shape (beta (self w))) (shape x) ->
   fits (shape (threshold_of w)) (shape x) ->
   fits (shape (graded_spikes_factor (self w))) (shape x) ->
   shape x <> [] ->
   fst (forward x m w) = Raise UnboundLocalError).
Proof.
  intros w x m Hinh Hrd Hrm. split; [|split].
  - destruct (forward x m w) as [r w'] eqn:E.
    destruct (forward_never_returns_unbound w x m r w' Hinh Hrd Hrm E)
      as (e & ->). now exists e.
  - intros Hmis. apply andb_true_iff in Hmis as [Hih Hm].
    destruct m; [|discriminate]. now rewrite forward_refused.
  - intros Hmis Hb Hth Hg Hrank.
    destruct (forward_fits_cases w x m Hb Hth Hg)
      as [(? & _) | [(_ & _ & ? & _) | [(_ & ? & _) |
          [(_ & _ & _ & _ & _ & E) | (_ & _ & Hbad & _)]]]];
      try congruence.
    elim Hbad. auto.
Qed.

Lemma inhibited_immediate_subtract_raises_witness :
  (exists e, fst (forward (batch1 1) None wta_immediate_neuron) = Raise e) /\
  fst (forward (batch1 1) None wta_immediate_neuron) = Raise UnboundLocalError.
Proof.
  destruct (inhibited_immediate_subtract_raises wta_immediate_neuron
              (batch1 1) None eq_refl eq_refl eq_refl) as (H1 & _ & H3).
  split; [exact H1|].
  apply H3; try reflexivity. discriminate.
Defined.

(** C6, as stated, fails: a neuron with [inhibition = True] called on an
    input without dimensions raises [IndexError] at [self.mem.size(0)],
    although no explicit membrane was passed. *)
Lemma other_errors_than_type_error :
  ~ (forall w x m,
       init_hidden (self w) && is_some m = false ->
       exists out, fst (forward x m w) = Ok out).
Proof.
  intros H.
  destruct (H wta_neuron (scalar 1) None eq_refl) as (out & Hout).
  vm_compute in Hout. discriminate.
Qed.

(** C6, amended: an explicit membrane passed to a neuron with
    [init_hidden = True] raises [TypeError], before anything is computed.
    When beta, threshold and graded-spikes factor broadcast into the input's
    shape, [TypeError] is raised in that case only; and, outside the
    configuration [inhibition = True], [reset_delay = False], "subtract", the
    call returns, whatever the shape of the stored or passed membrane,
    provided the input has a dimension if [inhibition = True] and
    [funkiness] is not negative otherwise. *)
Theorem forward_errors : forall w x m,
  (forall t, init_hidden (self w) = true -> m = Some t ->
     forward x m w = (Raise TypeError, put_mem t w)) /\
  (fits (shape (beta (self w))) (shape x) ->
   fits (shape (threshold_of w)) (shape x) ->
   fits (shape (graded_spikes_factor (self w))) (shape x) ->
   (fst (forward x m w) = Raise TypeError <->
    init_hidden (self w) && is_some m = true) /\
   (init_hidden (self w) && is_some m = false ->
    ~ (inhibition (self w) = true /\ reset_delay (self w) = false /\
       reset_mechanism_ (self w) = subtract) ->
    (inhibition (self w) = true -> shape x <> []) ->
    (inhibition (self w) = false -> Qcltb (funkiness (self w)) 0 = false) ->
    exists out w', forward x m w = (Ok out, w'))).
Proof.
  intros w x m. split.
  - intros t Hih ->. now apply forward_refused.
  - intros Hb Hth Hg.
    pose proof (forward_fits_cases w x m Hb Hth Hg) as C. split.
    + destruct C as [(Hm & E) | [(Hm & _ & _ & E) | [(Hm & _ & _ & E) |
        [(Hm & _ & _ & _ & _ & E) | (Hm & _ & _ & out & w' & E & _)]]]];
        rewrite ?E; split; intros; try congruence; try reflexivity;
        try (simpl in *; congruence).
    + intros Hmis Hbad Hrank Hf.
      destruct C as [(Hm & E) | [(Hm & Hi & Hx & E) | [(Hm & Hi & Hq & E) |
        [(Hm & Hi & _ & Hr & Hs & E) | (Hm & _ & _ & out & w' & E & _)]]]].
      * congruence.
      * elim (Hrank Hi Hx).
      * rewrite (Hf Hi) in Hq. discriminate.
      * elim Hbad. auto.
      * eauto.
Qed.

Lemma forward_errors_witness :
  forward (scalar 1) (Some (scalar half)) hidden_neuron =
    (Raise TypeError, put_mem (scalar half) hidden_neuron) /\
  (fst (forward (batch1 1) (Some (scalar half)) plain_neuron) =
     Raise TypeError <->
   init_hidden (self plain_neuron) && is_some (Some (scalar half)) = true) /\
  exists out w',
    forward (batch1 1) (Some (scalar half)) plain_neuron = (Ok out, w').
Proof.
  split.
  - apply (proj1 (forward_errors hidden_neuron (scalar 1)
                    (Some (scalar half))) (scalar half)); reflexivity.
  - destruct (proj2 (forward_errors plain_neuron (batch1 1)
                       (Some (scalar half))))
      as [H1 H2]; try reflexivity.
    split; [exact H1|].
    apply H2; try reflexivity; try discriminate.
    intros (H & _). discriminate.
Defined.




(** ** When the threshold changes *)

Lemma nonzero_false : forall x, nonzero x = false <-> x = 0.
Proof.
  intros x. unfold nonzero, Qc_eq_bool.
  destruct (Qc_eq_dec x 0); simpl; split; intros; congruence.
Qed.

Lemma any_false : forall t,
  any t = false <-> Forall (fun v => v = 0) (data t).
Proof.
  intros t. unfold any. induction (data t) as [|v l IH]; simpl.
  - split; [constructor | reflexivity].
  - rewrite orb_false_iff, IH, nonzero_false. split.
    + intros [? ?]. now constructor.
    + intros H. inversion H. now split.
Qed.

Lemma any_true : forall t,
  any t = true <-> Exists (fun v => v <> 0) (data t).
Proof.
  intros t. unfold any. rewrite existsb_exists, Exists_exists.
  split; intros (v & Hin & Hv); exists v; split; auto.
  - intros E. apply nonzero_false in E. congruence.
  - destruct (nonzero v) eqn:E; [reflexivity|].
    apply nonzero_false in E. contradiction.
Qed.

Lemma decay_plus_input_shape : forall b m x v,
  decay_plus_input b m x = Ok v -> fits (shape x) (shape v).
Proof.
  intros b m x v H. unfold decay_plus_input in H.
  destruct (tmul _ _) as [bm|]; simpl in H; [|discriminate].
  apply binop_shape in H. eapply fits_r; eauto.
Qed.

Lemma spikes_formula_shape : forall sq m th g spk,
  spikes_formula sq m th g = Ok spk ->
  fits (shape m) (shape spk) /\ fits (shape th) (shape spk) /\
  fits (shape g) (shape spk).
Proof.
  intros sq m th g spk H. unfold spikes_formula in H.
  destruct (tsub _ _) as [ms|] eqn:Hms; simpl in H; [|discriminate].
  apply binop_shape in Hms, H. rewrite shape_quant in Hms. simpl in H.
  pose proof (fits_l _ _ _ H) as F.
  repeat split.
  - eapply fits_trans; [eapply fits_l|]; eauto.
  - eapply fits_trans; [eapply fits_r|]; eauto.
  - eapply fits_r; eauto.
Qed.

(** What a successful state update leaves behind, shapes only. *)
Lemma update_state_shapes : forall x w w2,
  update_state x w = (Ok tt, w2) ->
  shape (mem (self w)) = shape x ->
  fits (shape x) (shape (mem (self w2))) /\
  broadcast_shapes (shape x) (shape (threshold_of w)) =
    Some (shape (reset (self w2))).
Proof.
  intros x w w2 H Hm. rewrite update_state_eq in H.
  destruct (reset_indicator _ _) as [R|] eqn:HR; [|discriminate].
  assert (HRs : broadcast_shapes (shape x) (shape (threshold_of w)) =
                Some (shape R)).
  { unfold reset_indicator in HR.
    destruct (tsub _ _) as [d|] eqn:Hd; simpl in HR; [|discriminate].
    inversion HR; subst R. simpl. rewrite <- Hm.
    apply binop_shape in Hd. exact Hd. }
  destruct (reset_mechanism_ (self w)) eqn:Hrm.
  - rewrite state_function_subtract in H by exact Hrm.
    destruct (subtract_formula _ _ _ _ _) as [v|] eqn:Hv; [|discriminate].
    inversion H; subst w2. simpl. rewrite shape_quant. split; [|exact HRs].
    unfold subtract_formula in Hv.
    destruct (decay_plus_input _ _ _) as [b|] eqn:Hb; simpl in Hv;
      [|discriminate].
    destruct (tmul _ _) as [rt|]; simpl in Hv; [|discriminate].
    apply binop_shape in Hv. apply decay_plus_input_shape in Hb.
    eapply fits_trans; [exact Hb | eapply fits_l; eauto].
  - rewrite state_function_zero in H by exact Hrm.
    destruct (zeroed_formula _ _) as [z|]; [|discriminate].
    destruct (decay_plus_input _ _ _) as [v|] eqn:Hv; [|discriminate].
    inversion H; subst w2. simpl. rewrite shape_quant. split; [|exact HRs].
    eapply decay_plus_input_shape; eauto.
  - rewrite state_function_none in H by exact Hrm.
    destruct (decay_plus_input _ _ _) as [v|] eqn:Hv; [|discriminate].
    inversion H; subst w2. simpl. rewrite shape_quant. split; [|exact HRs].
    eapply decay_plus_input_shape; eauto.
Qed.

(** The end of [forward] succeeds as soon as what it reads fits the shape of
    the spikes and the local variable it may read was assigned. *)
Lemma finish_ok : forall spk tb w,
  fits (shape (mem (self w))) (shape spk) ->
  fits (shape (reset (self w))) (shape spk) ->
  fits (shape (graded_spikes_factor (self w))) (shape spk) ->
  fits (shape (threshold_of w)) (shape spk) ->
  (tb = Some (threshold (self w)) \/
   reset_delay (self w) = true \/ reset_mechanism_ (self w) <> subtract) ->
  exists out w', finish (spk, tb) w = (Ok out, w') /\ spikes out = spk /\
    unchanged w w' /\
    (shape (mem (self w')) = shape spk \/ mem (self w') = mem (self w)).
Proof.
  intros spk tb w Hm Hr Hg Hth Htb.
  assert (Hcomp : exists m', immediate_reset spk (Some (threshold (self w))) w
                    = (Ok tt, put_mem m' w) /\
                    (shape m' = shape spk \/ m' = mem (self w))).
  { rewrite immediate_reset_bound.
    destruct (compensated_fits (reset_mechanism_ (self w)) spk
                (graded_spikes_factor (self w)) (reset (self w))
                (mem (self w)) (heap w (threshold (self w))) (shape spk))
      as (m' & -> & Hm'); auto.
    exists m'. now split. }
  destruct Hcomp as (m' & Him & Hm').
  assert (E : exists out w', finish (spk, tb) w = (Ok out, w') /\
                spikes out = spk /\
                (shape (mem (self w')) = shape spk \/
                 mem (self w') = mem (self w))).
  { unfold finish. unfold bind at 1, attr at 1.
    destruct (reset_delay (self w)) eqn:Hrd; simpl.
    - unfold bind at 1, ret at 1. rewrite returned_eq.
      do 2 eexists. split; [reflexivity|]. split; [|now right].
      destruct (output (self w)), (init_hidden (self w)); reflexivity.
    - assert (Him' : immediate_reset spk tb w = (Ok tt, put_mem m' w)).
      { destruct Htb as [-> | [? | Hne]]; [assumption | discriminate |].
        now rewrite (immediate_reset_any_local spk tb (threshold (self w)) w
                       Hne). }
      unfold bind at 1. rewrite Him'. rewrite returned_eq.
      do 2 eexists. split; [reflexivity|]. split; [|exact Hm'].
      simpl. destruct (output (self w)), (init_hidden (self w)); reflexivity. }
  destruct E as (out & w' & E & Hsp & Hsh).
  exists out, w'. repeat split; try assumption; eapply quiet_finish; eauto.
Qed.

Lemma finish_spikes : forall spk tb w out w',
  finish (spk, tb) w = (Ok out, w') -> spikes out = spk.
Proof.
  intros spk tb w out w' H. unfold finish in H.
  apply bind_inv_ok in H as (rd & w1 & _ & H).
  apply bind_inv_ok in H as ([] & w2 & _ & H).
  rewrite returned_eq in H. inversion H; subst. simpl.
  destruct (output (self w')), (init_hidden (self w')); reflexivity.
Qed.

(** [fire] either leaves the store alone, or it produced a nonzero spike and
    replaced the threshold by a tensor of the same shape. *)
Lemma fire_cases : forall m w r w',
  fire m w = (r, w') ->
  (unchanged w w' /\ forall spk, r = Ok spk -> any spk = false) \/
  (exists spk th', r = Ok spk /\ any spk = true /\ w' = perturbed th' w /\
     shape th' = shape (threshold_of w) /\
     spikes_formula (state_quant (self w)) m (threshold_of w)
       (graded_spikes_factor (self w)) = Ok spk).
Proof.
  intros m w r w' H. rewrite fire_eq in H.
  destruct (spikes_formula _ _ _ _) as [spk|e] eqn:Hspk.
  - destruct (any spk) eqn:Hany.
    + destruct (normal _ _ _ _) as [noise|e] eqn:Hn.
      * assert (Hns : shape noise = shape (threshold_of w)).
        { unfold normal in Hn. destruct (Qcltb _ _); [discriminate|].
          now inversion Hn. }
        unfold tadd in H.
        rewrite (binop_ok_shape _ _ _ (shape (threshold_of w))) in H
          by (rewrite Hns; apply broadcast_shapes_refl).
        right. inversion H; subst. do 2 eexists.
        repeat split; auto.
      * left. inversion H; subst. split; [apply unchanged_refl | discriminate].
    + left. inversion H; subst. split; [apply unchanged_refl|].
      intros s Hs. inversion Hs; subst. congruence.
  - left. inversion H; subst. split; [apply unchanged_refl | discriminate].
Qed.

Lemma bind_mem_inv : forall x m w w1,
  bind_mem x m w = (Ok tt, w1) -> w1 = put_mem (entry_mem w x m) w.
Proof.
  intros x m w w1 H.
  destruct (init_hidden (self w) && is_some m) eqn:Hmis.
  - apply andb_true_iff in Hmis as [Hih Hm]. destruct m; [|discriminate].
    rewrite bind_mem_refused in H by assumption. discriminate.
  - rewrite bind_mem_ok in H by assumption. now inversion H.
Qed.

(** C3: a forward call whose returned spike tensor is entirely zero leaves
    the threshold tensor as it was, and a forward call after which the
    threshold tensor differs has returned spikes with a nonzero element.
    (The threshold attribute refers to the same tensor object throughout.) *)
Theorem threshold_changes_only_on_spike : forall w x m,
  threshold (self (snd (forward x m w))) = threshold (self w) /\
  (forall out, fst (forward x m w) = Ok out ->
     Forall (fun v => v = 0) (data (spikes out)) ->
     threshold_of (snd (forward x m w)) = threshold_of w) /\
  (threshold_of (snd (forward x m w)) <> threshold_of w ->
   exists out, fst (forward x m w) = Ok out /\
     Exists (fun v => v <> 0) (data (spikes out))).
Proof.
  intros w x m.
  assert (Done : forall r w', forward x m w = (r, w') -> unchanged w w' ->
    threshold (self (snd (forward x m w))) = threshold (self w) /\
    (forall out, fst (forward x m w) = Ok out ->
       Forall (fun v => v = 0) (data (spikes out)) ->
       threshold_of (snd (forward x m w)) = threshold_of w) /\
    (threshold_of (snd (forward x m w)) <> threshold_of w ->
     exists out, fst (forward x m w) = Ok out /\
       Exists (fun v => v <> 0) (data (spikes out)))).
  { intros r w' E U. rewrite E. simpl.
    pose proof (unchanged_threshold_of _ _ U) as Q2.
    destruct U as [C _]. config_eq C.
    split; [assumption|]. split; [intros; exact Q2 | intros N; contradiction]. }
  destruct (forward x m w) as [r w'] eqn:E. rewrite <- E in Done |- *.
  pose proof E as H. rewrite forward_unfold in H.
  apply bind_cases in H as [(e & H1 & ->) | ([] & w1 & H1 & H)].
  { eapply Done; [exact E|]. eapply quiet_bind_mem; eauto. }
  pose proof (quiet_bind_mem _ _ _ _ _ H1) as U1.
  apply bind_cases in H as [(e & H2 & ->) | ([] & w2 & H2 & H)].
  { eapply Done; [exact E|]. eapply unchanged_trans; eauto.
    eapply quiet_update_state; eauto. }
  pose proof (quiet_update_state _ _ _ _ H2) as U2.
  pose proof (unchanged_trans _ _ _ U1 U2) as U12.
  destruct (inhibition (self w2)) eqn:Hinh.
  { (* winner-take-all: the threshold is never touched *)
    apply bind_cases in H as [(e & H3 & ->) | (fired & w3 & H3 & H)].
    - eapply Done; [exact E|]. eapply unchanged_trans; eauto.
      eapply quiet_spike_inhibited; eauto.
    - eapply Done; [exact E|].
      eapply unchanged_trans; [|eapply quiet_finish; eauto].
      eapply unchanged_trans; eauto. eapply quiet_spike_inhibited; eauto. }
  apply bind_cases in H as [(e & H3 & ->) | (fired & w3 & H3 & H)];
    rewrite (spike_plain w2 Hinh) in H3;
    apply bind_cases in H3 as [(e' & H3 & He) | (spk & w3' & H3 & H3')];
    try discriminate.
  { (* [fire] raised *)
    eapply Done; [exact E|]. eapply unchanged_trans; eauto.
    destruct (fire_cases _ _ _ _ H3) as [[U _] | (? & ? & ? & _)];
      [exact U | discriminate]. }
  inversion H3'; subst fired w3'. clear H3'.
  destruct (fire_cases _ _ _ _ H3)
    as [[U _] | (spk' & th' & Hr & Hany & Hw3 & Hth' & Hspk)].
  { (* no spike *)
    eapply Done; [exact E|].
    eapply unchanged_trans; [|eapply quiet_finish; eauto].
    eapply unchanged_trans; eauto. }
  (* a spike: the threshold was replaced, and the call goes through *)
  inversion Hr; subst spk'. clear Hr Done.
  apply spikes_formula_shape in Hspk as (Fm & Fth & Fg).
  apply bind_mem_inv in H1 as Hw1.
  assert (Hm1 : shape (mem (self w1)) = shape x)
    by (subst w1; apply shape_entry_mem).
  destruct (update_state_shapes _ _ _ H2 Hm1) as (Fx & HR).
  rewrite <- (unchanged_threshold_of _ _ U2) in HR.
  destruct (fits_join (shape x) (shape (threshold_of w2)) (shape spk))
    as (j & Hj & Fj); [eapply fits_trans; eauto | assumption |].
  rewrite HR in Hj. inversion Hj; subst j. clear Hj.
  destruct (finish_ok spk (Some (threshold (self w2))) w3)
    as (out & w'' & Hfin & Hsp & U3 & _);
    try (subst w3; simpl; assumption).
  { subst w3. rewrite threshold_of_perturbed, Hth'. exact Fth. }
  { left. now subst w3. }
  rewrite Hfin in H. inversion H; subst r w''. clear H.
  rewrite E. simpl.
  split; [|split].
  - destruct U3 as [C3 _]. destruct U12 as [C12 _].
    config_eq C3. config_eq C12. subst w3. simpl in *. congruence.
  - intros out0 Ho Hz. inversion Ho; subst out0.
    rewrite Hsp in Hz. apply any_false in Hz. congruence.
  - intros _. exists out. split; [reflexivity|].
    rewrite Hsp. now apply any_true.
Qed.

Lemma threshold_changes_only_on_spike_witness :
  threshold_of (snd (forward (scalar half) None funky_neuron)) =
    threshold_of funky_neuron /\
  exists out,
    fst (forward (scalar (qc 2 1)) None funky_neuron) = Ok out /\
    Exists (fun v => v <> 0) (data (spikes out)).
Proof.
  split.
  - destruct (threshold_changes_only_on_spike funky_neuron (scalar half) None)
      as (_ & H & _).
    eapply H; [vm_compute; reflexivity|].
    constructor; [apply Qc_is_canon; reflexivity | constructor].
  - destruct (threshold_changes_only_on_spike funky_neuron (scalar (qc 2 1))
                None) as (_ & _ & H).
    apply H. intros Heq. apply (f_equal show) in Heq.
    vm_compute in Heq. discriminate.
Defined.

(** ** Tensor expressions, element by element *)

Lemma binop_fits_l : forall f a b c s,
  binop f a b = Ok c -> fits (shape c) s -> fits (shape a) s.
Proof.
  intros f a b c s H F. apply binop_shape in H.
  eapply fits_trans; [eapply fits_l|]; eauto.
Qed.

Lemma binop_fits_r : forall f a b c s,
  binop f a b = Ok c -> fits (shape c) s -> fits (shape b) s.
Proof.
  intros f a b c s H F. apply binop_shape in H.
  eapply fits_trans; [eapply fits_r|]; eauto.
Qed.

Lemma elt_self : forall t k, wf t -> elt (shape t) t k = nth k (data t) 0.
Proof. intros t k H. unfold elt. now rewrite view_self. Qed.

Lemma elt_tmap : forall f s t k,
  wf t -> fits (shape t) s -> (k < numel s)%nat ->
  elt s (tmap f t) k = f (elt s t k).
Proof.
  intros f s t k Hw Hf Hk. unfold elt. rewrite view_tmap.
  rewrite (nth_indep _ 0 (f 0)) by (now rewrite length_map, length_view).
  apply map_nth.
Qed.

Lemma elt_binop : forall f a b c s k,
  binop f a b = Ok c -> wf a -> wf b -> fits (shape c) s ->
  (k < numel s)%nat ->
  elt s c k = f (elt s a k) (elt s b k).
Proof.
  intros f a b c s k H Ha Hb Hf Hk. unfold elt.
  rewrite (view_binop f a b c s H Ha Hb Hf).
  apply nth_map2; rewrite length_view; auto.
  - eapply binop_fits_l; eauto.
  - eapply binop_fits_r; eauto.
Qed.

Lemma heaviside_binary : forall x, heaviside x = 0 \/ heaviside x = 1.
Proof. intros x. unfold heaviside. destruct (Qcltb 0 x); auto. Qed.

Lemma wf_reset_indicator : forall m th R,
  reset_indicator m th = Ok R -> wf m -> wf th -> wf R.
Proof.
  intros m th R H Hm Hth. unfold reset_indicator in H.
  destruct (tsub m th) as [d|] eqn:Hd; simpl in H; [|discriminate].
  inversion H; subst R. apply wf_tmap. eapply wf_binop; eauto.
Qed.

(** The reset indicator is 1 where the membrane exceeds the threshold, and 0
    elsewhere. *)
Lemma reset_indicator_elt : forall m th R s k,
  reset_indicator m th = Ok R -> wf m -> wf th -> fits (shape R) s ->
  (k < numel s)%nat ->
  elt s R k = heaviside (elt s m k - elt s th k).
Proof.
  intros m th R s k H Hm Hth Hf Hk. unfold reset_indicator in H.
  destruct (tsub m th) as [d|] eqn:Hd; simpl in H; [|discriminate].
  inversion H; subst R. simpl in Hf. unfold spike_grad.
  rewrite elt_tmap; auto; [|eapply wf_binop; eauto].
  f_equal. eapply elt_binop; eauto.
Qed.

Lemma wf_decay_plus_input : forall b m x v,
  decay_plus_input b m x = Ok v -> wf b -> wf m -> wf x -> wf v.
Proof.
  intros b m x v H Hb Hm Hx. unfold decay_plus_input in H.
  destruct (tmul _ _) as [bm|] eqn:Hbm; simpl in H; [|discriminate].
  eapply wf_binop; eauto. eapply wf_binop; eauto. now apply wf_tmap.
Qed.

Lemma decay_plus_input_elt : forall b m x v s k,
  decay_plus_input b m x = Ok v -> wf b -> wf m -> wf x ->
  fits (shape v) s -> (k < numel s)%nat ->
  elt s v k = clamp 0 1 (elt s b k) * elt s m k + elt s x k /\
  fits (shape b) s /\ fits (shape m) s /\ fits (shape x) s.
Proof.
  intros b m x v s k H Hb Hm Hx Hf Hk. unfold decay_plus_input in H.
  destruct (tmul _ _) as [bm|] eqn:Hbm; simpl in H; [|discriminate].
  assert (Wc : wf (tmap (clamp 0 1) b)) by now apply wf_tmap.
  assert (Wbm : wf bm) by (eapply wf_binop; eauto).
  pose proof (binop_fits_l _ _ _ _ _ H Hf) as Fbm.
  pose proof (binop_fits_r _ _ _ _ _ H Hf) as Fx.
  pose proof (binop_fits_l _ _ _ _ _ Hbm Fbm) as Fb.
  pose proof (binop_fits_r _ _ _ _ _ Hbm Fbm) as Fm.
  simpl in Fb.
  rewrite (elt_binop _ _ _ _ _ _ H Wbm Hx Hf Hk).
  rewrite (elt_binop _ _ _ _ _ _ Hbm Wc Hm Fbm Hk).
  rewrite elt_tmap by assumption. auto.
Qed.

(** beta * mem + I - R * theta, element by element *)
Lemma subtract_formula_elt : forall b m x r th v k,
  subtract_formula b m x r th = Ok v ->
  wf b -> wf m -> wf x -> wf r -> wf th -> (k < numel (shape v))%nat ->
  wf v /\
  nth k (data v) 0 =
    clamp 0 1 (elt (shape v) b k) * elt (shape v) m k + elt (shape v) x k
    - elt (shape v) r k * elt (shape v) th k /\
  fits (shape r) (shape v) /\ fits (shape m) (shape v) /\
  fits (shape th) (shape v).
Proof.
  intros b m x r th v k H Hb Hm Hx Hr Hth Hk. unfold subtract_formula in H.
  destruct (decay_plus_input _ _ _) as [base|] eqn:Hbase; simpl in H;
    [|discriminate].
  destruct (tmul r th) as [rt|] eqn:Hrt; simpl in H; [|discriminate].
  assert (Wbase : wf base) by (eapply wf_decay_plus_input; eauto).
  assert (Wrt : wf rt) by (eapply wf_binop; eauto).
  assert (Wv : wf v) by (eapply wf_binop; eauto).
  pose proof (fits_refl (shape v)) as Fv.
  pose proof (binop_fits_l _ _ _ _ _ H Fv) as Fbase.
  pose proof (binop_fits_r _ _ _ _ _ H Fv) as Frt.
  destruct (decay_plus_input_elt _ _ _ _ _ k Hbase Hb Hm Hx Fbase Hk)
    as (Ebase & _ & Fm & _).
  split; [exact Wv|]. split.
  - rewrite <- (elt_self v k Wv).
    rewrite (elt_binop _ _ _ _ _ _ H Wbase Wrt Fv Hk).
    rewrite (elt_binop _ _ _ _ _ _ Hrt Hr Hth Frt Hk).
    now rewrite Ebase.
  - split; [eapply binop_fits_l; eauto|].
    split; [exact Fm | eapply binop_fits_r; eauto].
Qed.

(** ** The state update inside a forward call *)

Lemma fire_inhibition_world : forall b m w r w',
  fire_inhibition b m w = (r, w') -> w' = w.
Proof.
  intros b m w r w' H.
  unfold fire_inhibition, bind, attr, load, lift in H. simpl in H.
  destruct (tsub _ _); simpl in H; now inversion H.
Qed.

Lemma fire_self : forall m w r w', fire m w = (r, w') -> self w' = self w.
Proof.
  intros m w r w' H. rewrite fire_eq in H.
  destruct (spikes_formula _ _ _ _); [|now inversion H].
  destruct (any _); [|now inversion H].
  destruct (normal _ _ _ _); [|now inversion H].
  destruct (tadd _ _); now inversion H.
Qed.

Lemma spike_self : forall w r w', spike w = (r, w') -> self w' = self w.
Proof.
  intros w r w' H. destruct (inhibition (self w)) eqn:Hinh.
  - rewrite (spike_inhibited w Hinh) in H.
    destruct (shape (mem (self w))); [now inversion H|].
    apply bind_cases in H as [(e & H & _) | (spk & w1 & H1 & H2)].
    + apply fire_inhibition_world in H. now subst.
    + apply fire_inhibition_world in H1. inversion H2. now subst.
  - rewrite (spike_plain w Hinh) in H.
    apply bind_cases in H as [(e & H & _) | (spk & w1 & H1 & H2)].
    + eapply fire_self; eauto.
    + inversion H2; subst. eapply fire_self; eauto.
Qed.

(** The steps of a call that returns. *)
Lemma forward_inv : forall w x m,
  returns (forward x m w) ->
  exists w2 fired w3 out w',
    update_state x (put_mem (entry_mem w x m) w) = (Ok tt, w2) /\
    spike w2 = (Ok fired, w3) /\ self w3 = self w2 /\
    finish fired w3 = (Ok out, w') /\ forward x m w = (Ok out, w').
Proof.
  intros w x m (out & Hout).
  destruct (forward x m w) as [r w'] eqn:E. simpl in Hout. subst r.
  pose proof E as H. rewrite forward_unfold in H.
  apply bind_inv_ok in H as ([] & w1 & H1 & H).
  apply bind_inv_ok in H as ([] & w2 & H2 & H).
  apply bind_inv_ok in H as (fired & w3 & H3 & H).
  apply bind_mem_inv in H1. subst w1.
  exists w2, fired, w3, out, w'. repeat split; auto.
  eapply spike_self; eauto.
Qed.

Lemma finish_delayed : forall fired w out w',
  reset_delay (self w) = true ->
  finish fired w = (Ok out, w') -> w' = w.
Proof.
  intros fired w out w' Hrd H. unfold finish in H.
  unfold bind at 1, attr at 1 in H. rewrite Hrd in H. simpl in H.
  unfold bind at 1, ret at 1 in H. rewrite returned_eq in H.
  now inversion H.
Qed.

(** Attributes of the world in which the update starts. *)
Ltac entered w x m :=
  change (threshold_of (put_mem (entry_mem w x m) w))
    with (threshold_of w) in *;
  change (mem (self (put_mem (entry_mem w x m) w)))
    with (entry_mem w x m) in *;
  change (beta (self (put_mem (entry_mem w x m) w)))
    with (beta (self w)) in *;
  change (state_quant (self (put_mem (entry_mem w x m) w)))
    with (state_quant (self w)) in *.

(** What the update of a returning call computed, by reset mechanism. *)
Lemma update_state_subtract_inv : forall x w w2,
  reset_mechanism_ (self w) = subtract ->
  update_state x w = (Ok tt, w2) ->
  exists R v,
    reset_indicator (mem (self w)) (threshold_of w) = Ok R /\
    subtract_formula (beta (self w)) (mem (self w)) x R (threshold_of w)
      = Ok v /\
    w2 = put_mem (quant (state_quant (self w)) v) (put_reset R w).
Proof.
  intros x w w2 Hrm H. rewrite update_state_eq in H.
  destruct (reset_indicator _ _) as [R|]; [|discriminate].
  rewrite state_function_subtract in H by exact Hrm. simpl in H.
  destruct (subtract_formula _ _ _ _ _) as [v|] eqn:Hv; [|discriminate].
  exists R, v. split; [reflexivity|]. split; [exact Hv|]. now inversion H.
Qed.

Lemma update_state_zero_inv : forall x w w2,
  reset_mechanism_ (self w) = zero ->
  update_state x w = (Ok tt, w2) ->
  exists R z v,
    reset_indicator (mem (self w)) (threshold_of w) = Ok R /\
    zeroed_formula R (mem (self w)) = Ok z /\
    decay_plus_input (beta (self w)) z x = Ok v /\
    w2 = put_mem (quant (state_quant (self w)) v) (put_reset R w).
Proof.
  intros x w w2 Hrm H. rewrite update_state_eq in H.
  destruct (reset_indicator _ _) as [R|]; [|discriminate].
  rewrite state_function_zero in H by exact Hrm. simpl in H.
  destruct (zeroed_formula _ _) as [z|] eqn:Hz; [|discriminate].
  destruct (decay_plus_input _ _ _) as [v|] eqn:Hv; [|discriminate].
  exists R, z, v. split; [reflexivity|]. split; [exact Hz|].
  split; [exact Hv|]. now inversion H.
Qed.

(** C4, as stated, fails: with a state quantizer configured, the membrane a
    forward call leaves is the quantized value of beta * mem + I - R * theta
    (here: 0 instead of 3/5). *)
Lemma quantized_membrane_is_not_the_formula :
  ~ (forall w x m R v,
       reset_mechanism_ (self w) = subtract ->
       reset_delay (self w) = true ->
       returns (forward x m w) ->
       reset_indicator (entry_mem w x m) (threshold_of w) = Ok R ->
       subtract_formula (beta (self w)) (entry_mem w x m) x R
         (threshold_of w) = Ok v ->
       mem (self (snd (forward x m w))) = v).
Proof.
  intros H.
  pose proof (H quantized_neuron (scalar (qc 3 5)) None) as H'.
  eassert (E1 : reset_indicator
                  (entry_mem quantized_neuron (scalar (qc 3 5)) None)
                  (threshold_of quantized_neuron) = Ok _)
    by (vm_compute; reflexivity).
  match type of E1 with
  | _ = Ok ?R =>
      eassert (E2 : subtract_formula (beta (self quantized_neuron))
                      (entry_mem quantized_neuron (scalar (qc 3 5)) None)
                      (scalar (qc 3 5)) R (threshold_of quantized_neuron)
                    = Ok _)
        by (vm_compute; reflexivity)
  end.
  assert (P : returns (forward (scalar (qc 3 5)) None quantized_neuron))
    by (eexists; vm_compute; reflexivity).
  specialize (H' _ _ eq_refl eq_refl P E1 E2).
  apply (f_equal show) in H'. vm_compute in H'. discriminate.
Qed.

(** C4, amended: with reset mechanism "subtract" and [reset_delay = True],
    every forward call that returns leaves the membrane Q(beta * mem + I -
    R * theta), where Q is the state quantizer, or nothing when none is
    configured (the default); beta is clamped to [0,1], mem is the membrane
    the call started from, R its reset indicator against the threshold
    theta.  Element by element R is 0 or 1, 1 exactly where mem exceeds
    theta, and the value under Q is beta * mem + I - theta where R = 1 and
    beta * mem + I where R = 0. *)
Theorem subtract_update : forall w x m,
  reset_mechanism_ (self w) = subtract ->
  reset_delay (self w) = true ->
  returns (forward x m w) ->
  exists R v,
    reset_indicator (entry_mem w x m) (threshold_of w) = Ok R /\
    subtract_formula (beta (self w)) (entry_mem w x m) x R (threshold_of w)
      = Ok v /\
    mem (self (snd (forward x m w))) = quant (state_quant (self w)) v /\
    (state_quant (self w) = None -> mem (self (snd (forward x m w))) = v) /\
    (wf (beta (self w)) -> wf (threshold_of w) -> wf x ->
     wf (entry_mem w x m) ->
     forall k, (k < numel (shape v))%nat ->
       let b := clamp 0 1 (elt (shape v) (beta (self w)) k) in
       let u := elt (shape v) (entry_mem w x m) k in
       let i := elt (shape v) x k in
       let r := elt (shape v) R k in
       let th := elt (shape v) (threshold_of w) k in
       r = heaviside (u - th) /\ (r = 0 \/ r = 1) /\
       nth k (data v) 0 = b * u + i - r * th /\
       (r = 1 -> nth k (data v) 0 = b * u + i - th) /\
       (r = 0 -> nth k (data v) 0 = b * u + i)).
Proof.
  intros w x m Hrm Hrd Hret.
  destruct (forward_inv w x m Hret) as (w2 & fired & w3 & out & w' &
    Hup & Hsp & Hself & Hfin & E).
  apply update_state_subtract_inv in Hup as (R & v & HR & Hv & Hw2);
    [|exact Hrm].
  entered w x m.
  exists R, v. split; [exact HR|]. split; [exact Hv|].
  assert (Hmem : mem (self (snd (forward x m w))) =
                 quant (state_quant (self w)) v).
  { rewrite E. simpl.
    rewrite (finish_delayed _ _ _ _ ltac:(rewrite Hself, Hw2; exact Hrd) Hfin).
    rewrite Hself, Hw2. reflexivity. }
  split; [exact Hmem|]. split.
  { intros Hq. rewrite Hmem, Hq. reflexivity. }
  intros Wb Wth Wx Wm k Hk b u i r th.
  assert (WR : wf R) by (eapply wf_reset_indicator; eauto).
  destruct (subtract_formula_elt _ _ _ _ _ _ k Hv Wb Wm Wx WR Wth Hk)
    as (Wv & Ev & FR & Fm & Fth).
  assert (Er : r = heaviside (u - th))
    by (eapply reset_indicator_elt; eauto).
  split; [exact Er|]. split; [rewrite Er; apply heaviside_binary|].
  split; [exact Ev|]. fold b u i r th in Ev.
  split; intros Hr; rewrite Ev, Hr; ring.
Qed.

Lemma subtract_update_witness :
  exists R v,
    reset_indicator (entry_mem plain_neuron (scalar (qc 3 5)) None)
      (threshold_of plain_neuron) = Ok R /\
    subtract_formula (beta (self plain_neuron))
      (entry_mem plain_neuron (scalar (qc 3 5)) None) (scalar (qc 3 5)) R
      (threshold_of plain_neuron) = Ok v /\
    mem (self (snd (forward (scalar (qc 3 5)) None plain_neuron))) = v.
Proof.
  destruct (subtract_update plain_neuron (scalar (qc 3 5)) None eq_refl
              eq_refl) as (R & v & H1 & H2 & _ & H3 & _).
  - eexists. vm_compute. reflexivity.
  - exists R, v. split; [exact H1|]. split; [exact H2|].
    apply H3. reflexivity.
Defined.

(** ** Reset to zero *)

Lemma heaviside_crossed : forall u th : Qc,
  (th < u)%Qc -> heaviside (u - th) = 1.
Proof.
  intros u th H. unfold heaviside, Qcltb.
  assert (H0 : (0 < u - th)%Qc) by (apply Qclt_minus_iff in H; exact H).
  now rewrite (proj1 (Qclt_alt 0 (u - th)) H0).
Qed.

Lemma heaviside_not_crossed : forall u th : Qc,
  (u <= th)%Qc -> heaviside (u - th) = 0.
Proof.
  intros u th H. unfold heaviside, Qcltb.
  destruct (0 ?= u - th) eqn:E; try reflexivity.
  apply (proj2 (Qclt_alt 0 (u - th))) in E.
  apply (proj2 (Qclt_minus_iff th u)) in E.
  apply Qcle_not_lt in H. contradiction.
Qed.


(** (1 - R) * mem, element by element *)
Lemma zeroed_formula_elt : forall r m z s k,
  zeroed_formula r m = Ok z -> wf r -> wf m -> fits (shape z) s ->
  (k < numel s)%nat ->
  wf z /\ elt s z k = (1 - elt s r k) * elt s m k /\
  fits (shape r) s /\ fits (shape m) s.
Proof.
  intros r m z s k H Hr Hm Hf Hk. unfold zeroed_formula in H.
  assert (W : wf (tmap (fun v => 1 - v) r)) by now apply wf_tmap.
  pose proof (binop_fits_l _ _ _ _ _ H Hf) as Fr. simpl in Fr.
  pose proof (binop_fits_r _ _ _ _ _ H Hf) as Fm.
  split; [eapply wf_binop; eauto|].
  split; [|now split].
  rewrite (elt_binop _ _ _ _ _ _ H W Hm Hf Hk).
  now rewrite elt_tmap.
Qed.




(** ** Where the code departs from its documentation *)

(** The reset compensation reads [threshold_before_spike] after [fire] has
    run: the local variable refers to the threshold tensor object, which
    [fire] updates in place, so what is subtracted is the threshold as it is
    after the call. *)
Lemma compensation_reads_current_threshold : forall w x m,
  inhibition (self w) = false -> reset_delay (self w) = false ->
  returns (forward x m w) ->
  exists w2 spk,
    update_state x (put_mem (entry_mem w x m) w) = (Ok tt, w2) /\
    spikes_formula (state_quant (self w)) (mem (self w2)) (threshold_of w)
      (graded_spikes_factor (self w)) = Ok spk /\
    compensated (reset_mechanism_ (self w)) spk
      (graded_spikes_factor (self w)) (reset (self w2)) (mem (self w2))
      (threshold_of (snd (forward x m w)))
    = Ok (mem (self (snd (forward x m w)))).
Proof.
  intros w x m Hinh Hrd Hret.
  destruct (forward_inv w x m Hret) as (w2 & fired & w3 & out & w' &
    Hup & Hsp & Hself & Hfin & E).
  pose proof (quiet_update_state _ _ _ _ Hup) as U2.
  pose proof (unchanged_threshold_of _ _ U2) as Hth2.
  rewrite threshold_of_put_mem in Hth2.
  destruct U2 as [C2 _]. change (config (self w2) = config (self w)) in C2.
  config_eq C2.
  rewrite (spike_plain w2 ltac:(congruence)) in Hsp.
  apply bind_inv_ok in Hsp as (spk & w3' & Hfire & Hr).
  inversion Hr; subst fired w3'. clear Hr.
  exists w2, spk. split; [exact Hup|].
  assert (Hspk : spikes_formula (state_quant (self w)) (mem (self w2))
                   (threshold_of w) (graded_spikes_factor (self w)) = Ok spk).
  { rewrite fire_eq in Hfire. rewrite Esq, Egsf, Hth2 in Hfire.
    destruct (spikes_formula _ _ _ _) as [s|]; [|discriminate].
    destruct (any s); [|now inversion Hfire].
    destruct (normal _ _ _ _); [|discriminate].
    destruct (tadd _ _); now inversion Hfire. }
  split; [exact Hspk|].
  rewrite E. simpl.
  pose proof (quiet_finish _ _ _ _ Hfin) as U3.
  rewrite (unchanged_threshold_of _ _ U3).
  unfold finish in Hfin. unfold bind at 1, attr at 1 in Hfin.
  rewrite Hself, Erd, Hrd in Hfin. cbn [negb fst snd] in Hfin.
  apply bind_inv_ok in Hfin as ([] & w4 & Him & Hret').
  rewrite returned_eq in Hret'. inversion Hret'; subst w'. clear Hret'.
  rewrite immediate_reset_bound in Him.
  replace (heap w3 (threshold (self w2))) with (threshold_of w3) in Him
    by (unfold threshold_of; now rewrite Hself).
  rewrite Hself, Erm, Egsf in Him.
  destruct (compensated _ _ _ _ _ _) as [m'|]; [|discriminate].
  inversion Him. reflexivity.
Qed.

(** C10, at a failing input: [Funky(beta=0.5, funkiness=1.0,
    reset_delay=False)], every random draw being 1, called on the input 2
    with an empty membrane.  The membrane becomes 0.5 * 0 + 2 = 2, a spike
    is fired against the threshold 1, [fire] moves the threshold to 2, and
    the compensation subtracts the moved threshold: the call returns the
    membrane 0, where beta * mem + I - S * theta_pre is 2 - 1 * 1 = 1. *)
Theorem immediate_reset_subtracts_perturbed_threshold :
  show (threshold_of funky_immediate_neuron) = ([], [1%Q]) /\
  exists spk m',
    fst (forward (scalar (qc 2 1)) None funky_immediate_neuron)
      = Ok (SpkMem spk m') /\
    show spk = ([], [1%Q]) /\
    show m' = ([], [0%Q]) /\
    show (mem (self (snd (forward (scalar (qc 2 1)) None
                            funky_immediate_neuron)))) = ([], [0%Q]) /\
    show (threshold_of (snd (forward (scalar (qc 2 1)) None
                               funky_immediate_neuron))) = ([], [2%Q]).
Proof.
  split; [reflexivity|].
  do 2 eexists. split; [vm_compute; reflexivity|].
  repeat split; vm_compute; reflexivity.
Qed.

(** With [inhibition = True] a forward call never touches the threshold nor
    the random generator, whatever the spikes: [forward] calls the base
    class's [fire_inhibition], not the overridden [fire]. *)
Lemma inhibited_forward_unchanged : forall w x m,
  inhibition (self w) = true -> unchanged w (snd (forward x m w)).
Proof.
  intros w x m Hinh.
  destruct (forward x m w) as [r w'] eqn:E. simpl.
  rewrite forward_unfold in E.
  apply bind_cases in E as [(e & H1 & _) | ([] & w1 & H1 & E)];
    [eapply quiet_bind_mem; eauto|].
  pose proof (quiet_bind_mem _ _ _ _ _ H1) as U1.
  apply bind_cases in E as [(e & H2 & _) | ([] & w2 & H2 & E)];
    [eapply unchanged_trans; eauto; eapply quiet_update_state; eauto|].
  pose proof (quiet_update_state _ _ _ _ H2) as U2.
  pose proof (unchanged_trans _ _ _ U1 U2) as U12.
  assert (Hinh2 : inhibition (self w2) = true).
  { destruct U12 as [C _]. config_eq C. congruence. }
  apply bind_cases in E as [(e & H3 & _) | (fired & w3 & H3 & E)].
  - eapply unchanged_trans; eauto. eapply quiet_spike_inhibited; eauto.
  - eapply unchanged_trans; [|eapply quiet_finish; eauto].
    eapply unchanged_trans; eauto. eapply quiet_spike_inhibited; eauto.
Qed.

(** Without inhibition, a call that returns a nonzero spike has added to
    every element of the threshold its own Gaussian sample, the draw times
    [funkiness]. *)
Lemma spike_perturbs_every_element : forall w x m out,
  inhibition (self w) = false ->
  fst (forward x m w) = Ok out ->
  Exists (fun v => v <> 0) (data (spikes out)) ->
  wf (threshold_of w) ->
  shape (threshold_of (snd (forward x m w))) = shape (threshold_of w) /\
  forall k, (k < numel (shape (threshold_of w)))%nat ->
    nth k (data (threshold_of (snd (forward x m w)))) 0 =
    nth k (data (threshold_of w)) 0
    + (randn w (drawn w + k) * funkiness (self w) + 0).
Proof.
  intros w x m out Hinh Hout Hex Wth.
  destruct (forward_inv w x m (ex_intro _ out Hout))
    as (w2 & fired & w3 & out' & w' & Hup & Hsp & Hself & Hfin & E).
  rewrite E in Hout |- *. simpl in Hout |- *. inversion Hout; subst out'.
  pose proof (quiet_update_state _ _ _ _ Hup) as U2.
  pose proof (unchanged_threshold_of _ _ U2) as Hth2.
  rewrite threshold_of_put_mem in Hth2.
  destruct U2 as (C2 & _ & Hrn & Hdr).
  change (config (self w2) = config (self w)) in C2.
  change (randn w2 = randn w) in Hrn. change (drawn w2 = drawn w) in Hdr.
  config_eq C2.
  rewrite (spike_plain w2 ltac:(congruence)) in Hsp.
  apply bind_inv_ok in Hsp as (spk & w3' & Hfire & Hr).
  inversion Hr; subst fired w3'. clear Hr.
  rewrite (unchanged_threshold_of _ _ (quiet_finish _ _ _ _ Hfin)).
  apply finish_spikes in Hfin. rewrite Hfin in Hex.
  apply any_true in Hex.
  rewrite fire_eq in Hfire.
  destruct (spikes_formula _ _ _ _) as [s|]; [|discriminate].
  assert (s = spk).
  { destruct (any s); [|now inversion Hfire].
    destruct (normal _ _ _ _); [|discriminate].
    destruct (tadd _ _); now inversion Hfire. }
  subst s. rewrite Hex in Hfire.
  unfold normal in Hfire. destruct (Qcltb _ _); [discriminate|].
  unfold tadd in Hfire.
  rewrite (binop_ok_shape _ _ _ (shape (threshold_of w2))) in Hfire
    by apply broadcast_shapes_refl.
  inversion Hfire; subst w3. clear Hfire.
  rewrite threshold_of_perturbed. simpl. rewrite Hth2.
  split; [reflexivity|]. intros k Hk.
  rewrite view_self by exact Wth.
  assert (Wn : wf (Tensor (shape (threshold_of w))
                     (map (fun z => z * funkiness (self w2) + 0) (draws w2)))).
  { unfold wf, draws. simpl. now rewrite !length_map, length_seq, Hth2. }
  change (shape (threshold_of w)) with
    (shape (Tensor (shape (threshold_of w))
              (map (fun z => z * funkiness (self w2) + 0) (draws w2)))) at 1.
  rewrite view_self by exact Wn. simpl.
  rewrite (nth_map2 _ _ _ _ 0 0).
  - f_equal. unfold draws. rewrite Hth2, Hrn, Hdr, Efunk.
    rewrite (nth_indep _ 0 (0 * funkiness (self w) + 0))
      by (now rewrite !length_map, length_seq).
    rewrite (map_nth (fun z => z * funkiness (self w) + 0)).
    rewrite (nth_indep _ 0 (randn w 0%nat))
      by (now rewrite length_map, length_seq).
    rewrite map_nth, seq_nth by exact Hk. reflexivity.
  - now rewrite Wth.
  - unfold draws. now rewrite !length_map, length_seq, Hth2.
Qed.

(** C2, at a failing input: [Funky(beta=0.5, funkiness=1.0,
    inhibition=True)], every random draw being 1, called on a batch of two
    elements with three neurons each, the inputs 2 and 3 of the first element
    above the threshold 1.  The call returns a nonzero spike (the winner of
    the first batch element), and the threshold is still 1: no noise was
    drawn. *)
Theorem inhibited_spike_leaves_threshold :
  exists spk m',
    fst (forward (Tensor [2; 3]%nat [qc 2 1; qc 3 1; 0; 0; 0; 0]) None
           funky_wta_neuron) = Ok (SpkMem spk m') /\
    show spk = ([2; 3]%nat, [0; 1; 0; 0; 0; 0]%Q) /\
    any spk = true /\
    funkiness (self funky_wta_neuron) = 1 /\
    show (threshold_of funky_wta_neuron) = ([], [1%Q]) /\
    show (threshold_of
            (snd (forward (Tensor [2; 3]%nat [qc 2 1; qc 3 1; 0; 0; 0; 0])
                    None funky_wta_neuron))) = ([], [1%Q]) /\
    drawn (snd (forward (Tensor [2; 3]%nat [qc 2 1; qc 3 1; 0; 0; 0; 0])
                  None funky_wta_neuron)) = 0%nat.
Proof.
  do 2 eexists. split; [vm_compute; reflexivity|].
  repeat split; vm_compute; reflexivity.
Qed.

(** ** Funkiness 0 against the base neuron *)

Lemma fire_inhibition_eq : forall b m w,
  fire_inhibition b m w = (inhibited_formula b m (threshold_of w), w).
Proof.
  intros b m w.
  unfold fire_inhibition, inhibited_formula, threshold_of, bind, attr, load,
    lift. simpl.
  now destruct (tsub _ _).
Qed.

Lemma Leaky_fire_eq : forall m w,
  Leaky_fire m w =
  (spikes_formula (state_quant (self w)) m (threshold_of w)
     (graded_spikes_factor (self w)), w).
Proof.
  intros m w.
  unfold Leaky_fire, spikes_formula, threshold_of, bind, attr, load, lift.
  simpl. now destruct (tsub _ _).
Qed.

Lemma map2_plus_zero : forall (d zs : list Qc),
  length zs = length d ->
  map2 Qcplus d (map (fun z => z * 0 + 0) zs) = d.
Proof.
  induction d as [|v d IH]; intros [|z zs] H; simpl in *; try discriminate;
    [reflexivity|].
  f_equal; [ring | apply IH; lia].
Qed.

(** Adding noise of standard deviation 0 gives the threshold back. *)
Lemma add_zero_noise : forall th zs,
  wf th -> length zs = numel (shape th) ->
  tadd th (Tensor (shape th) (map (fun z => z * 0 + 0) zs)) = Ok th.
Proof.
  intros th zs W L. unfold tadd.
  rewrite (binop_ok_shape _ _ _ (shape th))
    by (simpl; apply broadcast_shapes_refl).
  rewrite view_self by exact W.
  change (shape th) with
    (shape (Tensor (shape th) (map (fun z => z * 0 + 0) zs))) at 2.
  rewrite view_self
    by (unfold wf; simpl; now rewrite length_map).
  simpl. rewrite map2_plus_zero by congruence.
  now destruct th.
Qed.

Lemma agree_put_mem : forall t w1 w2,
  agree w1 w2 -> agree (put_mem t w1) (put_mem t w2).
Proof.
  intros t w1 w2 [Hs Ht]. split; [simpl; now rewrite Hs | exact Ht].
Qed.

Lemma agree_put_reset : forall t w1 w2,
  agree w1 w2 -> agree (put_reset t w1) (put_reset t w2).
Proof.
  intros t w1 w2 [Hs Ht]. split; [simpl; now rewrite Hs | exact Ht].
Qed.

Lemma bind_mem_agree : forall x m w1 w2,
  agree w1 w2 ->
  exists r w1' w2',
    bind_mem x m w1 = (r, w1') /\ bind_mem x m w2 = (r, w2') /\
    agree w1' w2'.
Proof.
  intros x m w1 w2 A. pose proof A as [Hs Ht].
  destruct (init_hidden (self w1) && is_some m) eqn:Hm.
  - apply andb_true_iff in Hm as [Hih Hsome]. destruct m; [|discriminate].
    rewrite !bind_mem_refused by congruence.
    do 3 eexists. split; [reflexivity|]. split; [reflexivity|].
    now apply agree_put_mem.
  - rewrite !bind_mem_ok by congruence.
    do 3 eexists. split; [reflexivity|]. split; [reflexivity|].
    replace (entry_mem w2 x m) with (entry_mem w1 x m)
      by (unfold entry_mem; now rewrite Hs).
    now apply agree_put_mem.
Qed.

Lemma state_function_agree : forall x w1 w2,
  agree w1 w2 ->
  exists r w1' w2',
    state_function x w1 = (r, w1') /\ state_function x w2 = (r, w2') /\
    agree w1' w2'.
Proof.
  intros x w1 w2 A. pose proof A as [Hs Ht].
  destruct (reset_mechanism_ (self w1)) eqn:Hrm.
  - rewrite !state_function_subtract by congruence.
    rewrite <- Hs, <- Ht. eauto 6.
  - rewrite !state_function_zero by congruence.
    rewrite <- Hs. destruct (zeroed_formula _ _); [|eauto 6].
    do 3 eexists. split; [reflexivity|]. split; [reflexivity|].
    now apply agree_put_mem.
  - rewrite !state_function_none by congruence.
    rewrite <- Hs. eauto 6.
Qed.

Lemma update_state_agree : forall x w1 w2,
  agree w1 w2 ->
  exists r w1' w2',
    update_state x w1 = (r, w1') /\ update_state x w2 = (r, w2') /\
    agree w1' w2'.
Proof.
  intros x w1 w2 A. pose proof A as [Hs Ht].
  rewrite !update_state_eq. rewrite <- Hs, <- Ht.
  destruct (reset_indicator _ _) as [R|]; [|eauto 6].
  destruct (state_function_agree x _ _ (agree_put_reset R _ _ A))
    as (r & w1' & w2' & -> & -> & A').
  destruct r as [v|e]; [|eauto 6].
  do 3 eexists. split; [reflexivity|]. split; [reflexivity|].
  destruct A' as [Hs' Ht']. rewrite <- Hs'. apply agree_put_mem. now split.
Qed.

Lemma Leaky_spike_inhibited : forall w,
  inhibition (self w) = true ->
  Leaky_spike w =
  match shape (mem (self w)) with
  | [] => (Raise IndexError, w)
  | n :: _ => fire_inhibition n (mem (self w)) w
  end.
Proof.
  intros w H. unfold Leaky_spike, bind at 1, attr at 1. rewrite H.
  unfold bind at 1, attr at 1. unfold bind at 1, lift, size0.
  now destruct (shape (mem (self w))).
Qed.

Lemma Leaky_spike_plain : forall w,
  inhibition (self w) = false ->
  Leaky_spike w = Leaky_fire (mem (self w)) w.
Proof.
  intros w H. unfold Leaky_spike, bind at 1, attr at 1. now rewrite H.
Qed.

(** The spikes of the Funky neuron with funkiness 0 are those of the base
    neuron, and the threshold stays what it was. *)
Lemma spike_agree : forall w1 w2,
  agree w1 w2 -> funkiness (self w1) = 0 -> wf (threshold_of w1) ->
  exists w1' w2',
    agree w1' w2' /\ self w1' = self w1 /\
    threshold_of w1' = threshold_of w1 /\
    ((exists e, spike w1 = (Raise e, w1') /\
                Leaky_spike w2 = (Raise e, w2')) \/
     (exists spk,
        spike w1 = (Ok (spk, if inhibition (self w1) then None
                             else Some (threshold (self w1))), w1') /\
        Leaky_spike w2 = (Ok spk, w2'))).
Proof.
  intros w1 w2 A Hf W. pose proof A as [Hs Ht].
  destruct (inhibition (self w1)) eqn:Hinh.
  - rewrite (spike_inhibited w1 Hinh).
    rewrite (Leaky_spike_inhibited w2) by congruence. rewrite <- Hs.
    destruct (shape (mem (self w1))) as [|n sh].
    + exists w1, w2. repeat split; auto. left; eexists; split; reflexivity.
    + unfold bind. rewrite !fire_inhibition_eq, <- Ht.
      destruct (inhibited_formula _ _ _); simpl;
        exists w1, w2; repeat split; auto; [right | left];
        eexists; split; reflexivity.
  - rewrite (spike_plain w1 Hinh).
    rewrite (Leaky_spike_plain w2) by congruence.
    rewrite Leaky_fire_eq, <- Hs, <- Ht.
    unfold bind. rewrite fire_eq.
    destruct (spikes_formula _ _ _ _) as [spk|e].
    + destruct (any spk).
      * rewrite Hf. unfold normal.
        change (Qcltb 0 0) with false. cbv iota.
        rewrite add_zero_noise
          by (auto; unfold draws; now rewrite length_map, length_seq).
        exists (perturbed (threshold_of w1) w1), w2.
        split; [split; [exact Hs | rewrite threshold_of_perturbed; exact Ht]|].
        split; [reflexivity|].
        split; [apply threshold_of_perturbed|]. right; eexists; split; reflexivity.
      * exists w1, w2. repeat split; auto. right; eexists; split; reflexivity.
    + exists w1, w2. repeat split; auto. left; eexists; split; reflexivity.
Qed.

Lemma Leaky_forward_unfold : forall x m w,
  Leaky_forward x m w =
  (bind_mem x m ;; update_state x ;; spk <- Leaky_spike ;; Leaky_finish spk) w.
Proof. reflexivity. Qed.

Lemma finish_eq : forall spk tb w,
  finish (spk, tb) w =
  if reset_delay (self w) then returned spk w
  else match immediate_reset spk tb w with
       | (Ok _, w') => returned spk w'
       | (Raise e, w') => (Raise e, w')
       end.
Proof.
  intros spk tb w. unfold finish, bind at 1, attr at 1.
  destruct (reset_delay (self w)); reflexivity.
Qed.

Lemma Leaky_finish_eq : forall spk w,
  Leaky_finish spk w =
  if reset_delay (self w) then returned spk w
  else match immediate_reset spk (Some (threshold (self w))) w with
       | (Ok _, w') => returned spk w'
       | (Raise e, w') => (Raise e, w')
       end.
Proof.
  intros spk w. unfold Leaky_finish, bind at 1, attr at 1.
  unfold bind at 1, attr at 1.
  destruct (reset_delay (self w)); reflexivity.
Qed.

Lemma returned_agree : forall spk w1 w2,
  agree w1 w2 ->
  exists r, returned spk w1 = (r, w1) /\ returned spk w2 = (r, w2).
Proof.
  intros spk w1 w2 [Hs _]. rewrite !returned_eq, <- Hs. eauto.
Qed.

Lemma finish_agree : forall spk w1 w2,
  agree w1 w2 -> ~ unassigned_local (self w1) ->
  exists r w1' w2',
    finish (spk, if inhibition (self w1) then None
                 else Some (threshold (self w1))) w1 = (r, w1') /\
    Leaky_finish spk w2 = (r, w2') /\ agree w1' w2'.
Proof.
  intros spk w1 w2 A Hok. pose proof A as [Hs Ht].
  rewrite finish_eq, Leaky_finish_eq, <- Hs.
  destruct (reset_delay (self w1)) eqn:Hrd.
  - destruct (returned_agree spk w1 w2 A) as (r & -> & ->). eauto 6.
  - assert (E : immediate_reset spk
                  (if inhibition (self w1) then None
                   else Some (threshold (self w1))) w1 =
                immediate_reset spk (Some (threshold (self w1))) w1).
    { destruct (inhibition (self w1)) eqn:Hinh; [|reflexivity].
      apply immediate_reset_any_local. intros Hrm. apply Hok.
      now repeat split. }
    rewrite E, !immediate_reset_bound. rewrite <- Hs.
    fold (threshold_of w1).
    replace (heap w2 (threshold (self w1))) with (threshold_of w1)
      by (rewrite Ht; unfold threshold_of; now rewrite Hs).
    destruct (compensated _ _ _ _ _ _) as [m'|e]; [|eauto 6].
    destruct (returned_agree spk _ _ (agree_put_mem m' _ _ A))
      as (r & -> & ->).
    do 3 eexists. split; [reflexivity|]. split; [reflexivity|].
    now apply agree_put_mem.
Qed.

(** One call: outside the configuration with the unassigned local, the Funky
    neuron with funkiness 0 and the base neuron give the same outcome and
    leave the same neuron, and the threshold is what it was. *)
Lemma forward_agree : forall x m w1 w2,
  agree w1 w2 -> funkiness (self w1) = 0 -> wf (threshold_of w1) ->
  ~ unassigned_local (self w1) ->
  exists r w1' w2',
    forward x m w1 = (r, w1') /\ Leaky_forward x m w2 = (r, w2') /\
    agree w1' w2' /\ config (self w1') = config (self w1) /\
    threshold_of w1' = threshold_of w1.
Proof.
  intros x m w1 w2 A Hf W Hok.
  rewrite forward_unfold, Leaky_forward_unfold.
  destruct (bind_mem_agree x m w1 w2 A) as (r1 & wa & wa' & H1 & H1' & Aa).
  pose proof (quiet_bind_mem _ _ _ _ _ H1) as Ua.
  destruct r1 as [[]|e].
  2: { rewrite (bind_raise _ _ _ _ _ H1), (bind_raise _ _ _ _ _ H1').
       do 3 eexists. split; [reflexivity|]. split; [reflexivity|].
       split; [exact Aa|]. split; [apply Ua|].
       now apply unchanged_threshold_of. }
  rewrite (bind_ok _ _ _ _ _ H1), (bind_ok _ _ _ _ _ H1').
  destruct (update_state_agree x wa wa' Aa) as (r2 & wb & wb' & H2 & H2' & Ab).
  pose proof (unchanged_trans _ _ _ Ua (quiet_update_state _ _ _ _ H2)) as Ub.
  destruct r2 as [[]|e].
  2: { rewrite (bind_raise _ _ _ _ _ H2), (bind_raise _ _ _ _ _ H2').
       do 3 eexists. split; [reflexivity|]. split; [reflexivity|].
       split; [exact Ab|]. split; [apply Ub|].
       now apply unchanged_threshold_of. }
  rewrite (bind_ok _ _ _ _ _ H2), (bind_ok _ _ _ _ _ H2').
  pose proof (unchanged_threshold_of _ _ Ub) as Hthb.
  destruct Ub as [Cb _]. pose proof Cb as Cb'. config_eq Cb'.
  destruct (spike_agree wb wb' Ab) as
    (wc & wc' & Ac & Hselfc & Hthc & [(e & H3 & H3') | (spk & H3 & H3')]);
    try congruence.
  { rewrite (bind_raise _ _ _ _ _ H3), (bind_raise _ _ _ _ _ H3').
    do 3 eexists. split; [reflexivity|]. split; [reflexivity|].
    split; [exact Ac|]. split; congruence. }
  rewrite (bind_ok _ _ _ _ _ H3), (bind_ok _ _ _ _ _ H3').
  rewrite <- Hselfc.
  destruct (finish_agree spk wc wc' Ac) as (r & wd & wd' & H4 & H4' & Ad).
  { rewrite Hselfc. unfold unassigned_local in *. intros (? & ? & ?).
    apply Hok. repeat split; congruence. }
  pose proof (quiet_finish _ _ _ _ H4) as Ud.
  exists r, wd, wd'. split; [exact H4|]. split; [exact H4'|].
  split; [exact Ad|]. split.
  - destruct Ud as [Cd _]. congruence.
  - rewrite (unchanged_threshold_of _ _ Ud). congruence.
Qed.

(** Any sequence of calls: the same outcomes, in order, and the threshold
    tensor is the same at the end as at the start. *)
Lemma run_agree : forall calls w1 w2,
  agree w1 w2 -> funkiness (self w1) = 0 -> wf (threshold_of w1) ->
  ~ unassigned_local (self w1) ->
  fst (run forward calls w1) = fst (run Leaky_forward calls w2) /\
  threshold_of (snd (run forward calls w1)) = threshold_of w1.
Proof.
  induction calls as [|[x m] calls IH]; intros w1 w2 A Hf W Hok; simpl.
  - now split.
  - destruct (forward_agree x m w1 w2 A Hf W Hok)
      as (r & w1' & w2' & -> & -> & A' & C & Hth).
    config_eq C.
    destruct (IH w1' w2' A') as [E1 E2]; try congruence.
    { unfold unassigned_local in *. intros (? & ? & ?).
      apply Hok. repeat split; congruence. }
    destruct (run forward calls w1') as [rs w1''].
    destruct (run Leaky_forward calls w2') as [rs' w2''].
    simpl in *. split; congruence.
Qed.

(** Funkiness 0, outside the configuration with the unassigned local: over
    every sequence of calls the Funky neuron returns what the base neuron
    returns, and its threshold tensor never changes. *)
Lemma funky_zero_is_leaky : forall calls w,
  funkiness (self w) = 0 -> wf (threshold_of w) ->
  ~ unassigned_local (self w) ->
  fst (run forward calls w) = fst (run Leaky_forward calls w) /\
  threshold_of (snd (run forward calls w)) = threshold_of w.
Proof.
  intros calls w Hf W Hok. apply run_agree; auto. now split.
Qed.

(** C1, at a failing input: [Funky(beta=0.5, funkiness=0, inhibition=True,
    reset_delay=False)] called on a batch of one element with one neuron,
    input 3/5.  The base neuron returns (no spike, membrane 3/5); the Funky
    neuron raises [UnboundLocalError]. *)
Theorem funky_zero_departs_from_leaky :
  funkiness (self wta_immediate_neuron) = 0 /\
  fst (forward (batch1 (qc 3 5)) None wta_immediate_neuron)
    = Raise UnboundLocalError /\
  exists spk m',
    fst (Leaky_forward (batch1 (qc 3 5)) None wta_immediate_neuron)
      = Ok (SpkMem spk m') /\
    show spk = ([1; 1]%nat, [0%Q]) /\
    show m' = ([1; 1]%nat, [3 # 5]).
Proof.
  split; [reflexivity|]. split; [vm_compute; reflexivity|].
  do 2 eexists. split; [vm_compute; reflexivity|].
  split; vm_compute; reflexivity.
Qed.

(** ** The effect of a whole call on the world *)

(** A forward call either leaves the store and the generator alone, or it
    went through [fire] with a nonzero spike, returned, and replaced the
    threshold by a tensor of the same shape, one draw taken per element. *)
Lemma forward_effect : forall w x m r w',
  forward x m w = (r, w') ->
  (unchanged w w' /\
   forall out, r = Ok out -> any (spikes out) = true ->
     inhibition (self w) = true) \/
  (inhibition (self w) = false /\
   exists out th', r = Ok out /\ any (spikes out) = true /\
     config (self w') = config (self w) /\
     heap w' = heap (perturbed th' w) /\
     randn w' = randn w /\
     drawn w' = (drawn w + numel (shape (threshold_of w)))%nat /\
     shape th' = shape (threshold_of w)).
Proof.
  intros w x m r w' E.
  pose proof E as H. rewrite forward_unfold in H.
  apply bind_cases in H as [(e & H1 & ->) | ([] & w1 & H1 & H)].
  { left. split; [eapply quiet_bind_mem; eauto | discriminate]. }
  pose proof (quiet_bind_mem _ _ _ _ _ H1) as U1.
  apply bind_cases in H as [(e & H2 & ->) | ([] & w2 & H2 & H)].
  { left. split; [|discriminate]. eapply unchanged_trans; eauto.
    eapply quiet_update_state; eauto. }
  pose proof (quiet_update_state _ _ _ _ H2) as U2.
  pose proof (unchanged_trans _ _ _ U1 U2) as U12.
  assert (Hinh2 : inhibition (self w2) = inhibition (self w)).
  { destruct U12 as [C _]. config_eq C. assumption. }
  destruct (inhibition (self w)) eqn:Hinh.
  { left. split; [|reflexivity].
    apply bind_cases in H as [(e & H3 & ->) | (fired & w3 & H3 & H)].
    - eapply unchanged_trans; eauto.
      eapply quiet_spike_inhibited; eauto.
    - eapply unchanged_trans; [|eapply quiet_finish; eauto].
      eapply unchanged_trans; eauto. eapply quiet_spike_inhibited; eauto. }
  apply bind_cases in H as [(e & H3 & ->) | (fired & w3 & H3 & H)];
    rewrite (spike_plain w2 Hinh2) in H3;
    apply bind_cases in H3 as [(e' & H3 & He) | (spk & w3' & H3 & H3')];
    try discriminate.
  { left. split; [|discriminate]. eapply unchanged_trans; eauto.
    destruct (fire_cases _ _ _ _ H3) as [[U _] | (? & ? & ? & _)];
      [exact U | discriminate]. }
  inversion H3'; subst fired w3'. clear H3'.
  destruct (fire_cases _ _ _ _ H3)
    as [[U Hno] | (spk' & th' & Hr & Hany & Hw3 & Hth' & Hspk)].
  { left. split.
    - eapply unchanged_trans; [|eapply quiet_finish; eauto].
      eapply unchanged_trans; eauto.
    - intros out -> Hany. destruct (finish (spk, _) w3) as [r3 w3'] eqn:Hf.
      inversion H; subst r3 w3'. apply finish_spikes in Hf.
      rewrite Hf, (Hno spk eq_refl) in Hany. discriminate. }
  inversion Hr; subst spk'. clear Hr.
  right. split; [reflexivity|].
  pose proof (quiet_finish _ _ _ _ H) as U3.
  apply spikes_formula_shape in Hspk as (Fm & Fth & Fg).
  apply bind_mem_inv in H1 as Hw1.
  assert (Hm1 : shape (mem (self w1)) = shape x)
    by (subst w1; apply shape_entry_mem).
  destruct (update_state_shapes _ _ _ H2 Hm1) as (Fx & HR).
  rewrite <- (unchanged_threshold_of _ _ U2) in HR.
  destruct (fits_join (shape x) (shape (threshold_of w2)) (shape spk))
    as (j & Hj & Fj); [eapply fits_trans; eauto | assumption |].
  rewrite HR in Hj. inversion Hj; subst j. clear Hj.
  destruct (finish_ok spk (Some (threshold (self w2))) w3)
    as (out & w'' & Hfin & Hsp & _ & _);
    try (subst w3; simpl; assumption).
  { subst w3. rewrite threshold_of_perturbed, Hth'. exact Fth. }
  { left. now subst w3. }
  rewrite Hfin in H. inversion H; subst r w''. clear H.
  exists out, th'. split; [reflexivity|]. split; [now rewrite Hsp|].
  destruct U3 as (C3 & Hh3 & Hr3 & Hd3).
  destruct U12 as (C12 & Hh12 & Hr12 & Hd12).
  pose proof (unchanged_threshold_of _ _ (conj C12 (conj Hh12 (conj Hr12 Hd12))))
    as Hth2.
  config_eq C12.
  subst w3. simpl in *.
  split; [congruence|]. split.
  { rewrite Hh3. unfold perturbed. simpl. rewrite Ethr, Hh12. reflexivity. }
  split; [congruence|]. split; [|congruence].
  rewrite Hd3, Hd12, Hth2. reflexivity.
Qed.

Lemma unchanged_framed : forall w w', unchanged w w' -> framed w w'.
Proof.
  intros w w' (C & Hh & Hr & Hd). repeat split; auto.
  - intros l _. now rewrite Hh.
  - now rewrite (unchanged_threshold_of _ _ (conj C (conj Hh (conj Hr Hd)))).
  - rewrite Hd. apply Nat.le_refl.
Qed.

Lemma framed_refl : forall w, framed w w.
Proof. intros w. apply unchanged_framed, unchanged_refl. Qed.

Lemma framed_trans : forall w1 w2 w3,
  framed w1 w2 -> framed w2 w3 -> framed w1 w3.
Proof.
  intros w1 w2 w3 (C1 & H1 & S1 & R1 & D1) (C2 & H2 & S2 & R2 & D2).
  config_eq C1. repeat split.
  - congruence.
  - intros l Hl. rewrite H2 by congruence. now apply H1.
  - congruence.
  - congruence.
  - eapply Nat.le_trans; eauto.
Qed.

Lemma forward_framed : forall w x m, framed w (snd (forward x m w)).
Proof.
  intros w x m. destruct (forward x m w) as [r w'] eqn:E. simpl.
  destruct (forward_effect _ _ _ _ _ E)
    as [[U _] | (_ & out & th' & _ & _ & C & Hh & Hr & Hd & Hs)].
  - now apply unchanged_framed.
  - config_eq C. repeat split; auto.
    + intros l Hl. rewrite Hh. unfold perturbed. simpl.
      destruct (Nat.eqb_spec l (threshold (self w))); [contradiction|].
      reflexivity.
    + unfold threshold_of at 1. rewrite Hh, Ethr. unfold perturbed. simpl.
      now rewrite Nat.eqb_refl.
    + rewrite Hd. apply Nat.le_add_r.
Qed.

(** X1: over any sequence of forward calls, whatever the inputs and the
    outcomes (raised exceptions included), every attribute of the
    configuration stays as constructed (beta, funkiness, the threshold
    reference, init_hidden, inhibition, reset mechanism, quantizer, output,
    graded-spikes factor, reset_delay), no tensor object other than the
    threshold is written, the threshold keeps its shape, and the random
    generator only moves forward. *)
Theorem calls_frame : forall calls w, framed w (snd (run forward calls w)).
Proof.
  induction calls as [|[x m] rest IH]; intros w; simpl.
  - apply framed_refl.
  - pose proof (forward_framed w x m) as F.
    destruct (forward x m w) as [r w1]. simpl in F.
    specialize (IH w1). destruct (run forward rest w1) as [rs w2].
    simpl in *. eapply framed_trans; eauto.
Qed.

(** X2: without inhibition, a forward call that returns has consumed one
    random draw per element of the threshold when its spike tensor has a
    nonzero element, and none when it has not.  The draws are taken whatever
    [funkiness] is, zero included. *)
Theorem draws_per_call : forall w x m out,
  inhibition (self w) = false ->
  fst (forward x m w) = Ok out ->
  drawn (snd (forward x m w)) =
    (drawn w + if any (spikes out) then numel (shape (threshold_of w))
               else 0)%nat.
Proof.
  intros w x m out Hinh Hout.
  destruct (forward x m w) as [r w'] eqn:E. simpl in *. subst r.
  destruct (forward_effect _ _ _ _ _ E)
    as [[U Hno] | (_ & out' & th' & Ho & Hany & _ & _ & _ & Hd & _)].
  - destruct (any (spikes out)) eqn:Hany.
    + specialize (Hno out eq_refl Hany). congruence.
    + destruct U as (_ & _ & _ & Hd). rewrite Hd. now rewrite Nat.add_0_r.
  - inversion Ho; subst out'. now rewrite Hany.
Qed.

Lemma draws_per_call_witness :
  drawn (snd (forward (scalar (qc 2 1)) None plain_neuron)) = 1%nat /\
  drawn (snd (forward (scalar half) None plain_neuron)) = 0%nat.
Proof.
  split.
  - rewrite (draws_per_call plain_neuron (scalar (qc 2 1)) None
               (SpkMem (scalar 1) (scalar (qc 2 1))));
      [reflexivity | reflexivity | vm_compute; reflexivity].
  - rewrite (draws_per_call plain_neuron (scalar half) None
               (SpkMem (scalar 0) (scalar half)));
      [reflexivity | reflexivity | vm_compute; reflexivity].
Defined.

(** X3: a forward call that raises, whatever the exception, has changed
    neither the threshold nor the random generator nor the configuration:
    only the membrane and the reset indicator may have been overwritten
    before the error. *)
Theorem failed_call_keeps_threshold : forall w x m e,
  fst (forward x m w) = Raise e ->
  unchanged w (snd (forward x m w)) /\
  threshold_of (snd (forward x m w)) = threshold_of w.
Proof.
  intros w x m e He.
  destruct (forward x m w) as [r w'] eqn:E. simpl in *. subst r.
  destruct (forward_effect _ _ _ _ _ E)
    as [[U _] | (_ & out & th' & Ho & _)]; [|discriminate].
  split; [exact U | now apply unchanged_threshold_of].
Qed.

Lemma failed_call_keeps_threshold_witness :
  unchanged wta_immediate_neuron
    (snd (forward (batch1 (qc 2 1)) None wta_immediate_neuron)) /\
  threshold_of (snd (forward (batch1 (qc 2 1)) None wta_immediate_neuron)) =
    threshold_of wta_immediate_neuron.
Proof.
  apply (failed_call_keeps_threshold wta_immediate_neuron (batch1 (qc 2 1))
           None UnboundLocalError).
  vm_compute. reflexivity.
Defined.

(** X4: with [inhibition = True] no forward call, whatever it returns or
    raises and whatever [funkiness] is, changes the threshold tensor or
    takes a draw from the random generator. *)
Theorem inhibition_freezes_threshold : forall w x m,
  inhibition (self w) = true ->
  threshold_of (snd (forward x m w)) = threshold_of w /\
  drawn (snd (forward x m w)) = drawn w /\
  heap (snd (forward x m w)) = heap w.
Proof.
  intros w x m Hinh.
  pose proof (inhibited_forward_unchanged w x m Hinh) as U.
  split; [now apply unchanged_threshold_of|].
  destruct U as (_ & Hh & _ & Hd). now split.
Qed.

Lemma inhibition_freezes_threshold_witness :
  threshold_of (snd (forward (batch1 (qc 2 1)) None funky_wta_neuron)) =
    threshold_of funky_wta_neuron /\
  drawn (snd (forward (batch1 (qc 2 1)) None funky_wta_neuron)) =
    drawn funky_wta_neuron /\
  heap (snd (forward (batch1 (qc 2 1)) None funky_wta_neuron)) =
    heap funky_wta_neuron.
Proof.
  apply (inhibition_freezes_threshold funky_wta_neuron). reflexivity.
Defined.

(** With [funkiness = 0] one call leaves the threshold tensor as it was. *)
Lemma zero_funkiness_step : forall w x m,
  funkiness (self w) = 0 -> wf (threshold_of w) ->
  threshold_of (snd (forward x m w)) = threshold_of w /\
  funkiness (self (snd (forward x m w))) = 0.
Proof.
  intros w x m Hf Wth.
  assert (Hf' : funkiness (self (snd (forward x m w))) = 0).
  { destruct (forward_framed w x m) as (C & _). config_eq C. congruence. }
  split; [|exact Hf'].
  destruct (inhibition (self w)) eqn:Hinh.
  - apply unchanged_threshold_of. now apply inhibited_forward_unchanged.
  - destruct (forward_agree x m w w) as (r & w1 & w2 & E1 & _ & _ & _ & Ht);
      auto.
    + split; reflexivity.
    + intros (Hi & _). congruence.
    + rewrite E1. exact Ht.
Qed.

(** X5: with [funkiness = 0] the threshold tensor never drifts: after any
    sequence of forward calls, in every configuration, it holds the values
    it held before (although the random generator is still consumed at every
    spiking step). *)
Theorem zero_funkiness_never_drifts : forall calls w,
  funkiness (self w) = 0 -> wf (threshold_of w) ->
  threshold_of (snd (run forward calls w)) = threshold_of w.
Proof.
  induction calls as [|[x m] rest IH]; intros w Hf Wth; simpl.
  - reflexivity.
  - destruct (zero_funkiness_step w x m Hf Wth) as (Ht & Hf').
    destruct (forward x m w) as [r w1]. simpl in Ht, Hf'.
    specialize (IH w1 Hf'). rewrite Ht in IH. specialize (IH Wth).
    destruct (run forward rest w1) as [rs w2]. simpl in *. exact IH.
Qed.

Lemma zero_funkiness_never_drifts_witness :
  threshold_of
    (snd (run forward [(scalar (qc 2 1), None); (scalar (qc 2 1), None)]
            plain_neuron)) = threshold_of plain_neuron.
Proof.
  apply (zero_funkiness_never_drifts
           [(scalar (qc 2 1), None); (scalar (qc 2 1), None)] plain_neuron).
  - reflexivity.
  - reflexivity.
Defined.

(** ** What a call returns *)

Lemma finish_returned : forall fired w out w',
  finish fired w = (Ok out, w') ->
  out = (if output (self w') then SpkMem (fst fired) (mem (self w'))
         else if init_hidden (self w') then Spk (fst fired)
         else SpkMem (fst fired) (mem (self w'))).
Proof.
  intros fired w out w' H. unfold finish in H.
  apply bind_inv_ok in H as (rd & w1 & _ & H).
  apply bind_inv_ok in H as ([] & w2 & _ & H).
  rewrite returned_eq in H. now inversion H.
Qed.

(** X6: a forward call that returns gives the spikes alone exactly when the
    neuron was built with [init_hidden = True] and [output = False];
    otherwise it gives the pair of the spikes and the membrane, and that
    membrane is the one the neuron stores after the call.  A neuron with
    [init_hidden = True] only returns from calls without an explicit
    membrane. *)
Theorem forward_return_convention : forall w x m out,
  fst (forward x m w) = Ok out ->
  out = (if output (self w) || negb (init_hidden (self w))
         then SpkMem (spikes out) (mem (self (snd (forward x m w))))
         else Spk (spikes out)) /\
  (init_hidden (self w) = true -> m = None).
Proof.
  intros w x m out Hout.
  destruct (forward_inv w x m (ex_intro _ out Hout))
    as (w2 & fired & w3 & out' & w' & Hup & Hsp & Hself & Hfin & E).
  pose proof (forward_framed w x m) as (C & _).
  rewrite E in *. simpl in *. inversion Hout; subst out'. clear Hout.
  config_eq C. split.
  - pose proof (finish_returned _ _ _ _ Hfin) as Ho.
    rewrite Eout, Eih in Ho.
    destruct (output (self w)), (init_hidden (self w)); simpl;
      subst out; reflexivity.
  - intros Hih. destruct m as [t|]; [|reflexivity].
    rewrite (forward_refused w x t Hih) in E. discriminate.
Qed.

Lemma forward_return_convention_witness :
  Spk (scalar 1) =
    (if output (self hidden_neuron) || negb (init_hidden (self hidden_neuron))
     then SpkMem (spikes (Spk (scalar 1)))
            (mem (self (snd (forward (scalar (qc 2 1)) None hidden_neuron))))
     else Spk (spikes (Spk (scalar 1)))) /\
  (init_hidden (self hidden_neuron) = true -> @None tensor = None).
Proof.
  apply (forward_return_convention hidden_neuron (scalar (qc 2 1)) None
           (Spk (scalar 1))).
  vm_compute. reflexivity.
Defined.

(** The steps of a returning call without inhibition: the state update, the
    spikes of the updated membrane against the threshold as it was before
    the call, and either no compensation ([reset_delay] on) or the
    compensation of lines 231-238. *)
Lemma forward_plain_inv : forall w x m out,
  inhibition (self w) = false ->
  fst (forward x m w) = Ok out ->
  exists w2,
    update_state x (put_mem (entry_mem w x m) w) = (Ok tt, w2) /\
    spikes_formula (state_quant (self w)) (mem (self w2)) (threshold_of w)
      (graded_spikes_factor (self w)) = Ok (spikes out) /\
    reset (self (snd (forward x m w))) = reset (self w2) /\
    (reset_delay (self w) = true ->
     mem (self (snd (forward x m w))) = mem (self w2)) /\
    (reset_delay (self w) = false ->
     compensated (reset_mechanism_ (self w)) (spikes out)
       (graded_spikes_factor (self w)) (reset (self w2)) (mem (self w2))
       (threshold_of (snd (forward x m w)))
     = Ok (mem (self (snd (forward x m w))))).
Proof.
  intros w x m out Hinh Hout.
  destruct (forward_inv w x m (ex_intro _ out Hout))
    as (w2 & fired & w3 & out' & w' & Hup & Hsp & Hself & Hfin & E).
  rewrite E in Hout |- *. simpl in Hout |- *. inversion Hout; subst out'.
  clear Hout.
  pose proof (quiet_update_state _ _ _ _ Hup) as U2.
  pose proof (unchanged_threshold_of _ _ U2) as Hth2.
  rewrite threshold_of_put_mem in Hth2.
  destruct U2 as [C2 _]. change (config (self w2) = config (self w)) in C2.
  config_eq C2.
  rewrite (spike_plain w2 ltac:(congruence)) in Hsp.
  apply bind_inv_ok in Hsp as (spk & w3' & Hfire & Hr).
  inversion Hr; subst fired w3'. clear Hr.
  pose proof (finish_spikes _ _ _ _ _ Hfin) as Hso.
  assert (Hspk : spikes_formula (state_quant (self w)) (mem (self w2))
                   (threshold_of w) (graded_spikes_factor (self w)) = Ok spk).
  { rewrite fire_eq in Hfire. rewrite Esq, Egsf, Hth2 in Hfire.
    destruct (spikes_formula _ _ _ _) as [s|]; [|discriminate].
    destruct (any s); [|now inversion Hfire].
    destruct (normal _ _ _ _); [|discriminate].
    destruct (tadd _ _); now inversion Hfire. }
  exists w2. split; [exact Hup|]. rewrite Hso. split; [exact Hspk|].
  clear Hso.
  pose proof (quiet_finish _ _ _ _ Hfin) as U3.
  rewrite finish_eq in Hfin. rewrite Hself, Erd in Hfin.
  destruct (reset_delay (self w)) eqn:Hrd.
  - rewrite returned_eq in Hfin. inversion Hfin; subst w'.
    rewrite Hself. split; [reflexivity|]. split; [reflexivity | discriminate].
  - rewrite immediate_reset_bound in Hfin.
    replace (heap w3 (threshold (self w2))) with (threshold_of w3) in Hfin
      by (unfold threshold_of; now rewrite Hself).
    rewrite Hself, Erm, Egsf in Hfin.
    rewrite (unchanged_threshold_of _ _ U3).
    destruct (compensated _ _ _ _ _ _) as [m'|] eqn:Hc; [|discriminate].
    rewrite returned_eq in Hfin. inversion Hfin; subst w'. simpl.
    rewrite Hself. split; [reflexivity|]. split; [discriminate|].
    intros _. reflexivity.
Qed.

Lemma elt_quant : forall sq s t k,
  wf t -> fits (shape t) s -> (k < numel s)%nat ->
  elt s (quant sq t) k =
  match sq with Some q => q (elt s t k) | None => elt s t k end.
Proof.
  intros [q|] s t k Wt F Hk; simpl; [now apply elt_tmap | reflexivity].
Qed.

(** The spikes of [fire], element by element. *)
Lemma spikes_formula_elt : forall sq m th g spk s k,
  spikes_formula sq m th g = Ok spk -> wf m -> wf th -> wf g ->
  fits (shape spk) s -> (k < numel s)%nat ->
  wf spk /\
  elt s spk k =
    heaviside (elt s (quant sq m) k - elt s th k) * elt s g k.
Proof.
  intros sq m th g spk s k H Wm Wth Wg F Hk. unfold spikes_formula in H.
  destruct (tsub _ _) as [ms|] eqn:Hms; simpl in H; [|discriminate].
  assert (Wq : wf (quant sq m)) by now apply wf_quant.
  assert (Wms : wf ms) by (eapply wf_binop; eauto).
  assert (Wsg : wf (spike_grad ms)) by now apply wf_tmap.
  split; [eapply wf_binop; eauto|].
  pose proof (binop_fits_l _ _ _ _ _ H F) as Fsg. simpl in Fsg.
  rewrite (elt_binop _ _ _ _ _ _ H Wsg Wg F Hk).
  unfold spike_grad. rewrite elt_tmap by assumption.
  now rewrite (elt_binop _ _ _ _ _ _ Hms Wq Wth Fsg Hk).
Qed.

(** X7: without inhibition and with [reset_delay = True], the spikes a
    forward call returns are those of the membrane it leaves, taken against
    the threshold as it was before the call (not the perturbed one): element
    by element the spike is the graded-spikes factor where the quantized
    membrane strictly exceeds the threshold, and 0 elsewhere, also where the
    two are equal. *)
Theorem spikes_of_returned_membrane : forall w x m out,
  inhibition (self w) = false -> reset_delay (self w) = true ->
  fst (forward x m w) = Ok out ->
  let m' := mem (self (snd (forward x m w))) in
  let spk := spikes out in
  spikes_formula (state_quant (self w)) m' (threshold_of w)
    (graded_spikes_factor (self w)) = Ok spk /\
  (wf m' -> wf (threshold_of w) -> wf (graded_spikes_factor (self w)) ->
   forall k, (k < numel (shape spk))%nat ->
     let u := elt (shape spk) (quant (state_quant (self w)) m') k in
     let th := elt (shape spk) (threshold_of w) k in
     let g := elt (shape spk) (graded_spikes_factor (self w)) k in
     nth k (data spk) 0 = heaviside (u - th) * g /\
     ((th < u)%Qc -> nth k (data spk) 0 = g) /\
     ((u <= th)%Qc -> nth k (data spk) 0 = 0)).
Proof.
  intros w x m out Hinh Hrd Hout m' spk.
  destruct (forward_plain_inv w x m out Hinh Hout)
    as (w2 & _ & Hspk & _ & Hm & _).
  specialize (Hm Hrd). fold m' in Hm. rewrite <- Hm in Hspk. fold spk in Hspk.
  split; [exact Hspk|].
  intros Wm Wth Wg k Hk u th g.
  destruct (spikes_formula_elt _ _ _ _ _ _ k Hspk Wm Wth Wg
              (fits_refl (shape spk)) Hk) as (Wspk & Ek).
  rewrite (elt_self spk k Wspk) in Ek. fold u th g in Ek.
  split; [exact Ek|]. split; intros Hc; rewrite Ek.
  - rewrite heaviside_crossed by exact Hc. ring.
  - rewrite heaviside_not_crossed by exact Hc. ring.
Qed.

Lemma spikes_of_returned_membrane_witness :
  let m' := mem (self (snd (forward (scalar 1) None plain_neuron))) in
  let spk := spikes (SpkMem (scalar 0) (scalar 1)) in
  spikes_formula (state_quant (self plain_neuron)) m'
    (threshold_of plain_neuron) (graded_spikes_factor (self plain_neuron))
    = Ok spk /\
  (wf m' -> wf (threshold_of plain_neuron) ->
   wf (graded_spikes_factor (self plain_neuron)) ->
   forall k, (k < numel (shape spk))%nat ->
     let u := elt (shape spk) (quant (state_quant (self plain_neuron)) m') k in
     let th := elt (shape spk) (threshold_of plain_neuron) k in
     let g := elt (shape spk) (graded_spikes_factor (self plain_neuron)) k in
     nth k (data spk) 0 = heaviside (u - th) * g /\
     ((th < u)%Qc -> nth k (data spk) 0 = g) /\
     ((u <= th)%Qc -> nth k (data spk) 0 = 0)).
Proof.
  apply (spikes_of_returned_membrane plain_neuron (scalar 1) None
           (SpkMem (scalar 0) (scalar 1))).
  - reflexivity.
  - reflexivity.
  - vm_compute. reflexivity.
Defined.

(** ** The other state updates *)

Lemma update_state_none_inv : forall x w w2,
  reset_mechanism_ (self w) = none ->
  update_state x w = (Ok tt, w2) ->
  exists R v,
    reset_indicator (mem (self w)) (threshold_of w) = Ok R /\
    decay_plus_input (beta (self w)) (mem (self w)) x = Ok v /\
    w2 = put_mem (quant (state_quant (self w)) v) (put_reset R w).
Proof.
  intros x w w2 Hrm H. rewrite update_state_eq in H.
  destruct (reset_indicator _ _) as [R|]; [|discriminate].
  rewrite state_function_none in H by exact Hrm. simpl in H.
  destruct (decay_plus_input _ _ _) as [v|] eqn:Hv; [|discriminate].
  exists R, v. split; [reflexivity|]. split; [reflexivity|]. now inversion H.
Qed.

(** Without a reset mechanism the end of [forward] assigns nothing. *)
Lemma finish_none : forall fired w out w',
  reset_mechanism_ (self w) = none ->
  finish fired w = (Ok out, w') -> w' = w.
Proof.
  intros [spk tb] w out w' Hrm H. rewrite finish_eq in H.
  destruct (reset_delay (self w)).
  - rewrite returned_eq in H. now inversion H.
  - rewrite (immediate_reset_any_local spk tb 0%nat w) in H
      by (rewrite Hrm; discriminate).
    rewrite immediate_reset_bound, Hrm in H. unfold compensated in H.
    destruct (do_reset_formula _ _ _); simpl in H; [|discriminate].
    rewrite put_mem_same, returned_eq in H. now inversion H.
Qed.

(** X8: with reset mechanism "none", every forward call that returns
    leaves the membrane Q(beta * mem + I), beta clamped to [0,1] and Q the
    state quantizer if one is configured: nothing is ever subtracted, with
    or without inhibition and whatever [reset_delay] is, so the threshold
    only decides the spikes. *)
Theorem none_update : forall w x m,
  reset_mechanism_ (self w) = none ->
  returns (forward x m w) ->
  exists v,
    decay_plus_input (beta (self w)) (entry_mem w x m) x = Ok v /\
    mem (self (snd (forward x m w))) = quant (state_quant (self w)) v /\
    (wf (beta (self w)) -> wf x -> wf (entry_mem w x m) ->
     forall k, (k < numel (shape v))%nat ->
       nth k (data v) 0 =
         clamp 0 1 (elt (shape v) (beta (self w)) k)
         * elt (shape v) (entry_mem w x m) k + elt (shape v) x k).
Proof.
  intros w x m Hrm Hret.
  destruct (forward_inv w x m Hret) as (w2 & fired & w3 & out & w' &
    Hup & Hsp & Hself & Hfin & E).
  apply update_state_none_inv in Hup as (R & v & HR & Hv & Hw2);
    [|exact Hrm].
  entered w x m.
  exists v. split; [exact Hv|]. split.
  - rewrite E. simpl.
    rewrite (finish_none _ _ _ _ ltac:(rewrite Hself, Hw2; exact Hrm) Hfin).
    rewrite Hself, Hw2. reflexivity.
  - intros Wb Wx Wm k Hk.
    assert (Wv : wf v) by (eapply wf_decay_plus_input; eauto).
    rewrite <- (elt_self v k Wv).
    now destruct (decay_plus_input_elt _ _ _ _ _ k Hv Wb Wm Wx
                    (fits_refl (shape v)) Hk) as (Ev & _).
Qed.

Lemma none_update_witness :
  exists v,
    decay_plus_input (beta (self wta_immediate_integrator_neuron))
      (entry_mem wta_immediate_integrator_neuron (batch1 (qc 2 1)) None)
      (batch1 (qc 2 1)) = Ok v /\
    mem (self (snd (forward (batch1 (qc 2 1)) None
                      wta_immediate_integrator_neuron))) =
      quant (state_quant (self wta_immediate_integrator_neuron)) v.
Proof.
  destruct (none_update wta_immediate_integrator_neuron (batch1 (qc 2 1))
              None eq_refl) as (v & H1 & H2 & _).
  - eexists. vm_compute. reflexivity.
  - exists v. split; [exact H1 | exact H2].
Defined.

Lemma compensated_zero_inv : forall spk g r m thb m',
  compensated zero spk g r m thb = Ok m' ->
  exists q d p,
    tdiv spk g = Ok q /\ tsub q r = Ok d /\ tmul d m = Ok p /\
    tsub m p = Ok m'.
Proof.
  intros spk g r m thb m' H. unfold compensated, do_reset_formula in H.
  destruct (tdiv spk g) as [q|] eqn:Hq; cbn [rbind] in H; [|discriminate].
  destruct (tsub q r) as [d|] eqn:Hd; cbn [rbind] in H; [|discriminate].
  destruct (tmul d m) as [p|] eqn:Hp; cbn [rbind] in H; [|discriminate].
  exists q, d, p. repeat split; auto.
Qed.

(** X9: with reset mechanism "zero", [reset_delay = False] and no
    inhibition, a forward call that returns leaves the membrane
    u - (spk / g - R) * u, where u is the quantized updated membrane, spk
    the spikes, g the graded-spikes factor and R the reset indicator of the
    membrane the call started from.  Element by element, with g nonzero and
    S = 1 where the neuron spikes in this call (0 elsewhere): the membrane
    is 0 where S = 1 and R = 0, it is u where S = R, and it is 2 * u where
    the neuron does not spike but R = 1 (the compensation is then
    negative). *)
Theorem zero_immediate_reset : forall w x m out,
  inhibition (self w) = false -> reset_delay (self w) = false ->
  reset_mechanism_ (self w) = zero ->
  fst (forward x m w) = Ok out ->
  exists R z v q d p,
    reset_indicator (entry_mem w x m) (threshold_of w) = Ok R /\
    zeroed_formula R (entry_mem w x m) = Ok z /\
    decay_plus_input (beta (self w)) z x = Ok v /\
    tdiv (spikes out) (graded_spikes_factor (self w)) = Ok q /\
    tsub q R = Ok d /\
    tmul d (quant (state_quant (self w)) v) = Ok p /\
    tsub (quant (state_quant (self w)) v) p =
      Ok (mem (self (snd (forward x m w)))) /\
    (wf (beta (self w)) -> wf (threshold_of w) -> wf x ->
     wf (entry_mem w x m) -> wf (graded_spikes_factor (self w)) ->
     let m' := mem (self (snd (forward x m w))) in
     forall k, (k < numel (shape m'))%nat ->
       let u := elt (shape m') (quant (state_quant (self w)) v) k in
       let uq := elt (shape m')
                   (quant (state_quant (self w))
                      (quant (state_quant (self w)) v)) k in
       let S := heaviside (uq - elt (shape m') (threshold_of w) k) in
       let r := elt (shape m') R k in
       elt (shape m') (graded_spikes_factor (self w)) k <> 0 ->
       nth k (data m') 0 = u - (S - r) * u /\
       (S = 1 -> r = 0 -> nth k (data m') 0 = 0) /\
       (S = r -> nth k (data m') 0 = u) /\
       (S = 0 -> r = 1 -> nth k (data m') 0 = u + u)).
Proof.
  intros w x m out Hinh Hrd Hrm Hout.
  destruct (forward_plain_inv w x m out Hinh Hout)
    as (w2 & Hup & Hspk & _ & _ & Hc).
  specialize (Hc Hrd). rewrite Hrm in Hc.
  apply update_state_zero_inv in Hup as (R & z & v & HR & Hz & Hv & Hw2);
    [|exact Hrm].
  entered w x m. subst w2. simpl in Hc, Hspk.
  apply compensated_zero_inv in Hc as (q & d & p & Hq & Hd & Hp & Hm').
  exists R, z, v, q, d, p. repeat (split; [assumption|]).
  intros Wb Wth Wx Wm Wg m' k Hk u uq S r Hg.
  fold m' in Hm'.
  set (m2 := quant (state_quant (self w)) v) in *.
  assert (WR : wf R) by (eapply wf_reset_indicator; eauto).
  assert (Wz : wf z).
  { unfold zeroed_formula in Hz. eapply wf_binop; eauto. now apply wf_tmap. }
  assert (Wv : wf v) by (eapply wf_decay_plus_input; eauto).
  assert (Wm2 : wf m2) by now apply wf_quant.
  pose proof (fits_refl (shape m')) as Fm'.
  pose proof (binop_fits_l _ _ _ _ _ Hm' Fm') as Fm2.
  pose proof (binop_fits_r _ _ _ _ _ Hm' Fm') as Fp.
  pose proof (binop_fits_l _ _ _ _ _ Hp Fp) as Fd.
  pose proof (binop_fits_l _ _ _ _ _ Hd Fd) as Fq.
  pose proof (binop_fits_l _ _ _ _ _ Hq Fq) as Fspk.
  destruct (spikes_formula_elt _ _ _ _ _ _ k Hspk Wm2 Wth Wg Fspk Hk)
    as (Wspk & Espk).
  assert (Wq : wf q) by (eapply wf_binop; eauto).
  assert (Wd : wf d) by (eapply wf_binop; eauto).
  assert (Wp : wf p) by (eapply wf_binop; eauto).
  assert (Wm' : wf m') by (eapply wf_binop; eauto).
  assert (E : nth k (data m') 0 = u - (S - r) * u).
  { rewrite <- (elt_self m' k Wm').
    rewrite (elt_binop _ _ _ _ _ _ Hm' Wm2 Wp Fm' Hk).
    rewrite (elt_binop _ _ _ _ _ _ Hp Wd Wm2 Fp Hk).
    rewrite (elt_binop _ _ _ _ _ _ Hd Wq WR Fd Hk).
    rewrite (elt_binop _ _ _ _ _ _ Hq Wspk Wg Fq Hk).
    rewrite Espk. fold uq S. rewrite Qcdiv_mult_l by exact Hg.
    reflexivity. }
  split; [exact E|]. rewrite E.
  split; [intros -> ->; ring|]. split; [intros ->; ring|].
  intros -> ->. ring.
Qed.

Lemma zero_immediate_reset_witness :
  exists out,
    fst (forward (scalar half) (Some (scalar (qc 2 1)))
           zero_immediate_neuron) = Ok out /\
    exists R z v q d p,
      reset_indicator
        (entry_mem zero_immediate_neuron (scalar half)
           (Some (scalar (qc 2 1))))
        (threshold_of zero_immediate_neuron) = Ok R /\
      zeroed_formula R
        (entry_mem zero_immediate_neuron (scalar half)
           (Some (scalar (qc 2 1)))) = Ok z /\
      decay_plus_input (beta (self zero_immediate_neuron)) z (scalar half)
        = Ok v /\
      tdiv (spikes out) (graded_spikes_factor (self zero_immediate_neuron))
        = Ok q /\
      tsub q R = Ok d /\
      tmul d (quant (state_quant (self zero_immediate_neuron)) v) = Ok p /\
      tsub (quant (state_quant (self zero_immediate_neuron)) v) p =
        Ok (mem (self (snd (forward (scalar half) (Some (scalar (qc 2 1)))
                              zero_immediate_neuron)))) /\
      show v = ([], [1 # 2]) /\
      show (mem (self (snd (forward (scalar half) (Some (scalar (qc 2 1)))
                             zero_immediate_neuron)))) = ([], [1%Q]).
Proof.
  eexists. split; [vm_compute; reflexivity|].
  match goal with
  | |- context [spikes ?o] =>
      destruct (zero_immediate_reset zero_immediate_neuron (scalar half)
                  (Some (scalar (qc 2 1))) o eq_refl eq_refl eq_refl)
        as (R & z & v & q & d & p & H1 & H2 & H3 & H4 & H5 & H6 & H7 & _)
  end.
  - vm_compute. reflexivity.
  - exists R, z, v, q, d, p. repeat (split; [assumption|]).
    split; [|vm_compute; reflexivity].
    vm_compute in H1. injection H1 as HR. subst R.
    vm_compute in H2. injection H2 as Hz. subst z.
    vm_compute in H3. injection H3 as Hv. subst v.
    reflexivity.
Defined.

(** ** The stored state between calls *)

(** A call that is not refused continues from the membrane it binds. *)
Lemma forward_from_entry : forall w x m,
  init_hidden (self w) && is_some m = false ->
  forward x m w =
  (update_state x ;; fired <- spike ;; finish fired)
    (put_mem (entry_mem w x m) w).
Proof.
  intros w x m H. rewrite forward_unfold. unfold bind at 1.
  now rewrite bind_mem_ok.
Qed.

(** X10: for a neuron with [init_hidden = False], passing back the
    membrane a call returned is the same as passing none: the returned
    membrane is the stored one, and the next call, with it or without it,
    gives the same result and leaves the same state.  When a membrane is
    passed, the stored one plays no role at all. *)
Theorem explicit_membrane_round_trip : forall w x1 m1 spk mem1 x2,
  init_hidden (self w) = false ->
  fst (forward x1 m1 w) = Ok (SpkMem spk mem1) ->
  forward x2 (Some mem1) (snd (forward x1 m1 w)) =
    forward x2 None (snd (forward x1 m1 w)) /\
  forall stored, forward x2 (Some mem1) (put_mem stored w) =
                 forward x2 (Some mem1) w.
Proof.
  intros w x1 m1 spk mem1 x2 Hih Hout.
  assert (Hm : mem1 = mem (self (snd (forward x1 m1 w)))).
  { destruct (forward_inv w x1 m1 (ex_intro _ _ Hout))
      as (w2 & fired & w3 & out & w' & _ & _ & _ & Hfin & E).
    rewrite E in Hout |- *. simpl in *. inversion Hout; subst out.
    apply finish_returned in Hfin.
    destruct (output (self w')), (init_hidden (self w')); congruence. }
  assert (Hih' : init_hidden (self (snd (forward x1 m1 w))) = false).
  { destruct (forward_framed w x1 m1) as (C & _). config_eq C. congruence. }
  split.
  - rewrite (forward_from_entry _ x2 (Some mem1))
      by (rewrite Hih'; reflexivity).
    rewrite (forward_from_entry _ x2 None) by (rewrite Hih'; reflexivity).
    rewrite Hm. reflexivity.
  - intros stored.
    rewrite (forward_from_entry (put_mem stored w))
      by (simpl; rewrite Hih; reflexivity).
    rewrite (forward_from_entry w) by (rewrite Hih; reflexivity).
    reflexivity.
Qed.

Lemma explicit_membrane_round_trip_witness :
  exists spk mem1,
    fst (forward (scalar (qc 2 1)) None plain_neuron) = Ok (SpkMem spk mem1)
    /\
    forward (scalar half) (Some mem1)
      (snd (forward (scalar (qc 2 1)) None plain_neuron)) =
    forward (scalar half) None
      (snd (forward (scalar (qc 2 1)) None plain_neuron)).
Proof.
  do 2 eexists. split; [vm_compute; reflexivity|].
  match goal with
  | |- forward _ (Some ?mem1) _ = _ =>
      refine (proj1 (explicit_membrane_round_trip plain_neuron
                       (scalar (qc 2 1)) None (scalar 1) mem1 (scalar half)
                       eq_refl _))
  end.
  vm_compute. reflexivity.
Defined.

(** X11: [forward] never reads the reset indicator a previous call left:
    it assigns [self.reset] before its first use.  Whatever that attribute
    holds, the call gives the same result, the same membrane and the same
    threshold, and when it returns the whole state is the same. *)
Theorem stale_reset_is_never_read : forall w x m r0,
  fst (forward x m (put_reset r0 w)) = fst (forward x m w) /\
  mem (self (snd (forward x m (put_reset r0 w)))) =
    mem (self (snd (forward x m w))) /\
  threshold_of (snd (forward x m (put_reset r0 w))) =
    threshold_of (snd (forward x m w)) /\
  (returns (forward x m w) ->
   forward x m (put_reset r0 w) = forward x m w).
Proof.
  intros w x m r0.
  destruct (init_hidden (self w) && is_some m) eqn:Hmis.
  { apply andb_true_iff in Hmis as [Hih Hm]. destruct m as [t|];
      [|discriminate].
    rewrite (forward_refused w x t Hih).
    rewrite (forward_refused (put_reset r0 w) x t Hih). simpl.
    repeat split. intros (out & Ho). discriminate. }
  rewrite (forward_from_entry w x m Hmis).
  rewrite (forward_from_entry (put_reset r0 w) x m Hmis).
  change (put_mem (entry_mem (put_reset r0 w) x m) (put_reset r0 w))
    with (put_reset r0 (put_mem (entry_mem w x m) w)).
  set (w1 := put_mem (entry_mem w x m) w).
  set (rest := update_state x ;; fired <- spike ;; finish fired).
  assert (E : forall w0, rest w0 =
            match reset_indicator (mem (self w0)) (threshold_of w0) with
            | Raise e => (Raise e, w0)
            | Ok R =>
                match state_function x (put_reset R w0) with
                | (Ok v, w2) =>
                    (fired <- spike ;; finish fired)
                      (put_mem (quant (state_quant (self w2)) v) w2)
                | (Raise e, w2) => (Raise e, w2)
                end
            end).
  { intros w0. unfold rest. unfold bind at 1. rewrite update_state_eq.
    destruct (reset_indicator _ _) as [R|e]; [|reflexivity].
    destruct (state_function _ _) as [[v|e] w2]; reflexivity. }
  assert (K : rest (put_reset r0 w1) = rest w1 \/
              exists e, rest (put_reset r0 w1) = (Raise e, put_reset r0 w1) /\
                        rest w1 = (Raise e, w1)).
  { rewrite !E.
    change (reset_indicator (mem (self (put_reset r0 w1)))
              (threshold_of (put_reset r0 w1)))
      with (reset_indicator (mem (self w1)) (threshold_of w1)).
    destruct (reset_indicator _ _) as [R|e].
    - left. reflexivity.
    - right. exists e. split; reflexivity. }
  destruct K as [-> | (e & -> & ->)].
  - repeat split.
  - simpl. repeat split. intros (out & Ho). discriminate.
Qed.

Lemma zeros_entry : forall w x s,
  shape (mem (self w)) = s ->
  entry_mem (put_mem (zeros s) w) x None = zeros_like x.
Proof.
  intros w x s _. unfold entry_mem. simpl.
  destruct (shape_eqb s (shape x)) eqn:E; [|reflexivity].
  apply shape_eqb_true in E. now subst s.
Qed.

(** X12: [reset_mem] (and [init_funky], which calls it) never raises; it
    stores and returns a zero membrane of the shape the membrane had, and a
    second call changes nothing more.  It resets nothing else: the
    threshold keeps whatever earlier spikes made of it.  The next forward
    call then starts from a zero membrane of its input's shape, whatever
    shape the membrane had: it behaves as a call on the same neuron given an
    explicit zero membrane. *)
Theorem reset_mem_then_forward : forall w x,
  let z := zeros (shape (mem (self w))) in
  reset_mem w = (Ok z, put_mem z w) /\
  init_funky w = reset_mem w /\
  reset_mem (snd (reset_mem w)) = reset_mem w /\
  unchanged w (snd (reset_mem w)) /\
  forward x None (snd (reset_mem w)) =
    forward x None (put_mem (zeros_like x) w) /\
  (init_hidden (self w) = false ->
   forward x None (snd (reset_mem w)) = forward x (Some (zeros_like x)) w).
Proof.
  intros w x z.
  assert (E : reset_mem w = (Ok z, put_mem z w)) by reflexivity.
  split; [exact E|]. split; [reflexivity|]. split; [reflexivity|].
  split; [eapply quiet_reset_mem; apply surjective_pairing|].
  rewrite E. simpl.
  rewrite (forward_from_entry (put_mem z w) x None) by apply andb_false_r.
  unfold z. rewrite (zeros_entry w x _ eq_refl).
  split.
  - rewrite (forward_from_entry (put_mem (zeros_like x) w) x None)
      by apply andb_false_r.
    unfold entry_mem. simpl. now rewrite shape_eqb_refl.
  - intros Hih.
    rewrite (forward_from_entry w x (Some (zeros_like x)))
      by (rewrite Hih; reflexivity).
    unfold entry_mem. simpl. now rewrite shape_eqb_refl.
Qed.

(** ** The first call on a new neuron *)

Lemma tensor_ext : forall a b,
  shape a = shape b -> wf a -> wf b ->
  (forall k, (k < numel (shape a))%nat ->
     nth k (data a) 0 = nth k (data b) 0) ->
  a = b.
Proof.
  intros [sa da] [sb db] Hs Wa Wb H. unfold wf in *. simpl in *. subst sb.
  f_equal. apply (nth_ext _ _ 0 0); [congruence|].
  intros k Hk. apply H. now rewrite <- Wa.
Qed.

Lemma elt_zeros : forall s k, elt s (zeros s) k = 0.
Proof.
  intros s k. change s with (shape (zeros s)) at 1.
  rewrite elt_self by apply wf_zeros. apply nth_repeat.
Qed.

(** A property of every element of a tensor holds of every element of its
    broadcast. *)
Lemma elt_forall : forall (f : Qc -> Qc) c t s k,
  wf t -> fits (shape t) s -> (k < numel s)%nat ->
  Forall (fun v => f v = c) (data t) -> f (elt s t k) = c.
Proof.
  intros f c t s k Wt F Hk H.
  rewrite <- (elt_tmap f s t k Wt F Hk).
  replace (tmap f t) with (tmap (fun _ => c) t).
  - now rewrite elt_tmap.
  - unfold tmap. f_equal. apply map_ext_in. intros v Hv.
    rewrite Forall_forall in H. symmetry. now apply H.
Qed.

Lemma fresh_entry : forall b f th ih inh rm sq out g rd rn x,
  entry_mem (init b f th ih inh rm sq out g rd rn) x None = zeros_like x.
Proof.
  intros. unfold entry_mem. simpl.
  destruct (shape_eqb [0%nat] (shape x)) eqn:E; [|reflexivity].
  apply shape_eqb_true in E. unfold _init_mem, zeros_like. now rewrite E.
Qed.

(** With [reset_delay] on, the membrane a returning call leaves is the one
    the state update computed. *)
Lemma delayed_membrane : forall w x m,
  reset_delay (self w) = true -> returns (forward x m w) ->
  exists w2,
    update_state x (put_mem (entry_mem w x m) w) = (Ok tt, w2) /\
    mem (self (snd (forward x m w))) = mem (self w2).
Proof.
  intros w x m Hrd Hret.
  destruct (forward_inv w x m Hret) as (w2 & fired & w3 & out & w' &
    Hup & Hsp & Hself & Hfin & E).
  exists w2. split; [exact Hup|]. rewrite E. simpl.
  pose proof (quiet_update_state _ _ _ _ Hup) as [C _].
  change (config (self w2) = config (self w)) in C. config_eq C.
  rewrite (finish_delayed _ _ _ _ ltac:(rewrite Hself; congruence) Hfin).
  now rewrite Hself.
Qed.

(** The state update from a zero membrane gives the input back, provided
    no reset is due: under "subtract", no threshold element is negative. *)
Lemma update_from_zero : forall x w w2,
  update_state x w = (Ok tt, w2) ->
  mem (self w) = zeros_like x ->
  wf (beta (self w)) -> wf (threshold_of w) -> wf x ->
  fits (shape (beta (self w))) (shape x) ->
  fits (shape (threshold_of w)) (shape x) ->
  (reset_mechanism_ (self w) = subtract ->
   Forall (fun t => 0 <= t) (data (threshold_of w))) ->
  mem (self w2) = quant (state_quant (self w)) x.
Proof.
  intros x w w2 Hup Hm Wb Wth Wx Fb Fth Hpos.
  assert (Wm : wf (mem (self w))) by (rewrite Hm; apply wf_zeros).
  assert (Sm : shape (mem (self w)) = shape x) by now rewrite Hm.
  destruct (reset_indicator_fits (mem (self w)) (threshold_of w) (shape x)
              Sm Fth) as (R0 & HR0 & SR).
  assert (WR0 : wf R0) by (eapply wf_reset_indicator; eauto).
  destruct (reset_mechanism_ (self w)) eqn:Hrm.
  - apply update_state_subtract_inv in Hup as (R & v & HR & Hv & ->);
      [|exact Hrm].
    rewrite HR0 in HR. inversion HR; subst R. simpl. f_equal.
    destruct (subtract_formula_fits (beta (self w)) (mem (self w)) x R0
                (threshold_of w) (shape x) Fb Sm eq_refl SR Fth)
      as (v' & Hv' & Sv).
    rewrite Hv in Hv'. inversion Hv'; subst v'.
    assert (Wv : wf v).
    { unfold subtract_formula in Hv.
      destruct (decay_plus_input _ _ _) as [base|] eqn:Hb; simpl in Hv;
        [|discriminate].
      destruct (tmul _ _) as [rt|] eqn:Hrt; simpl in Hv; [|discriminate].
      eapply wf_binop; eauto; [eapply wf_decay_plus_input|eapply wf_binop];
        eauto. }
    apply tensor_ext; auto. intros k Hk.
    destruct (subtract_formula_elt _ _ _ _ _ _ k Hv Wb Wm Wx WR0 Wth Hk)
      as (_ & Ev & FR & _ & Fth').
    rewrite Ev. rewrite Sv in *.
    rewrite (reset_indicator_elt _ _ _ _ k HR0 Wm Wth FR Hk).
    rewrite Hm. unfold zeros_like. rewrite elt_zeros.
    rewrite (elt_forall (fun t => heaviside (0 - t)) 0 (threshold_of w));
      auto.
    + rewrite (elt_self x k Wx). ring.
    + eapply Forall_impl; [|exact (Hpos eq_refl)]. intros t Ht. simpl in Ht.
      apply heaviside_not_crossed. exact Ht.
  - apply update_state_zero_inv in Hup as (R & z & v & HR & Hz & Hv & ->);
      [|exact Hrm].
    rewrite HR0 in HR. inversion HR; subst R. simpl. f_equal.
    destruct (zeroed_formula_fits R0 (mem (self w)) (shape x) SR Sm)
      as (z' & Hz' & Sz).
    rewrite Hz in Hz'. inversion Hz'; subst z'.
    destruct (decay_plus_input_fits (beta (self w)) z x (shape x) Fb Sz
                eq_refl) as (v' & Hv' & Sv).
    rewrite Hv in Hv'. inversion Hv'; subst v'.
    assert (Fz : fits (shape z) (shape x))
      by (rewrite Sz; apply fits_refl).
    assert (Wz : wf z).
    { unfold zeroed_formula in Hz. eapply wf_binop; eauto.
      now apply wf_tmap. }
    assert (Wv : wf v) by (eapply wf_decay_plus_input; eauto).
    apply tensor_ext; auto. intros k Hk. rewrite Sv in Hk.
    rewrite <- (elt_self v k Wv). rewrite Sv.
    destruct (decay_plus_input_elt _ _ _ _ _ k Hv Wb Wz Wx
                ltac:(rewrite Sv; apply fits_refl) Hk) as (Ev & _).
    rewrite Ev.
    destruct (zeroed_formula_elt _ _ _ _ k Hz WR0 Wm Fz Hk)
      as (_ & Ez & _).
    rewrite Ez, Hm. unfold zeros_like. rewrite elt_zeros.
    rewrite (elt_self x k Wx). ring.
  - apply update_state_none_inv in Hup as (R & v & HR & Hv & ->);
      [|exact Hrm].
    simpl. f_equal.
    destruct (decay_plus_input_fits (beta (self w)) (mem (self w)) x
                (shape x) Fb Sm eq_refl) as (v' & Hv' & Sv).
    rewrite Hv in Hv'. inversion Hv'; subst v'.
    assert (Wv : wf v) by (eapply wf_decay_plus_input; eauto).
    apply tensor_ext; auto. intros k Hk. rewrite Sv in Hk.
    rewrite <- (elt_self v k Wv). rewrite Sv.
    destruct (decay_plus_input_elt _ _ _ _ _ k Hv Wb Wm Wx
                ltac:(rewrite Sv; apply fits_refl) Hk) as (Ev & _).
    rewrite Ev, Hm. unfold zeros_like. rewrite elt_zeros.
    rewrite (elt_self x k Wx). ring.
Qed.

(** X13: the first forward call on a newly constructed neuron, with
    [reset_delay = True] and beta and threshold broadcasting into the
    input's shape, leaves the membrane equal to the input itself (quantized,
    if a quantizer is configured), whatever beta is: the constructor's empty
    membrane is replaced by zeros of the input's shape, and nothing is
    subtracted from it.  Under "subtract" this needs a threshold without
    negative element (a negative threshold makes the zero membrane reset). *)
Theorem first_call_membrane_is_input :
  forall b f th ih inh rm sq out g rd rn x,
  let w := init b f th ih inh rm sq out g rd rn in
  rd = true ->
  wf b -> wf th -> wf x ->
  fits (shape b) (shape x) -> fits (shape th) (shape x) ->
  (rm = subtract -> Forall (fun t => 0 <= t) (data th)) ->
  returns (forward x None w) ->
  mem (self (snd (forward x None w))) = quant sq x.
Proof.
  intros b f th ih inh rm sq out g rd rn x w Hrd Wb Wth Wx Fb Fth Hpos Hret.
  destruct (delayed_membrane w x None Hrd Hret) as (w2 & Hup & ->).
  unfold w in Hup. rewrite fresh_entry in Hup.
  apply (update_from_zero x _ w2 Hup); auto.
Qed.

Lemma first_call_membrane_is_input_witness :
  mem (self (snd (forward (Tensor [2; 2]%nat [qc 3 1; half; 1; qc 5 1]) None
                    two_thresholds_neuron))) =
  quant None (Tensor [2; 2]%nat [qc 3 1; half; 1; qc 5 1]).
Proof.
  apply (first_call_membrane_is_input (scalar half) 0 (vector [1; qc 2 1])
           false false zero None false (scalar 1) true ones_stream
           (Tensor [2; 2]%nat [qc 3 1; half; 1; qc 5 1])).
  - reflexivity.
  - reflexivity.
  - reflexivity.
  - reflexivity.
  - reflexivity.
  - reflexivity.
  - discriminate.
  - eexists. vm_compute. reflexivity.
Defined.

(** ** From one call to the next *)

(** The state update stores the reset indicator of the membrane it starts
    from, taken against the threshold as it is then. *)
Lemma update_state_reset : forall x w w2,
  update_state x w = (Ok tt, w2) ->
  reset_indicator (mem (self w)) (threshold_of w) = Ok (reset (self w2)).
Proof.
  intros x w w2 H. destruct (reset_mechanism_ (self w)) eqn:Hrm.
  - apply update_state_subtract_inv in H as (R & v & HR & _ & ->);
      [exact HR | exact Hrm].
  - apply update_state_zero_inv in H as (R & z & v & HR & _ & _ & ->);
      [exact HR | exact Hrm].
  - apply update_state_none_inv in H as (R & v & HR & _ & ->);
      [exact HR | exact Hrm].
Qed.

Lemma spikes_formula_unquantized : forall m th g R,
  reset_indicator m th = Ok R -> spikes_formula None m th g = tmul R g.
Proof.
  intros m th g R H. unfold spikes_formula, reset_indicator in *. simpl.
  destruct (tsub m th) as [d|]; simpl in *; [|discriminate].
  now inversion H.
Qed.

(** X14: with [reset_delay = True] and no inhibition, when a call follows
    one that returned, on an input of the stored membrane's shape and
    without an explicit membrane, the reset indicator it uses is that of the
    stored membrane against the threshold as the first call left it, that
    is, after the perturbation.  It is the spike pattern of the first call
    (times the graded-spikes factor) when no quantizer is configured and the
    threshold did not move; once the threshold has moved, a neuron that
    spiked may not be reset, and one that did not spike may be. *)
Theorem next_reset_reads_moved_threshold : forall w x1 m1 out1 x2,
  inhibition (self w) = false -> reset_delay (self w) = true ->
  fst (forward x1 m1 w) = Ok out1 ->
  let w1 := snd (forward x1 m1 w) in
  shape x2 = shape (mem (self w1)) ->
  returns (forward x2 None w1) ->
  reset_indicator (mem (self w1)) (threshold_of w1) =
    Ok (reset (self (snd (forward x2 None w1)))) /\
  (state_quant (self w) = None -> threshold_of w1 = threshold_of w ->
   tmul (reset (self (snd (forward x2 None w1))))
     (graded_spikes_factor (self w)) = Ok (spikes out1)).
Proof.
  intros w x1 m1 out1 x2 Hinh Hrd Hout w1 Hx2 Hret.
  destruct (forward_plain_inv w x1 m1 out1 Hinh Hout)
    as (w2 & _ & Hspk & _ & Hm & _).
  specialize (Hm Hrd). fold w1 in Hm. rewrite <- Hm in Hspk.
  assert (C1 : config (self w1) = config (self w))
    by (destruct (forward_framed w x1 m1) as (C & _); exact C).
  config_eq C1.
  destruct Hret as (out2 & Hout2).
  destruct (forward_plain_inv w1 x2 None out2 ltac:(congruence) Hout2)
    as (w2' & Hup' & _ & Hr' & _).
  assert (He : entry_mem w1 x2 None = mem (self w1)).
  { unfold entry_mem. rewrite Hx2. now rewrite shape_eqb_refl. }
  rewrite He, put_mem_same in Hup'.
  apply update_state_reset in Hup'. rewrite <- Hr' in Hup'.
  split; [exact Hup'|].
  intros Hq Hth. rewrite Hq in Hspk. rewrite Hth in Hup'.
  now rewrite (spikes_formula_unquantized _ _ _ _ Hup') in Hspk.
Qed.

Lemma next_reset_reads_moved_threshold_witness :
  exists out1,
    fst (forward (scalar (qc 2 1)) None funky_neuron) = Ok out1 /\
    reset_indicator
      (mem (self (snd (forward (scalar (qc 2 1)) None funky_neuron))))
      (threshold_of (snd (forward (scalar (qc 2 1)) None funky_neuron))) =
    Ok (reset (self (snd (forward (scalar half) None
                            (snd (forward (scalar (qc 2 1)) None
                                    funky_neuron)))))) /\
    show (spikes out1) = ([], [1%Q]) /\
    show (reset (self (snd (forward (scalar half) None
                              (snd (forward (scalar (qc 2 1)) None
                                      funky_neuron)))))) = ([], [0%Q]).
Proof.
  eexists. split; [vm_compute; reflexivity|].
  split; [|split; vm_compute; reflexivity].
  match goal with
  | |- reset_indicator _ _ = _ =>
      refine (proj1 (next_reset_reads_moved_threshold funky_neuron
                       (scalar (qc 2 1)) None _ (scalar half)
                       eq_refl eq_refl _ eq_refl _))
  end.
  - vm_compute. reflexivity.
  - eexists. vm_compute. reflexivity.
Defined.

(** A call without inhibition whose parameters broadcast into the input:
    the state update goes through, the spikes are those of the updated
    membrane, and the call ends in [finish] when no spike is nonzero, in the
    error of [torch.normal] when one is and [funkiness] is negative. *)
Lemma forward_plain_fits : forall w x m,
  inhibition (self w) = false ->
  init_hidden (self w) && is_some m = false ->
  fits (shape (beta (self w))) (shape x) ->
  fits (shape (threshold_of w)) (shape x) ->
  fits (shape (graded_spikes_factor (self w))) (shape x) ->
  exists w2 spk,
    update_state x (put_mem (entry_mem w x m) w) = (Ok tt, w2) /\
    unchanged w w2 /\
    shape (mem (self w2)) = shape x /\
    shape (reset (self w2)) = shape x /\
    spikes_formula (state_quant (self w)) (mem (self w2)) (threshold_of w)
      (graded_spikes_factor (self w)) = Ok spk /\
    shape spk = shape x /\
    (any spk = true -> Qcltb (funkiness (self w)) 0 = true ->
     forward x m w = (Raise RuntimeError, w2)) /\
    (any spk = false ->
     forward x m w = finish (spk, Some (threshold (self w2))) w2).
Proof.
  intros w x m Hinh Hmis Fb Fth Fg.
  set (w1 := put_mem (entry_mem w x m) w).
  destruct (update_state_fits x w1 (shape x) eq_refl (shape_entry_mem w x m)
              Fb Fth) as (w2 & Hup & U2 & Sm & Sr).
  assert (U : unchanged w w2).
  { eapply unchanged_trans; [|exact U2].
    eapply quiet_bind_mem. apply (bind_mem_ok w x m Hmis). }
  pose proof (unchanged_threshold_of _ _ U) as Hth2.
  destruct U as [C2 Urest]. config_eq C2.
  destruct (spikes_formula_fits (state_quant (self w)) (mem (self w2))
              (threshold_of w) (graded_spikes_factor (self w)) (shape x)
              Sm Fth Fg) as (spk & Hspk & Ss).
  exists w2, spk. split; [exact Hup|]. split; [exact (conj C2 Urest)|].
  split; [exact Sm|]. split; [exact Sr|]. split; [exact Hspk|].
  split; [exact Ss|].
  assert (E : forward x m w = (fired <- spike ;; finish fired) w2).
  { rewrite (forward_from_entry w x m Hmis). unfold bind at 1.
    fold w1. now rewrite Hup. }
  assert (E' : forward x m w =
               match fire (mem (self w2)) w2 with
               | (Ok s, w3) => finish (s, Some (threshold (self w2))) w3
               | (Raise e, w3) => (Raise e, w3)
               end).
  { rewrite E. unfold bind at 1.
    rewrite (spike_plain w2 ltac:(congruence)). unfold bind at 1.
    destruct (fire _ _) as [[s|e] w3]; reflexivity. }
  rewrite E', fire_eq, Esq, Egsf, Efunk, Hth2, Hspk.
  split; intros Hany; rewrite Hany.
  - intros Hf. unfold normal. now rewrite Hf.
  - reflexivity.
Qed.

(** X15: a negative [funkiness] is accepted when the neuron is built and
    refused only by the first call that spikes: without inhibition, and with
    beta, threshold and graded-spikes factor broadcasting into the input, a
    call whose spikes are all zero returns as usual, and a call with a
    nonzero spike raises RuntimeError from [torch.normal], after the
    membrane and the reset indicator have been updated. *)
Theorem negative_funkiness_fails_on_spike : forall w x m,
  inhibition (self w) = false ->
  Qcltb (funkiness (self w)) 0 = true ->
  init_hidden (self w) && is_some m = false ->
  fits (shape (beta (self w))) (shape x) ->
  fits (shape (threshold_of w)) (shape x) ->
  fits (shape (graded_spikes_factor (self w))) (shape x) ->
  exists w2 spk,
    update_state x (put_mem (entry_mem w x m) w) = (Ok tt, w2) /\
    spikes_formula (state_quant (self w)) (mem (self w2)) (threshold_of w)
      (graded_spikes_factor (self w)) = Ok spk /\
    (any spk = true -> forward x m w = (Raise RuntimeError, w2)) /\
    (any spk = false ->
     exists out, fst (forward x m w) = Ok out /\ spikes out = spk).
Proof.
  intros w x m Hinh Hf Hmis Fb Fth Fg.
  destruct (forward_plain_fits w x m Hinh Hmis Fb Fth Fg)
    as (w2 & spk & Hup & U & Sm & Sr & Hspk & Ss & Hyes & Hno).
  pose proof (unchanged_threshold_of _ _ U) as Hth2.
  destruct U as [C2 _]. config_eq C2.
  exists w2, spk. split; [exact Hup|]. split; [exact Hspk|].
  split; [intros Hany; now apply Hyes|].
  intros Hany. rewrite (Hno Hany).
  destruct (finish_fits spk (Some (threshold (self w2))) w2 (shape x))
    as (out & w' & Hfin & _ & Hso & _); auto; try congruence.
  rewrite Hfin. exists out. now split.
Qed.

Lemma negative_funkiness_fails_on_spike_witness :
  exists w2 spk,
    update_state (scalar (qc 2 1))
      (put_mem (entry_mem negative_funkiness_neuron (scalar (qc 2 1)) None)
         negative_funkiness_neuron) = (Ok tt, w2) /\
    spikes_formula (state_quant (self negative_funkiness_neuron))
      (mem (self w2)) (threshold_of negative_funkiness_neuron)
      (graded_spikes_factor (self negative_funkiness_neuron)) = Ok spk /\
    forward (scalar (qc 2 1)) None negative_funkiness_neuron =
      (Raise RuntimeError, w2) /\
    show (mem (self w2)) = ([], [2%Q]).
Proof.
  destruct (negative_funkiness_fails_on_spike negative_funkiness_neuron
              (scalar (qc 2 1)) None eq_refl eq_refl eq_refl eq_refl eq_refl
              eq_refl) as (w2 & spk & H1 & H2 & H3 & _).
  exists w2, spk. split; [exact H1|]. split; [exact H2|].
  vm_compute in H1. injection H1 as Hw2. subst w2.
  vm_compute in H2. injection H2 as Hs. subst spk.
  split; [apply H3|]; vm_compute; reflexivity.
Defined.

(** ** Clearing the hidden states of the registered neurons *)

Lemma assign_middle : forall {A : Type} (pre : list A) x post v,
  assign (pre ++ x :: post) (length pre) v = pre ++ v :: post.
Proof.
  intros A pre x post v. induction pre as [|p pre IH]; simpl;
    [reflexivity | now rewrite IH].
Qed.

Lemma nth_error_middle : forall {A : Type} (pre : list A) x post,
  nth_error (pre ++ x :: post) (length pre) = Some x.
Proof.
  intros A pre x post. induction pre as [|p pre IH]; simpl; auto.
Qed.

(** The loop, started after the entries [pre]: it clears the entries that
    follow, one by one, and never indexes outside the list. *)
Lemma for_layers_cleared : forall post pre,
  for_layers (seq (length pre) (length post)) (pre ++ post) =
  Ok (pre ++ map cleared post).
Proof.
  induction post as [|p post IH]; intros pre; simpl.
  - reflexivity.
  - unfold reset_layer. rewrite nth_error_middle.
    assert (Step : forall l, l = pre ++ cleared p :: post ->
              rbind (Ok l) (for_layers (seq (S (length pre)) (length post)))
              = Ok (pre ++ cleared p :: map cleared post)).
    { intros l ->. simpl.
      replace (pre ++ cleared p :: post) with ((pre ++ [cleared p]) ++ post)
        by (now rewrite <- app_assoc).
      replace (S (length pre)) with (length (pre ++ [cleared p]))
        by (rewrite length_app; simpl; lia).
      rewrite IH. now rewrite <- app_assoc. }
    destruct p as [n|s]; apply Step; simpl.
    + apply assign_middle.
    + reflexivity.
Qed.

Lemma reset_hidden_map : forall instances,
  reset_hidden instances = Ok (map cleared instances).
Proof. intros l. exact (for_layers_cleared l []). Qed.

(** X16: [reset_hidden] never raises (its loop never indexes outside the
    registry) and keeps the registry's length and order.  Every [Funky]
    entry gets a zero membrane of the shape its membrane had, and keeps its
    configuration, its threshold reference included, so a threshold that
    spikes have moved stays where it is; entries of other classes are left
    as they are. *)
Theorem reset_hidden_effect : forall instances,
  exists out,
    reset_hidden instances = Ok out /\
    length out = length instances /\
    forall i,
      (forall n, nth_error instances i = Some (Funky_instance n) ->
         exists n', nth_error out i = Some (Funky_instance n') /\
           mem n' = zeros (shape (mem n)) /\ config n' = config n /\
           reset n' = reset n) /\
      (forall s, nth_error instances i = Some (Other_instance s) ->
         nth_error out i = Some (Other_instance s)).
Proof.
  intros l. exists (map cleared l). split; [apply reset_hidden_map|].
  split; [apply length_map|]. intros i. split.
  - intros n H. exists (with_mem (zeros_like (mem n)) n).
    rewrite nth_error_map, H. simpl. repeat split.
  - intros s H. now rewrite nth_error_map, H.
Qed.

(** X17: [reset_hidden] does to every [Funky] neuron of the registry what
    [reset_mem] does to one neuron, and clearing twice is the same as
    clearing once. *)
Theorem reset_hidden_is_reset_mem : forall instances,
  rbind (reset_hidden instances) reset_hidden = reset_hidden instances /\
  forall i n h r d,
    nth_error instances i = Some (Funky_instance n) ->
    exists out,
      reset_hidden instances = Ok out /\
      nth_error out i =
        Some (Funky_instance (self (snd (reset_mem (World n h r d))))).
Proof.
  intros l. rewrite reset_hidden_map. simpl. rewrite reset_hidden_map.
  split.
  - f_equal. rewrite map_map. apply map_ext. intros [n|s]; reflexivity.
  - intros i n h r d H. eexists. split; [reflexivity|].
    now rewrite nth_error_map, H.
Qed.

(** ** The decay rate is read through its clamp *)

Lemma clamp_idem : forall x, clamp 0 1 (clamp 0 1 x) = clamp 0 1 x.
Proof.
  intros x. unfold clamp, Qcmin, Qcmax.
  destruct (Qcltb x 0) eqn:E0.
  - reflexivity.
  - destruct (Qcltb 1 x) eqn:E1.
    + reflexivity.
    + now rewrite E0, E1.
Qed.

Lemma tmap_clamp_idem : forall b,
  tmap (clamp 0 1) (tmap (clamp 0 1) b) = tmap (clamp 0 1) b.
Proof.
  intros b. unfold tmap. simpl. f_equal. rewrite map_map.
  apply map_ext. apply clamp_idem.
Qed.

Section SameUnder.

Variables b b' : tensor.
Hypothesis Hclamp : tmap (clamp 0 1) b' = tmap (clamp 0 1) b.

Lemma same_ret : forall {A : Type} (a : A), same_under b b' (ret a).
Proof. intros A a w Hb. now split. Qed.

Lemma same_raise : forall {A : Type} (e : exn), same_under b b' (@raise A e).
Proof. intros A e w Hb. now split. Qed.

Lemma same_lift : forall {A : Type} (r : result A), same_under b b' (lift r).
Proof. intros A r w Hb. now split. Qed.

Lemma same_attr : forall {A : Type} (f : Funky -> A),
  (forall n, f (with_beta b' n) = f n) -> same_under b b' (attr f).
Proof.
  intros A f Hf w Hb. unfold attr. simpl. rewrite Hf. now split.
Qed.

Lemma same_set_mem : forall t, same_under b b' (set_mem t).
Proof. intros t w Hb. now split. Qed.

Lemma same_set_reset : forall t, same_under b b' (set_reset t).
Proof. intros t w Hb. now split. Qed.

Lemma same_load : forall l, same_under b b' (load l).
Proof. intros l w Hb. now split. Qed.

Lemma same_store : forall l t, same_under b b' (store l t).
Proof. intros l t w Hb. now split. Qed.

Lemma same_torch_normal : forall mean std size,
  same_under b b' (torch_normal mean std size).
Proof.
  intros mean std size w Hb. unfold torch_normal. simpl.
  destruct (normal _ _ _ _); now split.
Qed.

Lemma same_bind : forall {A B : Type} (c : M A) (k : A -> M B),
  same_under b b' c -> (forall a, same_under b b' (k a)) ->
  same_under b b' (bind c k).
Proof.
  intros A B c k Hc Hk w Hb. unfold bind.
  destruct (Hc w Hb) as (E & Hb1). rewrite E.
  destruct (c w) as [[a|e] w1]; simpl in *.
  - apply Hk. exact Hb1.
  - now split.
Qed.

Lemma same_base_state_function : forall x,
  same_under b b' (_base_state_function x).
Proof.
  intros x w Hb. rewrite !base_state_function_eq. simpl.
  unfold decay_plus_input. rewrite Hb, Hclamp. now split.
Qed.

Ltac same_steps :=
  repeat first
    [ apply same_base_state_function
    | apply same_bind; [|intros ?]
    | apply same_ret | apply same_raise | apply same_lift
    | apply same_set_mem | apply same_set_reset | apply same_load
    | apply same_store | apply same_torch_normal
    | apply same_attr; intros ?; reflexivity
    | match goal with
      | |- same_under _ _ (if ?c then _ else _) => destruct c
      | |- same_under _ _ (match ?o with Some _ => _ | None => _ end) =>
          destruct o
      end ].

Lemma same_forward : forall x m, same_under b b' (forward x m).
Proof.
  intros x m.
  unfold forward, bind_mem, update_state, spike, immediate_reset, returned,
    mem_reset, state_function, _base_sub, _base_zero, _base_int, fire,
    fire_inhibition, read_local.
  same_steps.
Qed.

Lemma same_run : forall calls w,
  beta (self w) = b ->
  run forward calls (put_beta b' w) =
    (fst (run forward calls w), put_beta b' (snd (run forward calls w))) /\
  beta (self (snd (run forward calls w))) = b.
Proof.
  induction calls as [|[x m] rest IH]; intros w Hb; simpl.
  - now split.
  - destruct (same_forward x m w Hb) as (E & Hb1). rewrite E.
    destruct (forward x m w) as [r w1]. simpl in *.
    destruct (IH w1 Hb1) as (E2 & Hb2). rewrite E2.
    destruct (run forward rest w1) as [rs w2]. simpl in *. now split.
Qed.

End SameUnder.

(** X18: beta only acts through its clamp to [0,1]: over any sequence of
    forward calls, a neuron gives the same results, and ends with the same
    membrane, reset indicator, threshold and generator, as the neuron built
    with the clamped beta in its place (a beta of 1.7 is a beta of 1, a
    negative beta is 0). *)
Theorem beta_acts_through_its_clamp : forall calls w,
  let clamped := tmap (clamp 0 1) (beta (self w)) in
  run forward calls (put_beta clamped w) =
    (fst (run forward calls w),
     put_beta clamped (snd (run forward calls w))).
Proof.
  intros calls w clamped.
  apply (same_run (beta (self w)) clamped
           (tmap_clamp_idem (beta (self w))) calls w eq_refl).
Qed.

(** ** Edge cases of a call *)







(** ** Two more facts about the spike step *)

(** X21: with [inhibition = True], a forward call on an input without
    dimensions, that is not refused and whose beta and threshold are
    0-dimensional as well, always raises IndexError ([self.mem.size(0)] has
    no dimension 0 to read), after the membrane and the reset indicator
    have been updated. *)
Theorem inhibition_needs_a_batch_dimension : forall w x m,
  inhibition (self w) = true ->
  init_hidden (self w) && is_some m = false ->
  shape x = [] ->
  fits (shape (beta (self w))) (shape x) ->
  fits (shape (threshold_of w)) (shape x) ->
  exists w2,
    update_state x (put_mem (entry_mem w x m) w) = (Ok tt, w2) /\
    forward x m w = (Raise IndexError, w2).
Proof.
  intros w x m Hinh Hmis Hx Fb Fth.
  set (w1 := put_mem (entry_mem w x m) w).
  destruct (update_state_fits x w1 (shape x) eq_refl (shape_entry_mem w x m)
              Fb Fth) as (w2 & Hup & U2 & Sm & _).
  destruct U2 as [C2 _]. change (config (self w2) = config (self w)) in C2.
  config_eq C2.
  exists w2. split; [exact Hup|].
  rewrite (forward_from_entry w x m Hmis). unfold bind at 1. fold w1.
  rewrite Hup. unfold bind at 1.
  rewrite (spike_inhibited w2 ltac:(congruence)), Sm, Hx. reflexivity.
Qed.

Lemma inhibition_needs_a_batch_dimension_witness :
  exists w2,
    update_state (scalar (qc 2 1))
      (put_mem (entry_mem wta_neuron (scalar (qc 2 1)) None) wta_neuron)
      = (Ok tt, w2) /\
    forward (scalar (qc 2 1)) None wta_neuron = (Raise IndexError, w2).
Proof.
  apply (inhibition_needs_a_batch_dimension wta_neuron (scalar (qc 2 1))
           None); reflexivity.
Defined.

(** X22: without inhibition, a forward call that returns a spike tensor
    with a nonzero element replaces the whole threshold, not only the
    elements of the neurons that spiked: the new threshold has the old
    shape, and element k is the old element k plus [funkiness] times the
    k-th of the draws the call takes from the generator. *)
Theorem spike_moves_whole_threshold : forall w x m out,
  inhibition (self w) = false ->
  fst (forward x m w) = Ok out ->
  any (spikes out) = true ->
  wf (threshold_of w) ->
  threshold_of (snd (forward x m w)) =
    Tensor (shape (threshold_of w))
      (map2 Qcplus (data (threshold_of w))
         (map (fun z => z * funkiness (self w) + 0) (draws w))).
Proof.
  intros w x m out Hinh Hout Hany Wth.
  destruct (forward_inv w x m (ex_intro _ out Hout))
    as (w2 & fired & w3 & out' & w' & Hup & Hsp & Hself & Hfin & E).
  rewrite E in Hout |- *. simpl in Hout |- *. inversion Hout; subst out'.
  pose proof (quiet_update_state _ _ _ _ Hup) as U2.
  pose proof (unchanged_threshold_of _ _ U2) as Hth2.
  rewrite threshold_of_put_mem in Hth2.
  destruct U2 as (C2 & _ & Hrn & Hdr).
  change (config (self w2) = config (self w)) in C2.
  change (randn w2 = randn w) in Hrn. change (drawn w2 = drawn w) in Hdr.
  config_eq C2.
  rewrite (spike_plain w2 ltac:(congruence)) in Hsp.
  apply bind_inv_ok in Hsp as (spk & w3' & Hfire & Hr).
  inversion Hr; subst fired w3'. clear Hr.
  rewrite (unchanged_threshold_of _ _ (quiet_finish _ _ _ _ Hfin)).
  apply finish_spikes in Hfin. rewrite Hfin in Hany.
  rewrite fire_eq in Hfire.
  destruct (spikes_formula _ _ _ _) as [s|]; [|discriminate].
  assert (s = spk).
  { destruct (any s); [|now inversion Hfire].
    destruct (normal _ _ _ _); [|discriminate].
    destruct (tadd _ _); now inversion Hfire. }
  subst s. rewrite Hany in Hfire.
  unfold normal in Hfire. destruct (Qcltb _ _); [discriminate|].
  unfold tadd in Hfire.
  rewrite (binop_ok_shape _ _ _ (shape (threshold_of w2))) in Hfire
    by apply broadcast_shapes_refl.
  inversion Hfire; subst w3. clear Hfire.
  rewrite threshold_of_perturbed. rewrite Hth2.
  assert (Ed : draws w2 = draws w).
  { unfold draws. now rewrite Hth2, Hrn, Hdr. }
  rewrite Ed, Efunk. f_equal. f_equal.
  - now apply view_self.
  - assert (Wn : wf (Tensor (shape (threshold_of w))
                       (map (fun z => z * funkiness (self w) + 0)
                          (draws w)))).
    { unfold wf, draws. simpl. now rewrite !length_map, length_seq. }
    apply (view_self _ Wn).
Qed.

Lemma spike_moves_whole_threshold_witness :
  exists out,
    fst (forward (vector [qc 3 1; 0]) None funky_two_thresholds_neuron)
      = Ok out /\
    show (spikes out) = ([2%nat], [1%Q; 0%Q]) /\
    threshold_of (snd (forward (vector [qc 3 1; 0]) None
                         funky_two_thresholds_neuron)) =
    Tensor (shape (threshold_of funky_two_thresholds_neuron))
      (map2 Qcplus (data (threshold_of funky_two_thresholds_neuron))
         (map (fun z => z * funkiness (self funky_two_thresholds_neuron) + 0)
            (draws funky_two_thresholds_neuron))) /\
    show (threshold_of (snd (forward (vector [qc 3 1; 0]) None
                               funky_two_thresholds_neuron))) =
      ([2%nat], [2%Q; 3%Q]).
Proof.
  eexists. split; [vm_compute; reflexivity|].
  split; [vm_compute; reflexivity|].
  split; [|vm_compute; reflexivity].
  match goal with
  | |- threshold_of _ = _ =>
      refine (spike_moves_whole_threshold funky_two_thresholds_neuron
                (vector [qc 3 1; 0]) None _ eq_refl _ _ eq_refl)
  end.
  - vm_compute. reflexivity.
  - vm_compute. reflexivity.
Defined.
